(** * IMUVideo-Application: the sensor-fusion and time-alignment core

    A shallow embedding of the numeric core of the session viewer:

    - [TimeBase]   : [detectTimeScaleFactor] and [normalizeTimeColumnInPlace]
                     (session-viewer-controller.js);
    - [Viewer]     : the IMU cursor, its bounds and the time-frame handlers
                     (session-viewer-controller.js), the time-sync panel
                     (time-sync.js) and the follow-video wiring
                     (video-metadata.js);
    - [Fusion]     : header matching, calibration and the filter loop
                     (fusion-processor.js);
    - [ArmAngle]   : quaternion helpers and the arm-angle analyser (movenet.js).

    JavaScript numbers are idealised: time values are exact rationals ([Q]),
    the fusion and quaternion code, which needs square roots, pi and arc
    cosine, works over the reals ([R]).  Non-finite values ([NaN], the
    infinities, [null], [undefined]) are represented explicitly wherever the
    source tests for them.  Where a property turns on the rounding of the
    doubles the code computes with, the function is embedded a second time
    over IEEE 754 binary64 numbers: [TimeScale] for the scale detection and
    [FusionDouble] for the calibration. *)

From Stdlib Require Import String Ascii DecimalString ZArith QArith Qminmax Qpower Qabs.
From Stdlib Require Import Lia Lqa Bool.
From Stdlib Require Floats.
From Stdlib Require Import Reals Lra List Permutation Sorted.
Import ListNotations.

(** ** Exceptions *)

(** A JavaScript computation either returns a value or throws
    [new Error(message)]. *)
Inductive result (A : Type) : Type :=
| Ok (a : A)
| Throw (message : string).
Arguments Ok {A} a.
Arguments Throw {A} message.

Definition bind {A B : Type} (c : result A) (k : A -> result B) : result B :=
  match c with
  | Ok a => k a
  | Throw m => Throw m
  end.

(** [assert(condition, message)] of movenet.js. *)
Definition assert (condition : bool) (message : string) : result unit :=
  if condition then Ok tt else Throw message.

Declare Scope js_scope.
Delimit Scope js_scope with js.
Notation "x <- c ;; k" := (bind c (fun x => k))
  (at level 61, c at next level, right associativity) : js_scope.
Notation "c ;;; k" := (bind c (fun _ => k))
  (at level 61, right associativity) : js_scope.

(** ** TimeBase normalizer (session-viewer-controller.js) *)

Module TimeBase.
Local Open Scope Q_scope.

(** A CSV cell as the normalizer sees it through [Number(cell)] and
    [Number.isFinite]: either a finite number, or a text whose numeric reading
    is not finite.  [String(tScaled)] written back is read again as [CNum]. *)
Inductive Cell : Type :=
| CNum (q : Q)
| CText (s : string).

Definition Row : Type := list Cell.

(** [Number(row?.[timeIdx])] when it is finite; a negative or out-of-range
    index reads [undefined]. *)
Definition readTime (r : Row) (timeIdx : Z) : option Q :=
  if (timeIdx <? 0)%Z then None
  else match nth_error r (Z.to_nat timeIdx) with
       | Some (CNum q) => Some q
       | _ => None
       end.

Definition Qltb (x y : Q) : bool := negb (Qle_bool y x).

(** The accumulators of the first loop of [detectTimeScaleFactor]. *)
Record Scan : Type := mkScan {
  dts : list Q;
  prev : option Q;
  firstVal : option Q;
  lastVal : option Q;
  validCount : nat
}.

Definition scanInit : Scan := mkScan [] None None None 0.

Definition scanStep (timeIdx : Z) (i : nat) (r : Row) (s : Scan) : Scan :=
  match readTime r timeIdx with
  | None => s
  | Some v =>
      mkScan
        (match prev s with
         | Some p =>
             if (i <? 201)%nat
             then (let dt := v - p in if Qltb 0 dt then dts s ++ [dt] else dts s)
             else dts s
         | None => dts s
         end)
        (Some v)
        (match firstVal s with None => Some v | Some f => Some f end)
        (Some v)
        (S (validCount s))
  end.

Fixpoint scanRows (timeIdx : Z) (i : nat) (rows : list Row) (s : Scan) : Scan :=
  match rows with
  | [] => s
  | r :: rest => scanRows timeIdx (S i) rest (scanStep timeIdx i r s)
  end.

(** [dts.sort((a, b) => a - b)]: a stable ascending sort. *)
Fixpoint insertDelta (x : Q) (l : list Q) : list Q :=
  match l with
  | [] => [x]
  | y :: l' => if Qltb x y then x :: y :: l' else y :: insertDelta x l'
  end.

Fixpoint sortDeltas (l : list Q) : list Q :=
  match l with
  | [] => []
  | x :: l' => insertDelta x (sortDeltas l')
  end.

(** [dts[Math.floor(dts.length / 2)]] of the sorted deltas. *)
Definition medianOf (ds : list Q) : Q :=
  nth (length ds / 2) (sortDeltas ds) 0.

Definition DT_MIN_S : Q := 5 # 10000.
Definition DT_MAX_S : Q := 2.
Definition RATE_MIN : Q := 1.
Definition RATE_MAX : Q := 500.

(** [Math.pow(10, e)], exact.  The properties of the normalizer proved over
    this model do not turn on which candidate is accepted at a boundary;
    [TimeScale] below has the detection over doubles. *)
Definition pow10 (e : Z) : Q := Qpower 10 e.

(** The body of the candidate loop for one exponent: does the loop return
    [10^(-exp)] at this iteration? *)
Definition accepts (medianDt rawSpan : Q) (count : nat) (exp : Z) : bool :=
  let scale := pow10 (- exp) in
  let dtSec := medianDt * scale in
  if Qltb dtSec DT_MIN_S || Qltb DT_MAX_S dtSec then false
  else
    let durSec := rawSpan * scale in
    if Qle_bool durSec 0 then false
    else
      let rate := inject_Z (Z.of_nat count) / durSec in
      Qle_bool RATE_MIN rate && Qle_bool rate RATE_MAX.

(** [for (let exp = 9; exp >= -3; exp--)]: the exponents in loop order. *)
Definition candidateExps : list Z :=
  map (fun k => (9 - Z.of_nat k)%Z) (seq 0 13).

Fixpoint firstAccepted (medianDt rawSpan : Q) (count : nat) (exps : list Z)
  : option Q :=
  match exps with
  | [] => None
  | exp :: rest =>
      if accepts medianDt rawSpan count exp then Some (pow10 (- exp))
      else firstAccepted medianDt rawSpan count rest
  end.

Definition detectTimeScaleFactor (rows : list Row) (timeIdx : Z) : Q :=
  let s := scanRows timeIdx 0 rows scanInit in
  match dts s, firstVal s, lastVal s with
  | _ :: _, Some first, Some last =>
      let medianDt := medianOf (dts s) in
      let rawSpan := last - first in
      if Qle_bool rawSpan 0 then 1
      else match firstAccepted medianDt rawSpan (validCount s) candidateExps with
           | Some scale => scale
           | None => (1 # 100) / medianDt
           end
  | _, _, _ => 1
  end.

(** The object returned by [normalizeTimeColumnInPlace]; [scale = None] is a
    result without a [scale] field. *)
Record NormInfo : Type := mkNormInfo {
  t0 : option Q;
  maxT : Q;
  t0Raw : option Q;
  maxTRaw : Q;
  scale : option Q
}.

Definition earlyInfo : NormInfo := mkNormInfo None 0 None 0 None.

(** [r[timeIdx] = String(tScaled)]. *)
Fixpoint setCell (r : Row) (k : nat) (c : Cell) : Row :=
  match r, k with
  | [], _ => []
  | _ :: r', O => c :: r'
  | x :: r', S k' => x :: setCell r' k' c
  end.

(** The rewriting loop: the rows rewritten so far are returned together with
    the running [maxTRaw] and [maxT]. *)
Fixpoint rewriteRows (timeIdx : Z) (t0raw sc : Q) (rows : list Row)
    (mraw mt : Q) : list Row * (Q * Q) :=
  match rows with
  | [] => ([], (mraw, mt))
  | r :: rest =>
      match readTime r timeIdx with
      | None =>
          let '(rest', m) := rewriteRows timeIdx t0raw sc rest mraw mt in
          (r :: rest', m)
      | Some tRaw =>
          let tRebasedRaw := tRaw - t0raw in
          let tScaled := tRebasedRaw * sc in
          let r' := setCell r (Z.to_nat timeIdx) (CNum tScaled) in
          let mraw' := if Qltb mraw tRebasedRaw then tRebasedRaw else mraw in
          let mt' := if Qltb mt tScaled then tScaled else mt in
          let '(rest', m) := rewriteRows timeIdx t0raw sc rest mraw' mt' in
          (r' :: rest', m)
      end
  end.

(** [normalizeTimeColumnInPlace(rows, timeIdx)]: the array is mutated in
    place, so the model returns the info object and the array afterwards.
    [timeIdx = None] is a [null] index. *)
Definition normalizeTimeColumnInPlace (rows : list Row) (timeIdx : option Z)
  : NormInfo * list Row :=
  match rows, timeIdx with
  | [], _ => (earlyInfo, rows)
  | _, None => (earlyInfo, rows)
  | r0 :: _, Some k =>
      if (k <? 0)%Z then (earlyInfo, rows)
      else
        match readTime r0 k with
        | None => (earlyInfo, rows)
        | Some t0raw =>
            let sc := detectTimeScaleFactor rows k in
            let '(rows', (mraw, mt)) := rewriteRows k t0raw sc rows 0 0 in
            (mkNormInfo (Some 0) mt (Some t0raw) mraw (Some sc), rows')
        end
  end.

(** The caller's [norm.scale ?? 1.0] (renderImu). *)
Definition scaleOrDefault (info : NormInfo) : Q :=
  match scale info with Some s => s | None => 1 end.

End TimeBase.

(** ** Session viewer state: IMU cursor, time frame and time sync *)

Module Viewer.
Local Open Scope Q_scope.

(** A JavaScript number: finite, or one of the three non-finite values. *)
Inductive JsNum : Type :=
| Fin (q : Q)
| NaN
| PosInf
| NegInf.

(** [Number(v)] for a field that holds a number or [null]. *)
Definition Number (v : option Q) : JsNum :=
  match v with
  | Some q => Fin q
  | None => Fin 0
  end.

(** [n || 0] on a number: [NaN] and zero are falsy. *)
Definition orZero (n : JsNum) : JsNum :=
  match n with
  | Fin q => if Qeq_bool q 0 then Fin 0 else Fin q
  | NaN => Fin 0
  | other => other
  end.

Definition orZeroQ (q : Q) : Q := if Qeq_bool q 0 then 0 else q.

(** [clamp(n, a, b)] of the controller and of the time-sync panel. *)
Definition clamp (n : JsNum) (a b : Q) : Q :=
  match n with
  | Fin v => Qmin b (Qmax a v)
  | _ => a
  end.

(** [safeNum(x, fallback)]. *)
Definition safeNum (x : JsNum) (fallback : option Q) : option Q :=
  match x with
  | Fin v => Some v
  | _ => fallback
  end.

(** [imuCursor]. *)
Record ImuCursor : Type := mkCursor { x : Q; minX : Q; maxX : Q }.

(** [imuTimeframe]. *)
Record ImuTimeframe : Type := mkTimeframe {
  tf_t1 : option Q;
  tf_t2 : option Q;
  active : bool;
  tf_start : Q;
  tf_end : Q
}.

(** [state] of the time-sync panel. *)
Record SyncState : Type := mkSync {
  videoMarkerT : option Q;
  offset : option Q;
  t1 : option Q;
  t2 : option Q
}.

(** Everything the handlers below read or write. *)
Record World : Type := mkWorld {
  imuCursor : ImuCursor;               (* controller *)
  imuMarker : option Q;                (* controller: imuMarker.x *)
  imuTimeframe : ImuTimeframe;         (* controller *)
  imuFullRangeMaxX : Q;                (* controller *)
  state : SyncState;                   (* time-sync.js *)
  followVideo : bool;                  (* window.IMU_STATE.followVideo *)
  followManualEnabled : bool;          (* Follow/Manual buttons enabled *)
  timeSync_offset : option Q;          (* video-metadata.js: timeSync.offset *)
  suppressImuToVideo : bool;           (* video-metadata.js *)
  suppressVideoToImu : bool;           (* video-metadata.js *)
  video : option Q                     (* #viewerVideo and its currentTime *)
}.

Definition initialWorld (video : option Q) : World :=
  mkWorld (mkCursor 0 0 0) None (mkTimeframe None None false 0 0) 0
          (mkSync None None None None) false false None false false video.

Definition withCursor (w : World) (c : ImuCursor) : World :=
  mkWorld c (imuMarker w) (imuTimeframe w) (imuFullRangeMaxX w) (state w)
          (followVideo w) (followManualEnabled w) (timeSync_offset w)
          (suppressImuToVideo w) (suppressVideoToImu w) (video w).

Definition withMarker (w : World) (m : option Q) : World :=
  mkWorld (imuCursor w) m (imuTimeframe w) (imuFullRangeMaxX w) (state w)
          (followVideo w) (followManualEnabled w) (timeSync_offset w)
          (suppressImuToVideo w) (suppressVideoToImu w) (video w).

Definition withTimeframe (w : World) (t : ImuTimeframe) : World :=
  mkWorld (imuCursor w) (imuMarker w) t (imuFullRangeMaxX w) (state w)
          (followVideo w) (followManualEnabled w) (timeSync_offset w)
          (suppressImuToVideo w) (suppressVideoToImu w) (video w).

Definition withFullRange (w : World) (m : Q) : World :=
  mkWorld (imuCursor w) (imuMarker w) (imuTimeframe w) m (state w)
          (followVideo w) (followManualEnabled w) (timeSync_offset w)
          (suppressImuToVideo w) (suppressVideoToImu w) (video w).

Definition withState (w : World) (s : SyncState) : World :=
  mkWorld (imuCursor w) (imuMarker w) (imuTimeframe w) (imuFullRangeMaxX w) s
          (followVideo w) (followManualEnabled w) (timeSync_offset w)
          (suppressImuToVideo w) (suppressVideoToImu w) (video w).

Definition withFollowVideo (w : World) (b : bool) : World :=
  mkWorld (imuCursor w) (imuMarker w) (imuTimeframe w) (imuFullRangeMaxX w)
          (state w) b (followManualEnabled w) (timeSync_offset w)
          (suppressImuToVideo w) (suppressVideoToImu w) (video w).

Definition withFollowManualEnabled (w : World) (b : bool) : World :=
  mkWorld (imuCursor w) (imuMarker w) (imuTimeframe w) (imuFullRangeMaxX w)
          (state w) (followVideo w) b (timeSync_offset w)
          (suppressImuToVideo w) (suppressVideoToImu w) (video w).

Definition withOffsetCache (w : World) (o : option Q) : World :=
  mkWorld (imuCursor w) (imuMarker w) (imuTimeframe w) (imuFullRangeMaxX w)
          (state w) (followVideo w) (followManualEnabled w) o
          (suppressImuToVideo w) (suppressVideoToImu w) (video w).

Definition withSuppressImuToVideo (w : World) (b : bool) : World :=
  mkWorld (imuCursor w) (imuMarker w) (imuTimeframe w) (imuFullRangeMaxX w)
          (state w) (followVideo w) (followManualEnabled w) (timeSync_offset w)
          b (suppressVideoToImu w) (video w).

Definition withSuppressVideoToImu (w : World) (b : bool) : World :=
  mkWorld (imuCursor w) (imuMarker w) (imuTimeframe w) (imuFullRangeMaxX w)
          (state w) (followVideo w) (followManualEnabled w) (timeSync_offset w)
          (suppressImuToVideo w) b (video w).

Definition withVideo (w : World) (v : option Q) : World :=
  mkWorld (imuCursor w) (imuMarker w) (imuTimeframe w) (imuFullRangeMaxX w)
          (state w) (followVideo w) (followManualEnabled w) (timeSync_offset w)
          (suppressImuToVideo w) (suppressVideoToImu w) v.

(** *** video-metadata.js: wireVideoImuSync *)

(** [canFollow()]. *)
Definition canFollow (w : World) : bool :=
  followVideo w && match timeSync_offset w with Some _ => true | None => false end.

(** The [movesync:imu-cursor-changed] listener (IMU -> video).  It is wired
    only when the video element exists. *)
Definition onImuCursorChanged (imuTime : Q) (w : World) : World :=
  match video w with
  | None => w
  | Some _ =>
      if negb (canFollow w) || suppressImuToVideo w then w
      else
        match timeSync_offset w with
        | None => w
        | Some off =>
            let videoT := imuTime + off in
            let w1 := withSuppressVideoToImu w true in
            let w2 := withVideo w1 (Some (Qmax 0 videoT)) in
            withSuppressVideoToImu w2 false
        end
  end.

(** *** session-viewer-controller.js *)

(** [setImuCursorX(x)]; the argument is [Number(x)].  The dispatch of
    [movesync:imu-cursor-changed] runs its listener before returning. *)
Definition setImuCursorX (n : JsNum) (w : World) : World :=
  let c := imuCursor w in
  let x' := clamp (orZero n) (orZeroQ (minX c)) (orZeroQ (maxX c)) in
  let w1 := withCursor w (mkCursor x' (minX c) (maxX c)) in
  onImuCursorChanged x' w1.

(** [resetZoomToFullRange()]. *)
Definition resetZoomToFullRange (w : World) : World :=
  let min' := 0 in
  let max' := imuFullRangeMaxX w in
  let x' := clamp (orZero (Fin (x (imuCursor w)))) min' (orZeroQ max') in
  withCursor w (mkCursor x' min' max').

(** [imuPanel.setMarkerX(x)]; [None] is [null]. *)
Definition setMarkerX (v : option JsNum) (w : World) : World :=
  match v with
  | None => withMarker w None
  | Some (Fin q) =>
      withMarker w (Some (clamp (Fin q) 0 (orZeroQ (maxX (imuCursor w)))))
  | Some _ => w
  end.

(** The [movesync:imu-timeframe-marked] listener. *)
Definition onTimeframeMarked (d1 d2 : option Q) (w : World) : World :=
  let tf := imuTimeframe w in
  withTimeframe w
    (mkTimeframe (safeNum (Number d1) (tf_t1 tf)) (safeNum (Number d2) (tf_t2 tf))
                 (active tf) (tf_start tf) (tf_end tf)).

(** The [movesync:imu-timeframe-reset] listener. *)
Definition onTimeframeReset (w : World) : World :=
  resetZoomToFullRange (withTimeframe w (mkTimeframe None None false 0 0)).

(** The [movesync:imu-timeframe-applied] listener. *)
Definition onTimeframeApplied (start end_ : Q) (d1 d2 : option Q) (w : World)
  : World :=
  match safeNum (Fin start) None, safeNum (Fin end_) None with
  | Some s, Some e =>
      let a := Qmin s e in
      let b := Qmax s e in
      let tf := imuTimeframe w in
      let w1 :=
        withTimeframe w
          (mkTimeframe (safeNum (Number d1) (tf_t1 tf))
                       (safeNum (Number d2) (tf_t2 tf)) true a b) in
      withCursor w1 (mkCursor (clamp (Fin (x (imuCursor w1))) a b) a b)
  | _, _ => w
  end.

(** The part of [renderImu] that sets the cursor: [None] is a session without
    CSV text, [Some (rows, timeIdx)] the parsed rows and the index found by
    [findTimeIndex]. *)
Definition renderImu (csv : option (list TimeBase.Row * Z)) (w : World) : World :=
  match csv with
  | None => withMarker (withFullRange (withCursor w (mkCursor 0 0 0)) 0) None
  | Some (rows, timeIdx) =>
      let norm := fst (TimeBase.normalizeTimeColumnInPlace rows (Some timeIdx)) in
      withFullRange (withCursor w (mkCursor 0 0 (TimeBase.maxT norm)))
                    (TimeBase.maxT norm)
  end.

(** The [movesync:time-sync-mode-changed] listener of [wireSyncPanel]. *)
Definition applyMode (follow : bool) (w : World) : World :=
  let follow' :=
    if follow
    then match timeSync_offset w with None => false | Some _ => true end
    else false in
  withFollowVideo w follow'.

(** [pushVideoTimeToImu()]. *)
Definition pushVideoTimeToImu (w : World) : World :=
  match video w with
  | None => w
  | Some currentTime =>
      if suppressVideoToImu w then w
      else
        let videoT := orZeroQ currentTime in
        if negb (canFollow w) then w
        else
          let off := match timeSync_offset w with Some o => o | None => 0 end in
          let imuT := videoT - off in
          let w1 := withSuppressImuToVideo w true in
          let w2 := setImuCursorX (Fin imuT) w1 in
          withSuppressImuToVideo w2 false
  end.

(** *** time-sync.js *)

(** [setFollowVideoMode(followVideo)] with the two listeners of
    [movesync:time-sync-mode-changed] in the order they were added. *)
Definition setFollowVideoMode (follow : bool) (w : World) : World :=
  let w1 := withFollowVideo w follow in
  let w2 := applyMode follow w1 in
  if canFollow w2 then pushVideoTimeToImu w2 else w2.

(** The two listeners of [movesync:time-sync-changed] in video-metadata.js:
    the offset cache first, then the snap of the cursor. *)
Definition onTimeSyncChanged (w : World) : World :=
  let w1 := withOffsetCache w (offset (state w)) in
  if canFollow w1 then pushVideoTimeToImu w1 else w1.

Definition canApplyTimeframe (s : SyncState) : bool :=
  match t1 s, t2 s with
  | Some a, Some b => negb (Qeq_bool a b)
  | _, _ => false
  end.

Definition markVideo (w : World) : World :=
  match video w with
  | None => w
  | Some currentTime =>
      let s := state w in
      withState w (mkSync (Some currentTime) (offset s) (t1 s) (t2 s))
  end.

Definition markImu (w : World) : World :=
  setMarkerX (Some (Fin (x (imuCursor w)))) w.

Definition computeOffset (w : World) : World :=
  let s := state w in
  match videoMarkerT s, imuMarker w with
  | Some v, Some m =>
      let w1 := withState w (mkSync (videoMarkerT s) (Some (v - m)) (t1 s) (t2 s)) in
      let w2 := withFollowManualEnabled w1 true in
      let w3 := setFollowVideoMode false w2 in
      onTimeSyncChanged w3
  | _, _ => w
  end.

Definition clearAll (w : World) : World :=
  let w1 := withState w (mkSync None None None None) in
  let w2 := setMarkerX None w1 in
  let w3 := onTimeframeReset w2 in
  let w4 := withFollowManualEnabled w3 false in
  let w5 := setFollowVideoMode false w4 in
  onTimeSyncChanged w5.

Definition markT1 (w : World) : World :=
  let s := state w in
  let s' := mkSync (videoMarkerT s) (offset s) (Some (x (imuCursor w))) (t2 s) in
  onTimeframeMarked (t1 s') (t2 s') (withState w s').

Definition markT2 (w : World) : World :=
  let s := state w in
  let s' := mkSync (videoMarkerT s) (offset s) (t1 s) (Some (x (imuCursor w))) in
  onTimeframeMarked (t1 s') (t2 s') (withState w s').

Definition resetT1T2 (w : World) : World :=
  let s := state w in
  onTimeframeReset (withState w (mkSync (videoMarkerT s) (offset s) None None)).

Definition applyTimeframe (w : World) : World :=
  let s := state w in
  if canApplyTimeframe s then
    match t1 s, t2 s with
    | Some a, Some b => onTimeframeApplied (Qmin a b) (Qmax a b) (t1 s) (t2 s) w
    | _, _ => w
    end
  else w.

(** The Follow / Manual buttons ignore clicks while disabled. *)
Definition clickFollow (follow : bool) (w : World) : World :=
  if followManualEnabled w then setFollowVideoMode follow w else w.

(** The actions that drive the viewer. *)
Inductive Event : Type :=
| SliderInput (n : JsNum)          (* the cursor slider / setCursorX(x) *)
| VideoTime (t : Q)                (* timeupdate / seeked at playhead t *)
| RenderImu (csv : option (list TimeBase.Row * Z))
| MarkVideo
| MarkImu
| ComputeOffset
| ClearAll
| MarkT1
| MarkT2
| ResetT1T2
| ApplyTimeframe
| ClickFollow (follow : bool).

Definition handle (e : Event) (w : World) : World :=
  match e with
  | SliderInput n => setImuCursorX n w
  | VideoTime t =>
      match video w with
      | None => w
      | Some _ => pushVideoTimeToImu (withVideo w (Some t))
      end
  | RenderImu csv => renderImu csv w
  | MarkVideo => markVideo w
  | MarkImu => markImu w
  | ComputeOffset => computeOffset w
  | ClearAll => clearAll w
  | MarkT1 => markT1 w
  | MarkT2 => markT2 w
  | ResetT1T2 => resetT1T2 w
  | ApplyTimeframe => applyTimeframe w
  | ClickFollow follow => clickFollow follow w
  end.

Definition run (es : list Event) (w : World) : World :=
  fold_left (fun w e => handle e w) es w.

End Viewer.

(** ** Sensor fusion (fusion-processor.js) *)

Module Fusion.
Local Open Scope R_scope.

(** *** Header matching *)

Definition isSpace (c : ascii) : bool :=
  let n := nat_of_ascii c in
  Nat.eqb n 32 || (Nat.leb 9 n && Nat.leb n 13).

Definition toLowerChar (c : ascii) : ascii :=
  let n := nat_of_ascii c in
  if Nat.leb 65 n && Nat.leb n 90 then ascii_of_nat (n + 32) else c.

(** The class [[a-z0-9]]. *)
Definition isAlnum (c : ascii) : bool :=
  let n := nat_of_ascii c in
  (Nat.leb 97 n && Nat.leb n 122) || (Nat.leb 48 n && Nat.leb n 57).

Definition isUnderscore (c : ascii) : bool := Ascii.eqb c "_"%char.

Fixpoint dropWhile (p : ascii -> bool) (l : list ascii) : list ascii :=
  match l with
  | [] => []
  | c :: r => if p c then dropWhile p r else l
  end.

Definition dropWhileEnd (p : ascii -> bool) (l : list ascii) : list ascii :=
  rev (dropWhile p (rev l)).

(** [.trim()] *)
Definition trim (l : list ascii) : list ascii :=
  dropWhileEnd isSpace (dropWhile isSpace l).

(** [.replace(/[^a-z0-9]+/g, '_')]; [inRun] tells that the previous
    character already belonged to the run being replaced. *)
Fixpoint squash (inRun : bool) (l : list ascii) : list ascii :=
  match l with
  | [] => []
  | c :: r =>
      if isAlnum c then c :: squash false r
      else if inRun then squash true r
      else "_"%char :: squash true r
  end.

(** [.replace(/^_+|_+$/g, '')] *)
Definition stripUnderscores (l : list ascii) : list ascii :=
  dropWhileEnd isUnderscore (dropWhile isUnderscore l).

(** [normalize] of [findAxisKeys]; headers are taken to be ASCII. *)
Definition normalize (s : string) : string :=
  string_of_list_ascii
    (stripUnderscores
       (squash false (map toLowerChar (trim (list_ascii_of_string s))))).

Inductive Sensor : Type := acc | gyro | mag.
Inductive Axis : Type := AxisX | AxisY | AxisZ.

Definition candidates (sensor : Sensor) (axis : Axis) : list string :=
  match sensor, axis with
  | acc, AxisX => ["acc_x"; "accel_x"; "ax"; "accelerometer_x"; "accx"]
  | acc, AxisY => ["acc_y"; "accel_y"; "ay"; "accelerometer_y"; "accy"]
  | acc, AxisZ => ["acc_z"; "accel_z"; "az"; "accelerometer_z"; "accz"]
  | gyro, AxisX => ["gyro_x"; "gx"; "gyroscope_x"; "gyrox"]
  | gyro, AxisY => ["gyro_y"; "gy"; "gyroscope_y"; "gyroy"]
  | gyro, AxisZ => ["gyro_z"; "gz"; "gyroscope_z"; "gyroz"]
  | mag, AxisX => ["mag_x"; "mx"; "magnetometer_x"; "magx"]
  | mag, AxisY => ["mag_y"; "my"; "magnetometer_y"; "magy"]
  | mag, AxisZ => ["mag_z"; "mz"; "magnetometer_z"; "magz"]
  end%string.

(** [Array.prototype.indexOf]; [None] is [-1]. *)
Fixpoint indexOf (l : list string) (s : string) : option nat :=
  match l with
  | [] => None
  | h :: r =>
      if String.eqb h s then Some O
      else match indexOf r s with
           | Some i => Some (S i)
           | None => None
           end
  end.

(** [findIndex(axis)]: the first candidate, in table order, that occurs among
    the normalized headers; [None] is [null]. *)
Fixpoint findIndexIn (normHeaders : list string) (cs : list string) : option nat :=
  match cs with
  | [] => None
  | c :: rest =>
      match indexOf normHeaders (normalize c) with
      | Some idx => Some idx
      | None => findIndexIn normHeaders rest
      end
  end.

Record AxisKeys : Type := mkKeys {
  key_x : option nat;
  key_y : option nat;
  key_z : option nat
}.

Definition findAxisKeys (headers : list string) (sensor : Sensor) : AxisKeys :=
  let normHeaders := map normalize headers in
  mkKeys (findIndexIn normHeaders (candidates sensor AxisX))
         (findIndexIn normHeaders (candidates sensor AxisY))
         (findIndexIn normHeaders (candidates sensor AxisZ)).

Definition isSome {A : Type} (o : option A) : bool :=
  match o with Some _ => true | None => false end.

Definition hasAxisData (headers : list string) (sensor : Sensor) : bool :=
  let keys := findAxisKeys headers sensor in
  isSome (key_x keys) && isSome (key_y keys) && isSome (key_z keys).

(** *** Axis data *)

(** The three per-axis arrays [{x, y, z}]. *)
Record AxisData : Type := mkAxes {
  x_ : list R;
  y_ : list R;
  z_ : list R
}.

(** A row of sensor cells.  Cells are taken to be numeric; a missing cell
    reads as [Number(undefined || 0) = 0]. *)
Definition SensorRow : Type := list R.

Definition cell (r : SensorRow) (k : option nat) : R :=
  match k with
  | Some i => nth i r 0
  | None => 0
  end.

Definition extractAxisData (rows : list SensorRow) (headers : list string)
    (sensor : Sensor) : AxisData :=
  let keys := findAxisKeys headers sensor in
  mkAxes (map (fun r => cell r (key_x keys)) rows)
         (map (fun r => cell r (key_y keys)) rows)
         (map (fun r => cell r (key_z keys)) rows).

(** *** High-pass filter *)

(** The loop of [highPassFilter] from index 1 on: [prevF] is
    [filtered[i - 1]] and [prevD] is [data[i - 1]]. *)
Fixpoint highPassLoop (alpha prevF prevD : R) (rest : list R) : list R :=
  match rest with
  | [] => []
  | d :: rest' =>
      let f := alpha * (prevF + d - prevD) in
      f :: highPassLoop alpha f d rest'
  end.

Definition highPassFilter (data : list R) (sampleRate cutoffFreq : R) : list R :=
  let RC := 1 / (cutoffFreq * 2 * PI) in
  let dt := 1 / sampleRate in
  let alpha := RC / (RC + dt) in
  0 :: match data with
       | [] => []
       | d0 :: rest => highPassLoop alpha 0 d0 rest
       end.

Definition cutoffFreq : R := 5 / 10.

Definition removeGravityBias (accData : AxisData) (sampleRate : R) : AxisData :=
  mkAxes (highPassFilter (x_ accData) sampleRate cutoffFreq)
         (highPassFilter (y_ accData) sampleRate cutoffFreq)
         (highPassFilter (z_ accData) sampleRate cutoffFreq).

(** *** Calibration *)

(** [[...arr].sort((a, b) => a - b)] *)
Fixpoint insert (v : R) (l : list R) : list R :=
  match l with
  | [] => [v]
  | h :: l' => if Rlt_dec v h then v :: h :: l' else h :: insert v l'
  end.

Fixpoint sort (l : list R) : list R :=
  match l with
  | [] => []
  | v :: l' => insert v (sort l')
  end.

(** [median(arr)]; [None] is the [NaN] obtained for an empty array. *)
Definition median (arr : list R) : option R :=
  let sorted := sort arr in
  let mid := (length sorted / 2)%nat in
  match sorted with
  | [] => None
  | _ =>
      if Nat.eqb (length sorted mod 2) 1 then Some (nth mid sorted 0)
      else Some ((nth (mid - 1) sorted 0 + nth mid sorted 0) / 2)
  end.

(** [mean(arr)] *)
Definition mean (arr : list R) : R :=
  fold_left Rplus arr 0 / INR (length arr).

(** [data.map(v => v - bias)] with [bias = median(data)]; for an empty array
    the bias is [NaN] and the map runs over no element. *)
Definition subtractMedian (data : list R) : list R :=
  match median data with
  | Some bias => map (fun v => v - bias) data
  | None => []
  end.

Definition calibrateMagnetometer (magData : AxisData) : AxisData :=
  mkAxes (subtractMedian (x_ magData))
         (subtractMedian (y_ magData))
         (subtractMedian (z_ magData)).

(** [accData.x.map((_, i) => Math.sqrt(ax*ax + ay*ay + az*az))]; the three
    arrays have the same length wherever the processor builds them. *)
Definition magnitudes (accData : AxisData) : list R :=
  map (fun i =>
         let ax := nth i (x_ accData) 0 in
         let ay := nth i (y_ accData) 0 in
         let az := nth i (z_ accData) 0 in
         sqrt (ax * ax + ay * ay + az * az))
      (seq 0 (length (x_ accData))).

Definition accScale (accData : AxisData) : R :=
  let avgMagnitude := mean (magnitudes accData) in
  if Rgt_dec avgMagnitude 0 then 1 / avgMagnitude else 1.

Definition calibrateAccelerometer (accData : AxisData) : AxisData :=
  let scale := accScale accData in
  mkAxes (map (fun v => v * scale) (x_ accData))
         (map (fun v => v * scale) (y_ accData))
         (map (fun v => v * scale) (z_ accData)).

(** *** Orientation *)

Definition Quat : Type := (R * R * R * R)%type.

Record Euler : Type := mkEuler { roll : R; pitch : R; yaw : R }.

(** [Math.atan2(y, x)] on finite arguments (signed zeros are not told
    apart). *)
Definition atan2 (y x : R) : R :=
  if Rlt_dec 0 x then atan (y / x)
  else if Rlt_dec x 0 then
         (if Rle_dec 0 y then atan (y / x) + PI else atan (y / x) - PI)
       else if Rlt_dec 0 y then PI / 2
            else if Rlt_dec y 0 then - (PI / 2) else 0.

Definition sign (v : R) : R :=
  if Rlt_dec 0 v then 1 else if Rlt_dec v 0 then -1 else 0.

Definition quaternionToEuler (q : Quat) : Euler :=
  let '(w, x, y, z) := q in
  let sinr_cosp := 2 * (w * x + y * z) in
  let cosr_cosp := 1 - 2 * (x * x + y * y) in
  let sinp := 2 * (w * y - z * x) in
  let siny_cosp := 2 * (w * z + x * y) in
  let cosy_cosp := 1 - 2 * (y * y + z * z) in
  mkEuler (atan2 sinr_cosp cosr_cosp)
          (if Rge_dec (Rabs sinp) 1 then sign sinp * PI / 2 else asin sinp)
          (atan2 siny_cosp cosy_cosp).

Definition quaternionToRotationMatrix (q : Quat) : list (list R) :=
  let '(w, x, y, z) := q in
  [ [1 - 2*(y*y + z*z); 2*(x*y - w*z); 2*(x*z + w*y)];
    [2*(x*y + w*z); 1 - 2*(x*x + z*z); 2*(y*z - w*x)];
    [2*(x*z - w*y); 2*(y*z + w*x); 1 - 2*(x*x + y*y)] ].

(** One entry of [orientations]; [quat] is the array [[w, x, y, z]]. *)
Record Orientation : Type := mkOrientation {
  quat : list R;
  euler : option Euler;
  rotMatrix : list (list R)
}.

Record FusionResult : Type := mkFusionResult {
  times : option (list R);
  orientations : list Orientation;
  algorithm : string;
  sampleRate : R
}.

(** *** The AHRS filter library (ahrs_min.js, loaded separately) *)

(** The arguments of one [filter.update(gx, gy, gz, ax, ay, az, mx, my, mz, dt)]. *)
Record UpdateArgs : Type := mkArgs {
  gx : R; gy : R; gz : R;
  ax : R; ay : R; az : R;
  mx : R; my : R; mz : R;
  dt : R
}.

(** A filter object: its private state, [update] and [getQuaternion]. *)
Record Filter : Type := mkFilter {
  fstate : Type;
  finit : fstate;
  update : fstate -> UpdateArgs -> fstate;
  getQuaternion : fstate -> Quat
}.

(** The globals the library defines when it is loaded:
    [new Madgwick({sampleInterval, beta})] and [new Mahony({sampleInterval})]. *)
Record Library : Type := mkLibrary {
  Madgwick : option (R -> R -> Filter);
  Mahony : option (R -> Filter)
}.

Definition createFilter (lib : Library) (algo : string) (rate beta : R)
  : result Filter :=
  match Madgwick lib with
  | None => Throw "AHRS library not loaded. Add ahrs_min.js to your project"
  | Some newMadgwick =>
      if String.eqb algo "madgwick" then Ok (newMadgwick (1000 / rate) beta)
      else if String.eqb algo "mahony" then
             match Mahony lib with
             | Some newMahony => Ok (newMahony (1000 / rate))
             | None => Throw "Mahony is not defined"
             end
      else if String.eqb algo "complementary" then
             Ok (newMadgwick (1000 / rate) beta)
      else Throw ("Unknown algorithm: " ++ algo)
  end.

(** *** FusionProcessor.process *)

Record Options : Type := mkOptions {
  opt_rows : list SensorRow;
  opt_headers : list string;
  opt_timeSeconds : option (list R);
  opt_sampleRate : option R;          (* [None]: left out, defaults to 100 *)
  opt_algorithm : option string;      (* [None]: left out, 'madgwick' *)
  opt_beta : option R                 (* [None]: left out, 0.1 *)
}.

Definition orDefault {A : Type} (o : option A) (d : A) : A :=
  match o with Some a => a | None => d end.

(** The arguments passed to [filter.update] at iteration [i] of the loop. *)
Definition updateArgsAt (accCal gyroData magCal : AxisData)
    (gyroIsDegrees : bool) (dt_ : R) (i : nat) : UpdateArgs :=
  let conv v := if gyroIsDegrees then v * PI / 180 else v in
  mkArgs (conv (nth i (x_ gyroData) 0))
         (conv (nth i (y_ gyroData) 0))
         (conv (nth i (z_ gyroData) 0))
         (nth i (x_ accCal) 0) (nth i (y_ accCal) 0) (nth i (z_ accCal) 0)
         (nth i (x_ magCal) 0) (nth i (y_ magCal) 0) (nth i (z_ magCal) 0)
         dt_.

(** The update loop: the filter state is threaded through the samples and
    the quaternion is read after every update. *)
Fixpoint runFilter (f : Filter) (st : fstate f) (inputs : list UpdateArgs)
  : list Quat :=
  match inputs with
  | [] => []
  | a :: rest =>
      let st' := update f st a in
      getQuaternion f st' :: runFilter f st' rest
  end.

Definition orientationOf (q : Quat) : Orientation :=
  let '(w, x, y, z) := q in
  mkOrientation [w; x; y; z] (Some (quaternionToEuler q))
                (quaternionToRotationMatrix q).

(** Everything [process] computes before the loop, for a given sample rate. *)
Definition accCalOf (rows : list SensorRow) (headers : list string) (rate : R)
  : AxisData :=
  calibrateAccelerometer (removeGravityBias (extractAxisData rows headers acc) rate).

Definition magCalOf (rows : list SensorRow) (headers : list string) : AxisData :=
  calibrateMagnetometer (extractAxisData rows headers mag).

Definition gyroIsDegreesOf (gyroData : AxisData) : bool :=
  let gyroSample :=
    Rabs (nth 0 (x_ gyroData) 0) + Rabs (nth 0 (y_ gyroData) 0)
    + Rabs (nth 0 (z_ gyroData) 0) in
  if Rgt_dec gyroSample 10 then true else false.

(** The sequence of arguments the loop feeds to [filter.update]. *)
Definition filterInputs (rows : list SensorRow) (headers : list string) (rate : R)
  : list UpdateArgs :=
  let gyroData := extractAxisData rows headers gyro in
  map (updateArgsAt (accCalOf rows headers rate) gyroData
                    (magCalOf rows headers) (gyroIsDegreesOf gyroData)
                    (1 / rate))
      (seq 0 (length rows)).

Definition process (lib : Library) (options : Options) : result FusionResult :=
  let rows := opt_rows options in
  let headers := opt_headers options in
  let rate := orDefault (opt_sampleRate options) 100 in
  let algo := orDefault (opt_algorithm options) "madgwick"%string in
  let beta := orDefault (opt_beta options) (1 / 10) in
  match rows with
  | [] => Throw "No IMU data to process"
  | _ :: _ =>
      if negb (hasAxisData headers acc && hasAxisData headers gyro
               && hasAxisData headers mag)
      then Throw "9-DOF data required (acc + gyro + mag)"
      else
        (filter <- createFilter lib algo rate beta ;;
         Ok (mkFusionResult
               (opt_timeSeconds options)
               (map orientationOf
                    (runFilter filter (finit filter)
                               (filterInputs rows headers rate)))
               algo rate))%js
  end.

(** *** FusionManager.processFusion *)

Record ManagerOptions : Type := mkManagerOptions {
  m_rows : list SensorRow;
  m_headers : list string;
  m_timeSeconds : option (list R);
  m_timeSecondsIndex : option nat;
  m_sampleRate : option R            (* [None]: left out *)
}.

(** The deltas collected by the estimation loop,
    [for (let i = 1; i <= n; i++)] with [n = Math.min(ts.length - 1, 200)]. *)
Definition collectDts (ts : list R) : list R :=
  let n := Nat.min (length ts - 1) 200 in
  flat_map (fun i =>
              let d := nth i ts 0 - nth (i - 1) ts 0 in
              if Rgt_dec d 0 then [d] else [])
           (seq 1 n).

(** [medianDt]; [None] is [null]. *)
Definition medianDtOf (dts : list R) : option R :=
  let sorted := sort dts in
  let mid := (length sorted / 2)%nat in
  match sorted with
  | [] => None
  | _ =>
      if Nat.eqb (length sorted mod 2) 1 then Some (nth mid sorted 0)
      else Some ((nth (mid - 1) sorted 0 + nth mid sorted 0) / 2)
  end.

(** The sample rate [processFusion] hands to [process]. *)
Definition estimateSampleRate (given : option R) (timeSeconds : option (list R))
  : option R :=
  match given, timeSeconds with
  | Some r, _ => Some r
  | None, Some ts =>
      if Nat.ltb 2 (length ts) then
        match medianDtOf (collectDts ts) with
        | Some medianDt =>
            if Rgt_dec medianDt 0 then Some (1 / medianDt) else None
        | None => None
        end
      else None
  | None, None => None
  end.

(** [currentSettings] *)
Definition currentAlgorithm : string := "madgwick".
Definition currentBeta : R := 1 / 10.

Definition processFusion (lib : Library) (options : ManagerOptions)
  : result FusionResult :=
  let timeSeconds :=
    match m_timeSeconds options, m_timeSecondsIndex options with
    | Some ts, _ => Some ts
    | None, Some tIdx => Some (map (fun r => nth tIdx r 0) (m_rows options))
    | None, None => None
    end in
  let rate := estimateSampleRate (m_sampleRate options) timeSeconds in
  process lib
    (mkOptions (m_rows options) (m_headers options) timeSeconds rate
               (Some currentAlgorithm) (Some currentBeta)).

End Fusion.

(** ** Arm-angle analysis (movenet.js) *)

Module ArmAngle.
Import Fusion.
Local Open Scope R_scope.

(** [clamp(v, min, max)] of this module. *)
Definition clamp (v lo hi : R) : R := Rmax lo (Rmin hi v).

Definition rad2deg (r : R) : R := (r * 180) / PI.

Module Quat.

Definition conjugate (q : Quat) : Quat :=
  let '(w, x, y, z) := q in (w, - x, - y, - z).

Definition multiply (q1 q2 : Quat) : Quat :=
  let '(w1, x1, y1, z1) := q1 in
  let '(w2, x2, y2, z2) := q2 in
  (w1 * w2 - x1 * x2 - y1 * y2 - z1 * z2,
   w1 * x2 + x1 * w2 + y1 * z2 - z1 * y2,
   w1 * y2 - x1 * z2 + y1 * w2 + z1 * x2,
   w1 * z2 + x1 * y2 - y1 * x2 + z1 * w2).

Definition canonicalize (q : Quat) : Quat :=
  let '(w, x, y, z) := q in
  if Rlt_dec w 0 then (- w, - x, - y, - z) else (w, x, y, z).

Definition relativeAngleDeg (qA qB : Quat) : R :=
  let a := canonicalize qA in
  let b := canonicalize qB in
  let qRel := multiply b (conjugate a) in
  let w := clamp (fst (fst (fst qRel))) (-1) 1 in
  let angleRad := 2 * acos w in
  rad2deg angleRad.

End Quat.

(** [Array.isArray(q) && q.length === 4] followed by the destructuring
    [[w, x, y, z]]. *)
Definition asQuat (q : list R) : option Quat :=
  match q with
  | [w; x; y; z] => Some (w, x, y, z)
  | _ => None
  end.

(** The Euler triple in degrees stored in [out.shoulder]. *)
Record EulerDeg : Type := mkEulerDeg { deg_pitch : R; deg_roll : R; deg_yaw : R }.

(** The object built by [#compute]. *)
Record Angles : Type := mkAngles {
  a_elbow : list R;
  a_wrist : list R;
  a_shoulder : list (option EulerDeg);
  a_times : list R
}.

(** The private fields of [ArmAngleAnalyser]. *)
Record Analyser : Type := mkAnalyser {
  f_shoulder : option FusionResult;
  f_elbow : option FusionResult;
  f_wrist : option FusionResult;
  f_angles : option Angles
}.

Definition newAnalyser : Analyser := mkAnalyser None None None None.

Definition natToString (n : nat) : string :=
  NilEmpty.string_of_uint (Nat.to_uint n).

(** [orientations[i]?.quat] checked by the assertion of the loop. *)
Definition quatAt (f : FusionResult) (i : nat) (who : string) : result Quat :=
  match nth_error (orientations f) i with
  | Some o =>
      match asQuat (quat o) with
      | Some q => Ok q
      | None => Throw ("Invalid " ++ who ++ " quat at i=" ++ natToString i)
      end
  | None => Throw ("Invalid " ++ who ++ " quat at i=" ++ natToString i)
  end.

Definition shoulderEulerAt (s : FusionResult) (i : nat) : option EulerDeg :=
  match nth_error (orientations s) i with
  | Some o =>
      match euler o with
      | Some e => Some (mkEulerDeg (rad2deg (pitch e)) (rad2deg (roll e))
                                   (rad2deg (yaw e)))
      | None => None
      end
  | None => None
  end.

(** One iteration of the loop of [#compute]. *)
Definition computeAt (s e w : FusionResult) (i : nat)
  : result (R * R * option EulerDeg) :=
  (sQuat <- quatAt s i "shoulder" ;;
   eQuat <- quatAt e i "elbow" ;;
   wQuat <- quatAt w i "wrist" ;;
   Ok (Quat.relativeAngleDeg sQuat eQuat,
       Quat.relativeAngleDeg eQuat wQuat,
       shoulderEulerAt s i))%js.

(** The loop [for (let i = 0; i < n; i++)] over the indices still to do:
    the first failing assertion aborts it. *)
Fixpoint computeLoop (s e w : FusionResult) (idxs : list nat)
  : result (list (R * R * option EulerDeg)) :=
  match idxs with
  | [] => Ok []
  | i :: rest =>
      (v <- computeAt s e w i ;;
       vs <- computeLoop s e w rest ;;
       Ok (v :: vs))%js
  end.

Definition sampleCount (s e w : FusionResult) (ts : list R) : nat :=
  Nat.min (Nat.min (Nat.min (length (orientations s)) (length (orientations e)))
                   (length (orientations w)))
          (length ts).

(** [#compute()] for the three stored results; [ts] is [shoulder.times]. *)
Definition compute (s e w : FusionResult) (ts : list R) : result Angles :=
  let n := sampleCount s e w ts in
  (assert (Nat.ltb 0 n) "No samples available to compute angles." ;;;
   vs <- computeLoop s e w (seq 0 n) ;;
   Ok (mkAngles (map (fun v => fst (fst v)) vs)
                (map (fun v => snd (fst v)) vs)
                (map snd vs)
                (firstn n ts)))%js.

(** [setImuData({shoulder, elbow, wrist})]: the analyser afterwards and what
    the call returns or throws.  The two [orientations] arrays checks hold by
    typing. *)
Definition setImuData (an : Analyser) (shoulder elbow wrist : option FusionResult)
  : Analyser * result Angles :=
  match shoulder, elbow, wrist with
  | Some s, Some e, Some w =>
      match times s with
      | None => (an, Throw "Shoulder data missing times[]")
      | Some ts =>
          match compute s e w ts with
          | Ok out =>
              (mkAnalyser shoulder elbow wrist (Some out), Ok out)
          | Throw m =>
              (mkAnalyser shoulder elbow wrist (f_angles an), Throw m)
          end
      end
  | _, _, _ =>
      (an, Throw "All three IMUs (shoulder, elbow, wrist) must be set")
  end.

(** Numbers as [statsOf] produces them. *)
Inductive Num : Type :=
| Finite (r : R)
| NaN
| Infinity
| NegInfinity.

Definition ltNum (a b : Num) : bool :=
  match a, b with
  | Finite u, Finite v => if Rlt_dec u v then true else false
  | Finite _, Infinity => true
  | NegInfinity, Finite _ => true
  | NegInfinity, Infinity => true
  | _, _ => false
  end.

Definition subNum (a b : Num) : Num :=
  match a, b with
  | NaN, _ | _, NaN => NaN
  | Finite u, Finite v => Finite (u - v)
  | Infinity, Infinity => NaN
  | NegInfinity, NegInfinity => NaN
  | Infinity, _ => Infinity
  | NegInfinity, _ => NegInfinity
  | Finite _, Infinity => NegInfinity
  | Finite _, NegInfinity => Infinity
  end.

Record Stats : Type := mkStats {
  st_mean : Num;
  st_min : Num;
  st_max : Num;
  st_range : Num
}.

Definition statsStep (st : R * Num * Num) (v : R) : R * Num * Num :=
  let '(sum, mn, mx) := st in
  (sum + v,
   if ltNum (Finite v) mn then Finite v else mn,
   if ltNum mx (Finite v) then Finite v else mx).

Definition statsOf (arr : list R) : Stats :=
  match arr with
  | [] => mkStats NaN NaN NaN NaN
  | _ =>
      let '(sum, mn, mx) := fold_left statsStep arr (0, Infinity, NegInfinity) in
      mkStats (Finite (sum / INR (length arr))) mn mx (subNum mx mn)
  end.

Record JointStats : Type := mkJointStats { s_elbow : Stats; s_wrist : Stats }.

Definition getStatistics (an : Analyser) : option JointStats :=
  match f_angles an with
  | None => None
  | Some a => Some (mkJointStats (statsOf (a_elbow a)) (statsOf (a_wrist a)))
  end.

(** *** ArmAngleUI.calculate *)

(** [window.imuFusionData]: an object keyed by IMU index whose entries are
    fusion results or [null]. *)
Definition FusionStore : Type := list (nat * option FusionResult).

Fixpoint lookup (store : FusionStore) (idx : nat) : option FusionResult :=
  match store with
  | [] => None
  | (k, v) :: rest => if Nat.eqb k idx then v else lookup rest idx
  end.

(** What the user sees after [calculate()]. *)
Inductive Outcome : Type :=
| Displayed (angles : Angles) (stats : JointStats)
| Alert (message : string)
| NothingShown.

(** [new Set([sIdx, eIdx, wIdx]).size === 3] *)
Definition allDistinct (a b c : nat) : bool :=
  negb (Nat.eqb a b) && negb (Nat.eqb a c) && negb (Nat.eqb b c).

Definition noFusionMessage (who : string) (idx : nat) : string :=
  who ++ " IMU (index " ++ natToString idx
      ++ ") has no fusion data - check its CSV has ax/ay/az, gx/gy/gz and mx/my/mz columns.".

Definition calculateBody (an : Analyser) (sIdx eIdx wIdx : option nat)
    (fusion : option FusionStore)
  : Analyser * result (Angles * option JointStats) :=
  match sIdx, eIdx, wIdx with
  | Some si, Some ei, Some wi =>
      if negb (allDistinct si ei wi)
      then (an, Throw "Shoulder, elbow, wrist must be different IMUs.")
      else
        match fusion with
        | None | Some [] =>
            (an, Throw ("No fusion data found. Fusion runs automatically on load - check the console for errors "
                        ++ "(e.g. missing magnetometer columns mx/my/mz in the CSV)."))
        | Some store =>
            match lookup store si, lookup store ei, lookup store wi with
            | None, _, _ => (an, Throw (noFusionMessage "Shoulder" si))
            | Some _, None, _ => (an, Throw (noFusionMessage "Elbow" ei))
            | Some _, Some _, None => (an, Throw (noFusionMessage "Wrist" wi))
            | sData, eData, wData =>
                match setImuData an sData eData wData with
                | (an', Ok angles) => (an', Ok (angles, getStatistics an'))
                | (an', Throw m) => (an', Throw m)
                end
            end
        end
  | _, _, _ => (an, Throw "Select three IMUs first.")
  end.

(** [calculate()]: the [try]/[catch] turns every failure into an alert;
    [#displayResults] shows nothing without statistics. *)
Definition calculate (an : Analyser) (sIdx eIdx wIdx : option nat)
    (fusion : option FusionStore) : Analyser * Outcome :=
  match calculateBody an sIdx eIdx wIdx fusion with
  | (an', Ok (angles, Some stats)) => (an', Displayed angles stats)
  | (an', Ok (_, None)) => (an', NothingShown)
  | (an', Throw m) => (an', Alert ("Failed to calculate arm angles: " ++ m))
  end.

End ArmAngle.

(** ** Reference definitions used to state the properties *)

Module Spec.
Import TimeBase.
Local Open Scope Q_scope.

(** The rows with a finite time value, as pairs (row index, value), for the
    rows from index [i] on. *)
Fixpoint validFrom (timeIdx : Z) (i : nat) (rows : list Row) : list (nat * Q) :=
  match rows with
  | [] => []
  | r :: rest =>
      match readTime r timeIdx with
      | Some v => (i, v) :: validFrom timeIdx (S i) rest
      | None => validFrom timeIdx (S i) rest
      end
  end.

Definition validTimes (rows : list Row) (timeIdx : Z) : list (nat * Q) :=
  validFrom timeIdx 0 rows.

(** The positive differences between consecutive finite time values whose
    later row has an index below 201; [p] is the value before [vt]. *)
Fixpoint deltasFrom (p : Q) (vt : list (nat * Q)) : list Q :=
  match vt with
  | [] => []
  | (j, v) :: tl =>
      (if (j <? 201)%nat && Qltb 0 (v - p) then [v - p] else [])
        ++ deltasFrom v tl
  end.

Definition positiveDeltas (vt : list (nat * Q)) : list Q :=
  match vt with
  | [] => []
  | (_, f) :: tl => deltasFrom f tl
  end.

(** Last finite value minus first finite value. *)
Definition rawSpanOf (vt : list (nat * Q)) : Q :=
  last (map snd vt) 0 - hd 0 (map snd vt).

(** What the rewriting loop does to one row. *)
Definition rewrittenRow (timeIdx : Z) (t0raw sc : Q) (r : Row) : Row :=
  match readTime r timeIdx with
  | Some v => setCell r (Z.to_nat timeIdx) (CNum ((v - t0raw) * sc))
  | None => r
  end.

(** The claim that every row is rewritten, rows without a finite time value
    included: such a cell would hold the text of [NaN]. *)
Definition rewrittenRowAsSpecified (timeIdx : Z) (t0raw sc : Q) (r : Row) : Row :=
  match readTime r timeIdx with
  | Some v => setCell r (Z.to_nat timeIdx) (CNum ((v - t0raw) * sc))
  | None => setCell r (Z.to_nat timeIdx) (CText "NaN")
  end.

(** The cursor invariant: the cursor lies within its bounds and the full
    range is not negative. *)
Definition CursorOk (w : Viewer.World) : Prop :=
  (Viewer.minX (Viewer.imuCursor w) <= Viewer.x (Viewer.imuCursor w)
   <= Viewer.maxX (Viewer.imuCursor w))
  /\ 0 <= Viewer.imuFullRangeMaxX w.

(** A viewer whose playhead is at 10.0 s and whose IMU cursor is at 7.5 s
    within the range [0, 20]. *)
Definition worldAt_10_75 : Viewer.World :=
  Viewer.withCursor (Viewer.initialWorld (Some 10))
                    (Viewer.mkCursor (75 # 10) 0 20).

(** The same viewer after the offset 2.5 s has been computed and Follow
    video has been switched on. *)
Definition worldFollowing : Viewer.World :=
  Viewer.run [Viewer.MarkVideo; Viewer.MarkImu; Viewer.ComputeOffset;
              Viewer.ClickFollow true] worldAt_10_75.

End Spec.

Module FusionSpec.
Import Fusion.
Local Open Scope R_scope.

(** The differences between consecutive entries. *)
Fixpoint consecutiveDeltas (l : list R) : list R :=
  match l with
  | [] => []
  | a :: tl =>
      match tl with
      | [] => []
      | b :: _ => (b - a) :: consecutiveDeltas tl
      end
  end.

Definition isPositive (d : R) : bool := if Rgt_dec d 0 then true else false.

(** The positive deltas among the first 201 time stamps. *)
Definition positiveTimeDeltas (ts : list R) : list R :=
  filter isPositive (consecutiveDeltas (firstn 201 ts)).

(** The time array [processFusion] works with. *)
Definition timeSecondsOf (o : ManagerOptions) : option (list R) :=
  match m_timeSeconds o, m_timeSecondsIndex o with
  | Some ts, _ => Some ts
  | None, Some tIdx => Some (map (fun r => nth tIdx r 0) (m_rows o))
  | None, None => None
  end.

(** A filter that only counts its updates. *)
Definition countingFilter : Filter :=
  mkFilter nat O (fun n _ => S n) (fun n => (INR n, 0, 0, 0)).

Definition countingLibrary : Library :=
  mkLibrary (Some (fun _ _ => countingFilter)) (Some (fun _ => countingFilter)).

(** Upper-case spelling of a header. *)
Definition toUpperChar (c : ascii) : ascii :=
  let n := nat_of_ascii c in
  if Nat.leb 97 n && Nat.leb n 122 then ascii_of_nat (n - 32) else c.

Fixpoint uppercase (s : string) : string :=
  match s with
  | EmptyString => EmptyString
  | String c s' => String (toUpperChar c) (uppercase s')
  end.

(** The header row of a nine-axis recording. *)
Definition nineDofHeaders : list string :=
  ["time"; "ax"; "ay"; "az"; "gx"; "gy"; "gz"; "mx"; "my"; "mz"]%string.

(** Two rows of such a recording, 10 ms apart: the accelerometer x axis steps
    from 0 to 1. *)
Definition twoRows : list SensorRow :=
  [[0; 0; 0; 0; 0; 0; 0; 0; 0; 0]; [1 / 100; 1; 0; 0; 0; 0; 0; 0; 0; 0]].

(** *** Reference definitions for the calibration *)

(** The factor of a first-order high-pass filter with the cutoff frequency
    [cutoff] at the sample rate [rate]: [RC / (RC + dt)] with
    [RC = 1 / (2 pi cutoff)] and [dt = 1 / rate]. *)
Definition highPassAlpha (cutoff rate : R) : R :=
  1 / (cutoff * 2 * PI) / (1 / (cutoff * 2 * PI) + 1 / rate).

(** [out] is [data] after the first-order high-pass filter of factor [alpha]:
    it starts at 0 and then follows
    [out[i] = alpha * (out[i-1] + data[i] - data[i-1])]. *)
Definition HighPassed (alpha : R) (data out : list R) : Prop :=
  length out = Nat.max 1 (length data)
  /\ nth_error out 0 = Some 0
  /\ forall i, (0 < i < length data)%nat ->
       nth i out 0
       = alpha * (nth (i - 1) out 0 + nth i data 0 - nth (i - 1) data 0).

(** [m] is the median of the non-empty list [l]: the middle element of [l]
    in ascending order, or the mean of the two middle elements when their
    number is even. *)
Definition IsMedian (l : list R) (m : R) : Prop :=
  exists sorted,
    Permutation l sorted /\ Sorted Rle sorted /\ sorted <> []
    /\ ((length sorted mod 2 = 1)%nat -> m = nth (length sorted / 2) sorted 0)
    /\ ((length sorted mod 2 = 0)%nat ->
        m = (nth (length sorted / 2 - 1) sorted 0
             + nth (length sorted / 2) sorted 0) / 2).

(** The mean over the samples of [sqrt(x^2 + y^2 + z^2)]. *)
Definition meanMagnitude (a : AxisData) : R :=
  fold_right Rplus 0
    (map (fun i => sqrt (nth i (x_ a) 0 * nth i (x_ a) 0
                         + nth i (y_ a) 0 * nth i (y_ a) 0
                         + nth i (z_ a) 0 * nth i (z_ a) 0))
         (seq 0 (length (x_ a))))
  / INR (length (x_ a)).

(** Every sample multiplied by [s]. *)
Definition scaledBy (s : R) (a : AxisData) : AxisData :=
  mkAxes (map (fun v => v * s) (x_ a)) (map (fun v => v * s) (y_ a))
         (map (fun v => v * s) (z_ a)).

(** The constants [bx], [by_], [bz] added to the three axes. *)
Definition biasedBy (bx by_ bz : R) (a : AxisData) : AxisData :=
  mkAxes (map (fun u => u + bx) (x_ a)) (map (fun u => u + by_) (y_ a))
         (map (fun u => u + bz) (z_ a)).

(** A filter that records the calls of [update]: its state is the list of
    the argument tuples received so far, and its quaternion shows how many
    there were and the [dt] of the last one. *)
Definition recordingFilter : Filter :=
  mkFilter (list UpdateArgs) []
           (fun s a => s ++ [a])
           (fun s => (INR (length s),
                      match rev s with a :: _ => dt a | [] => 0 end, 0, 0)).

Definition recordingLibrary : Library :=
  mkLibrary (Some (fun _ _ => recordingFilter)) (Some (fun _ => recordingFilter)).

(** Three rows of a nine-axis recording, one second apart. *)
Definition threeRows : list SensorRow :=
  [[0; 0; 0; 0; 0; 0; 0; 0; 0; 0]; [1; 1; 0; 0; 0; 0; 0; 0; 0; 0];
   [2; 0; 0; 0; 0; 0; 0; 0; 0; 0]].

End FusionSpec.

Module ArmAngleSpec.
Import Fusion ArmAngle.
Local Open Scope R_scope.

(** Unit norm. *)
Definition isUnit (q : Quat) : Prop :=
  let '(w, x, y, z) := q in w * w + x * x + y * y + z * z = 1.

(** The quaternion [-q]. *)
Definition negate (q : Quat) : Quat :=
  let '(w, x, y, z) := q in (- w, - x, - y, - z).

(** Every orientation of a fusion result carries a four-element [quat], as
    [FusionProcessor.process] builds them. *)
Definition wellFormed (f : FusionResult) : Prop :=
  Forall (fun o => length (quat o) = 4%nat) (orientations f).

(** The quaternion of sample [i]. *)
Definition quatOf (f : FusionResult) (i : nat) : option Quat :=
  match nth_error (orientations f) i with
  | Some o => asQuat (quat o)
  | None => None
  end.

(** A fusion result without any sample. *)
Definition emptyResult : FusionResult :=
  mkFusionResult (Some []) [] "madgwick" 100.

(** A fusion result with the single orientation [q] at time 0. *)
Definition singleResult (q : Quat) : FusionResult :=
  mkFusionResult (Some [0]) [orientationOf q] "madgwick" 100.

End ArmAngleSpec.

(** ** Fusion display (fusion-processor.js: FusionUI, rotateVectorByQuaternion) *)

Module FusionDisplay.
Import Fusion.
Local Open Scope R_scope.

Definition Vec3 : Type := (R * R * R)%type.

(** [FusionProcessor.rotateVectorByQuaternion(v, q)]. *)
Definition rotateVectorByQuaternion (v : Vec3) (q : Quat) : Vec3 :=
  let '(qw, qx, qy, qz) := q in
  let '(vx, vy, vz) := v in
  let ix := qw * vx + qy * vz - qz * vy in
  let iy := qw * vy + qz * vx - qx * vz in
  let iz := qw * vz + qx * vy - qy * vx in
  let iw := - qx * vx - qy * vy - qz * vz in
  (ix * qw + iw * - qx + iy * - qz - iz * - qy,
   iy * qw + iw * - qy + iz * - qx - ix * - qz,
   iz * qw + iw * - qz + ix * - qy - iy * - qx).

(** The scan of [_doRender] from index [i] on: [closestIndex] and [minDiff]
    are the best index and distance so far. *)
Fixpoint closestLoop (cursorTime : R) (rest : list R) (i closestIndex : nat)
    (minDiff : R) : nat :=
  match rest with
  | [] => closestIndex
  | t :: rest' =>
      let diff := Rabs (t - cursorTime) in
      if Rlt_dec diff minDiff
      then closestLoop cursorTime rest' (S i) i diff
      else closestLoop cursorTime rest' (S i) closestIndex minDiff
  end.

(** The index [_doRender] picks for a non-empty [times] array. *)
Definition closestIndexOf (times : list R) (cursorTime : R) : nat :=
  match times with
  | [] => 0
  | t0 :: rest => closestLoop cursorTime rest 1 0 (Rabs (t0 - cursorTime))
  end.

End FusionDisplay.

(** ** Reference definitions for the rotation and statistics properties *)

Module RotationSpec.
Import Fusion FusionDisplay.
Local Open Scope R_scope.

Definition normSq (q : Quat) : R :=
  let '(w, x, y, z) := q in w * w + x * x + y * y + z * z.

Definition normSq3 (v : Vec3) : R :=
  let '(x, y, z) := v in x * x + y * y + z * z.

Definition dot3 (u v : Vec3) : R :=
  let '(a, b, c) := u in let '(x, y, z) := v in a * x + b * y + c * z.

(** Row [i] of a 3x3 matrix given as an array of arrays. *)
Definition rowOf (m : list (list R)) (i : nat) : Vec3 :=
  let r := nth i m [] in (nth 0 r 0, nth 1 r 0, nth 2 r 0).

(** The product of a 3x3 matrix and a vector. *)
Definition applyMatrix (m : list (list R)) (v : Vec3) : Vec3 :=
  (dot3 (rowOf m 0) v, dot3 (rowOf m 1) v, dot3 (rowOf m 2) v).

(** The quaternion of a rotation by [theta] about the axis [(ux, uy, uz)]. *)
Definition axisAngle (theta ux uy uz : R) : Quat :=
  (cos (theta / 2), sin (theta / 2) * ux, sin (theta / 2) * uy,
   sin (theta / 2) * uz).

End RotationSpec.

Module PipelineSpec.
Import Fusion.

(** The key of one axis. *)
Definition keyOf (k : AxisKeys) (axis : Axis) : option nat :=
  match axis with
  | AxisX => key_x k
  | AxisY => key_y k
  | AxisZ => key_z k
  end.

End PipelineSpec.

(** ** Plot filters (imu-filters.js) *)

Module Filters.
Local Open Scope R_scope.

(** The inner loop of [movingAverage], [for (let j = a; j <= b; j++)]:
    the sum and the count. *)
Definition windowSum (data : list R) (a b : nat) : R * nat :=
  fold_left (fun acc j => (fst acc + nth j data 0, S (snd acc)))
            (seq a (S b - a)) (0, 0%nat).

(** [movingAverage(data, windowSize)] for a whole-number window. *)
Definition movingAverage (data : list R) (windowSize : nat) : list R :=
  match data with
  | [] => []
  | _ =>
      let half := (windowSize / 2)%nat in
      map (fun i =>
             let a := Nat.max 0 (i - half) in
             let b := Nat.min (length data - 1) (i + half) in
             let '(sum, count) := windowSum data a b in
             sum / INR (Nat.max 1 count))
          (seq 0 (length data))
  end.

(** The loop shared in shape by [lowPass] and [ewma]:
    [out[i] = alpha * data[i] + (1 - alpha) * out[i - 1]]. *)
Fixpoint smoothFrom (alpha prevOut : R) (rest : list R) : list R :=
  match rest with
  | [] => []
  | d :: rest' =>
      let o := alpha * d + (1 - alpha) * prevOut in
      o :: smoothFrom alpha o rest'
  end.

Definition lowPass (data : list R) (sampleRateHz cutoffHz : R) : list R :=
  match data with
  | [] => []
  | d0 :: rest =>
      let RC := 1 / (cutoffHz * 2 * PI) in
      let dt := 1 / sampleRateHz in
      let alpha := dt / (RC + dt) in
      d0 :: smoothFrom alpha d0 rest
  end.

Fixpoint highPassFrom (alpha prevOut prevData : R) (rest : list R) : list R :=
  match rest with
  | [] => []
  | d :: rest' =>
      let o := alpha * (prevOut + d - prevData) in
      o :: highPassFrom alpha o d rest'
  end.

Definition highPass (data : list R) (sampleRateHz cutoffHz : R) : list R :=
  match data with
  | [] => []
  | d0 :: rest =>
      let RC := 1 / (cutoffHz * 2 * PI) in
      let dt := 1 / sampleRateHz in
      let alpha := RC / (RC + dt) in
      0 :: highPassFrom alpha 0 d0 rest
  end.

Definition ewma (data : list R) (alpha : R) : list R :=
  match data with
  | [] => []
  | d0 :: rest => d0 :: smoothFrom alpha d0 rest
  end.

(** The positive differences [times[i] - times[i - 1]], in order. *)
Fixpoint diffsFrom (prev : R) (rest : list R) : list R :=
  match rest with
  | [] => []
  | t :: rest' =>
      let dt := t - prev in
      if Rgt_dec dt 0 then dt :: diffsFrom t rest' else diffsFrom t rest'
  end.

Definition estimateSampleRateHz (times : list R) : R :=
  if Nat.ltb (length times) 3 then 100
  else
    let diffs := match times with
                 | [] => []
                 | t0 :: rest => diffsFrom t0 rest
                 end in
    let sorted := Fusion.sort diffs in
    let median :=
      match nth_error sorted (length sorted / 2) with
      | Some m => if Req_dec_T m 0 then 1 / 100 else m
      | None => 1 / 100
      end in
    if Rgt_dec median 0 then 1 / median else 100.

Definition filterAccelerationAxis (axis times : list R) (removeGravity : bool)
  : list R :=
  let hz := estimateSampleRateHz times in
  let ma := movingAverage axis 5 in
  let lp := lowPass ma hz 10 in
  if removeGravity then highPass lp hz (5 / 10) else lp.

Definition magnitude (x y z : list R) : list R :=
  let n := Nat.min (Nat.min (length x) (length y)) (length z) in
  map (fun i => sqrt (nth i x 0 ^ 2 + nth i y 0 ^ 2 + nth i z 0 ^ 2)) (seq 0 n).

(** The loop [for (let i = 0; i < n; i += step)] of [downsampleXY]: the
    indices it visits.  [fuel] bounds the number of iterations. *)
Fixpoint strideFrom (fuel n step i : nat) : list nat :=
  match fuel with
  | O => []
  | S fuel' =>
      if Nat.ltb i n then i :: strideFrom fuel' n step (i + step) else []
  end.

(** [Math.ceil(n / maxPoints)] for whole numbers, [maxPoints > 0]. *)
Definition ceilDiv (n m : nat) : nat := ((n + m - 1) / m)%nat.

(** [downsampleXY(times, values, maxPoints)]; the points are pairs [(x, y)].
    With [maxPoints = 0] the step is infinite and only the first point is
    kept. *)
Definition downsampleXY (times values : list R) (maxPoints : nat)
  : list (R * R) :=
  let n := Nat.min (length times) (length values) in
  let point i := (nth i times 0, nth i values 0) in
  if Nat.leb n maxPoints then map point (seq 0 n)
  else
    match maxPoints with
    | O => [point 0%nat]
    | _ => map point (strideFrom n n (ceilDiv n maxPoints) 0)
    end.

End Filters.

Module FilterSpec.
Local Open Scope R_scope.

(** The consecutive differences of [prev :: rest] all equal [d]. *)
Fixpoint evenlySpaced (d prev : R) (rest : list R) : Prop :=
  match rest with
  | [] => True
  | t :: rest' => t - prev = d /\ evenlySpaced d t rest'
  end.

End FilterSpec.

(** ** Cursor readouts (session-viewer-controller.js) *)

Module Readout.
Import TimeBase.
Local Open Scope Q_scope.

(** [times[i]] for a whole-number index. *)
Definition at_ (times : list Q) (i : Z) : Q := nth (Z.to_nat i) times 0.

(** The [while (lo <= hi)] loop of [nearestIndex].  [inr mid] is the
    [return mid] inside the loop, [inl (lo, hi)] the state on leaving it;
    [fuel] bounds the number of iterations. *)
Fixpoint searchLoop (fuel : nat) (times : list Q) (x : Q) (lo hi : Z)
  : (Z * Z) + Z :=
  match fuel with
  | O => inl (lo, hi)
  | S fuel' =>
      if (lo <=? hi)%Z then
        let mid := Z.shiftr (lo + hi) 1 in
        let v := at_ times mid in
        if Qeq_bool v x then inr mid
        else if Qltb v x then searchLoop fuel' times x (mid + 1)%Z hi
             else searchLoop fuel' times x lo (mid - 1)%Z
      else inl (lo, hi)
  end.

(** [nearestIndex(times, x)]; the loop halves the interval, so [length times]
    iterations are enough. *)
Definition nearestIndex (times : list Q) (x : Q) : Z :=
  match times with
  | [] => (-1)%Z
  | t0 :: _ =>
      let len := Z.of_nat (length times) in
      let hi := (len - 1)%Z in
      if Qle_bool x t0 then 0%Z
      else if Qle_bool (at_ times hi) x then hi
      else
        match searchLoop (length times) times x 0%Z hi with
        | inr mid => mid
        | inl (lo', hi') =>
            let a := hi' in
            let b := lo' in
            if (a <? 0)%Z then b
            else if (len <=? b)%Z then a
            else if Qltb (Qabs (at_ times b - x)) (Qabs (at_ times a - x))
                 then b else a
        end
  end.

(** [String(h || "").toLowerCase()]; headers are taken to be ASCII. *)
Definition toLowerCase (s : string) : string :=
  string_of_list_ascii (map Fusion.toLowerChar (list_ascii_of_string s)).

(** [String(h || "").trim().toLowerCase()]. *)
Definition trimLower (s : string) : string :=
  string_of_list_ascii
    (map Fusion.toLowerChar (Fusion.trim (list_ascii_of_string s))).

(** [colIndex(headers, name)]. *)
Definition colIndex (headers : list string) (name : string) : Z :=
  match Fusion.indexOf (map trimLower headers) (trimLower name) with
  | Some i => Z.of_nat i
  | None => (-1)%Z
  end.

Definition timeCandidates : list string :=
  ["time"; "t"; "timestamp"; "timesec"; "times"; "sec"; "seconds"]%string.

(** The loop [for (const c of candidates)] of [findTimeIndex]; [None] when it
    ends without a [return]. *)
Fixpoint firstCandidate (lower : list string) (cs : list string) : option nat :=
  match cs with
  | [] => None
  | c :: rest =>
      match Fusion.indexOf lower c with
      | Some idx => Some idx
      | None => firstCandidate lower rest
      end
  end.

(** [findTimeIndex(headers)]; [None] is a value that is not an array. *)
Definition findTimeIndex (headers : option (list string)) : Z :=
  match headers with
  | None => (-1)%Z
  | Some hs =>
      match firstCandidate (map toLowerCase hs) timeCandidates with
      | Some idx => Z.of_nat idx
      | None => 0%Z
      end
  end.

(** The first loop of [buildImuReadoutCache]: the pairs [{ t, r }] of the rows
    whose time is finite; [safeNum(r?.[i], null)] is [readTime r i]. *)
Fixpoint samplesOf (rows : list Row) (timeIdx : Z) : list (Q * Row) :=
  match rows with
  | [] => []
  | r :: rest =>
      match readTime r timeIdx with
      | Some t => (t, r) :: samplesOf rest timeIdx
      | None => samplesOf rest timeIdx
      end
  end.

(** [tmp.sort((a, b) => a.t - b.t)]: a stable ascending sort by time. *)
Fixpoint insertSample (s : Q * Row) (l : list (Q * Row)) : list (Q * Row) :=
  match l with
  | [] => [s]
  | y :: l' =>
      if Qle_bool (fst s) (fst y) then s :: y :: l' else y :: insertSample s l'
  end.

Fixpoint sortSamples (l : list (Q * Row)) : list (Q * Row) :=
  match l with
  | [] => []
  | s :: l' => insertSample s (sortSamples l')
  end.

(** One of [acc], [gyro], [mag] of the cache; [None] is [null]. *)
Record Channels : Type := mkChannels {
  ch_x : list (option Q);
  ch_y : list (option Q);
  ch_z : list (option Q)
}.

Record ReadoutCache : Type := mkCache {
  c_t : list Q;
  c_acc : Channels;
  c_gyro : Channels;
  c_mag : Channels
}.

Definition channelsOf (tmp : list (Q * Row)) (xI yI zI : Z) : Channels :=
  mkChannels (map (fun o => readTime (snd o) xI) tmp)
             (map (fun o => readTime (snd o) yI) tmp)
             (map (fun o => readTime (snd o) zI) tmp).

(** [buildImuReadoutCache(headers, rows, timeIdx)]; [None] is [null]. *)
Definition buildImuReadoutCache (headers : list string) (rows : list Row)
    (timeIdx : option Z) : option ReadoutCache :=
  match headers, rows, timeIdx with
  | [], _, _ => None
  | _, [], _ => None
  | _, _, None => None
  | _, _, Some k =>
      if (k <? 0)%Z then None
      else
        let tmp := sortSamples (samplesOf rows k) in
        Some (mkCache
                (map fst tmp)
                (channelsOf tmp (colIndex headers "ax") (colIndex headers "ay")
                            (colIndex headers "az"))
                (channelsOf tmp (colIndex headers "gx") (colIndex headers "gy")
                            (colIndex headers "gz"))
                (channelsOf tmp (colIndex headers "mx") (colIndex headers "my")
                            (colIndex headers "mz")))
  end.

(** The three values of one sensor that [updateImuReadouts] shows. *)
Definition valuesAt (c : Channels) (i : Z) : option Q * option Q * option Q :=
  (nth (Z.to_nat i) (ch_x c) None, nth (Z.to_nat i) (ch_y c) None,
   nth (Z.to_nat i) (ch_z c) None).

(** The values [updateImuReadouts] reads for the cursor position
    [imuCursor.x]: accelerometer, gyroscope and magnetometer at the nearest
    sample.  [None] when nothing is read (no cache, or no sample). *)
Definition updateImuReadouts (cache : option ReadoutCache) (cursorX : Q)
  : option ((option Q * option Q * option Q)
            * (option Q * option Q * option Q)
            * (option Q * option Q * option Q)) :=
  match cache with
  | None => None
  | Some c =>
      let i := nearestIndex (c_t c) (Viewer.orZeroQ cursorX) in
      if (i <? 0)%Z then None
      else Some (valuesAt (c_acc c) i, valuesAt (c_gyro c) i, valuesAt (c_mag c) i)
  end.

End Readout.

Module ReadoutSpec.
Local Open Scope Q_scope.

(** The time array is in ascending order. *)
Definition ascending (times : list Q) : Prop :=
  forall i j, (i <= j < length times)%nat -> nth i times 0 <= nth j times 0.

(** The loop invariant of [nearestIndex]: everything left of [lo] is below
    [x], everything right of [hi] is above [x]. *)
Definition SearchInv (times : list Q) (x : Q) (lo hi : Z) : Prop :=
  (0 <= lo)%Z /\ (hi <= Z.of_nat (length times) - 1)%Z /\ (lo <= hi + 1)%Z
  /\ (forall j, (0 <= j < lo)%Z -> Readout.at_ times j < x)
  /\ (forall j, (hi < j < Z.of_nat (length times))%Z -> x < Readout.at_ times j).

(** The values of one row in the three columns of a sensor. *)
Definition rowValues (headers : list string) (r : TimeBase.Row) (x y z : string)
  : option Q * option Q * option Q :=
  (TimeBase.readTime r (Readout.colIndex headers x),
   TimeBase.readTime r (Readout.colIndex headers y),
   TimeBase.readTime r (Readout.colIndex headers z)).

End ReadoutSpec.

(** ** Pose overlay (movenet.js) *)

Module Pose.
Local Open Scope R_scope.

(** A keypoint of a pose; the empty string stands for a missing name and
    [None] for a missing score. *)
Record Keypoint : Type := mkKeypoint {
  kp_name : string;
  kp_score : option R;
  kp_x : R;
  kp_y : R
}.

(** The four sizes [getContainedRect] reads from the video element. *)
Record VideoEl : Type := mkVideoEl {
  videoWidth : R;
  videoHeight : R;
  clientWidth : R;
  clientHeight : R
}.

(** [v || 1] on a number. *)
Definition orOne (v : R) : R := if Req_dec_T v 0 then 1 else v.

Record ContainedRect : Type := mkRect {
  rect_scale : R;
  rect_offX : R;
  rect_offY : R
}.

Definition getContainedRect (videoEl : VideoEl) : ContainedRect :=
  let vw := orOne (videoWidth videoEl) in
  let vh := orOne (videoHeight videoEl) in
  let dw := orOne (clientWidth videoEl) in
  let dh := orOne (clientHeight videoEl) in
  let scale := Rmin (dw / vw) (dh / vh) in
  let dispW := vw * scale in
  let dispH := vh * scale in
  let offX := (dw - dispW) / 2 in
  let offY := (dh - dispH) / 2 in
  mkRect scale offX offY.

Definition mapKeypointsToDisplay (keypoints : list Keypoint) (videoEl : VideoEl)
  : list Keypoint :=
  let r := getContainedRect videoEl in
  map (fun kp =>
         mkKeypoint (kp_name kp) (kp_score kp)
                    (kp_x kp * rect_scale r + rect_offX r)
                    (kp_y kp * rect_scale r + rect_offY r))
      keypoints.

Definition calculateAngle (a b c : Keypoint) : R :=
  let v1x := kp_x a - kp_x b in
  let v1y := kp_y a - kp_y b in
  let v2x := kp_x c - kp_x b in
  let v2y := kp_y c - kp_y b in
  let dot := v1x * v2x + v1y * v2y in
  let mag1 := sqrt (v1x * v1x + v1y * v1y) in
  let mag2 := sqrt (v2x * v2x + v2y * v2y) in
  if Req_dec_T mag1 0 then 0
  else if Req_dec_T mag2 0 then 0
  else
    let cos := dot / (mag1 * mag2) in
    let clamped := Rmax (-1) (Rmin 1 cos) in
    (acos clamped * 180) / PI.

(** What a lookup [byName[name]] gives.  [byName] starts as [{}], a plain
    object, so a name it does not hold itself is looked up in its
    prototype. *)
Inductive Found : Type :=
| FoundKeypoint (kp : Keypoint)   (* a keypoint object *)
| FoundOther                      (* another truthy value: a function, an
                                     object, a string or a number that is
                                     no keypoint *)
| NotFound.                       (* [undefined], or another falsy value *)

(** The names [Object.prototype] defines besides [__proto__]; each of them
    holds a function. *)
Definition objectPrototypeNames : list string :=
  ["constructor"; "__defineGetter__"; "__defineSetter__"; "hasOwnProperty";
   "__lookupGetter__"; "__lookupSetter__"; "isPrototypeOf";
   "propertyIsEnumerable"; "toString"; "valueOf"; "toLocaleString"]%string.

(** The last keypoint of the loop
    [for (const kp of keypoints) if (kp.name) byName[kp.name] = kp]
    that carries the name. *)
Fixpoint lastNamed (keypoints : list Keypoint) (name : string) : option Keypoint :=
  match keypoints with
  | [] => None
  | kp :: rest =>
      match lastNamed rest name with
      | Some k => Some k
      | None =>
          if negb (String.eqb (kp_name kp) EmptyString) && String.eqb (kp_name kp) name
          then Some kp else None
      end
  end.

(** A number used as a condition: 0 is falsy. *)
Definition truthyNumber (v : R) : bool := if Req_dec_T v 0 then false else true.

(** A name that [byName] does not hold itself.  The assignment
    [byName["__proto__"] = kp] does not store a property: it makes [kp] the
    prototype of [byName], so that the fields [name], [score], [x] and [y] of
    the last such keypoint are found under these names; behind it, or without
    it, comes [Object.prototype]. *)
Definition inheritedFrom (proto : option Keypoint) (name : string) : Found :=
  let fromObjectPrototype :=
    if existsb (String.eqb name) objectPrototypeNames then FoundOther
    else NotFound in
  match proto with
  | None => fromObjectPrototype
  | Some p =>
      if String.eqb name "name" then FoundOther
      else if String.eqb name "score" then
             match kp_score p with
             | Some s => if truthyNumber s then FoundOther else NotFound
             | None => NotFound
             end
      else if String.eqb name "x" then
             (if truthyNumber (kp_x p) then FoundOther else NotFound)
      else if String.eqb name "y" then
             (if truthyNumber (kp_y p) then FoundOther else NotFound)
      else fromObjectPrototype
  end.

(** [byName[name]] after the loop, as the test [!kp] and the accesses
    [kp.score], [kp.x] and [kp.y] see it. *)
Definition byName (keypoints : list Keypoint) (name : string) : Found :=
  if String.eqb name "__proto__" then
    match lastNamed keypoints "__proto__" with
    | Some p => FoundKeypoint p
    | None => FoundOther
    end
  else
    match lastNamed keypoints name with
    | Some kp => FoundKeypoint kp
    | None => inheritedFrom (lastNamed keypoints "__proto__") name
    end.

(** [!kp] *)
Definition notFound (f : Found) : bool :=
  match f with NotFound => true | _ => false end.

(** [kp.score ?? 0]; a value that is no keypoint has no [score]. *)
Definition scoreOf (f : Found) : R :=
  match f with
  | FoundKeypoint kp => match kp_score kp with Some s => s | None => 0 end
  | _ => 0
  end.

(** [(kp.score ?? 0) < MIN_PART_CONFIDENCE]. *)
Definition lowConfidence (minConfidence : R) (f : Found) : bool :=
  if Rlt_dec (scoreOf f) minConfidence then true else false.

(** A number returned by [calculateAngle]. *)
Inductive Measured : Type :=
| Angle (a : R)
| NotANumber.

(** [calculateAngle(a, b, c)] on values that passed the test [!kp].  A value
    that is no keypoint has neither [x] nor [y]: the differences with it are
    NaN, and so is its magnitude, which then is not [=== 0]. *)
Definition calculateAngleOf (a b c : Found) : Measured :=
  match a, b, c with
  | FoundKeypoint ka, FoundKeypoint kb, FoundKeypoint kc =>
      Angle (calculateAngle ka kb kc)
  | FoundKeypoint ka, FoundKeypoint kb, _ =>
      let v1x := kp_x ka - kp_x kb in
      let v1y := kp_y ka - kp_y kb in
      if Req_dec_T (sqrt (v1x * v1x + v1y * v1y)) 0 then Angle 0 else NotANumber
  | _, FoundKeypoint kb, FoundKeypoint kc =>
      let v2x := kp_x kc - kp_x kb in
      let v2y := kp_y kc - kp_y kb in
      if Req_dec_T (sqrt (v2x * v2x + v2y * v2y)) 0 then Angle 0 else NotANumber
  | _, _, _ => NotANumber
  end.

(** [arr.slice(-3)]. *)
Definition lastThree (l : list string) : list string :=
  skipn (length l - 3) l.

(** [window.addSelectedJoint(jointName)] as a function of [selectedJoints];
    the result is both the new [selectedJoints] and the copy returned. *)
Definition addSelectedJoint (selectedJoints : list string) (jointName : string)
  : list string :=
  if String.eqb jointName EmptyString || existsb (String.eqb jointName) selectedJoints
  then selectedJoints
  else
    let pushed := selectedJoints ++ [jointName] in
    if (3 <? length pushed)%nat then lastThree pushed else pushed.

(** The module state the measurement API reads and writes. *)
Record JointState : Type := mkJointState {
  selectedJoints : list string;
  measuredAngles : list (list string);
  lastPose : option (list Keypoint)
}.

(** [window.measureAngle()]: the value returned ([None] is [null]) and the
    state afterwards.  [joints] has three entries here; an index outside an
    array reads [undefined], which as a property name is ["undefined"]. *)
Definition measureAngle (minConfidence : R) (st : JointState)
  : option Measured * JointState :=
  if (length (selectedJoints st) <? 3)%nat then (None, st)
  else
    match lastPose st with
    | None => (None, st)
    | Some keypoints =>
        let joints := lastThree (selectedJoints st) in
        let kp1 := byName keypoints (nth 0 joints "undefined"%string) in
        let kp2 := byName keypoints (nth 1 joints "undefined"%string) in
        let kp3 := byName keypoints (nth 2 joints "undefined"%string) in
        if notFound kp1 || notFound kp2 || notFound kp3 then (None, st)
        else if lowConfidence minConfidence kp1
                || lowConfidence minConfidence kp2
                || lowConfidence minConfidence kp3
        then (None, st)
        else
          (Some (calculateAngleOf kp1 kp2 kp3),
           mkJointState (selectedJoints st)
                        (measuredAngles st ++ [joints])
                        (lastPose st))
    end.

(** The value of [angle] that the body of the [forEach] in [drawAngles]
    writes next to the joint for one measured entry; [None] when the body
    returns before drawing. *)
Definition drawnAngle (minConfidence : R) (keypoints : list Keypoint)
    (joints : list string) : option Measured :=
  let kp1 := byName keypoints (nth 0 joints "undefined"%string) in
  let kp2 := byName keypoints (nth 1 joints "undefined"%string) in
  let kp3 := byName keypoints (nth 2 joints "undefined"%string) in
  if notFound kp1 || notFound kp2 || notFound kp3 then None
  else if lowConfidence minConfidence kp1
          || lowConfidence minConfidence kp2
          || lowConfidence minConfidence kp3
  then None
  else Some (calculateAngleOf kp1 kp2 kp3).

(** [window.resetJointAnalysis()]. *)
Definition resetJointAnalysis (st : JointState) : JointState :=
  mkJointState [] [] (lastPose st).

End Pose.

Module PoseSpec.
Import Pose.
Local Open Scope R_scope.

(** The four sizes of the element are, as the DOM has them, whole numbers of
    pixels. *)
Definition sized (el : VideoEl) : Prop :=
  exists vw vh dw dh : nat,
    videoWidth el = INR vw /\ videoHeight el = INR vh
    /\ clientWidth el = INR dw /\ clientHeight el = INR dh.

(** The keypoint scaled by [s] and moved by [(ox, oy)]. *)
Definition placed (s ox oy : R) (kp : Keypoint) : Keypoint :=
  mkKeypoint (kp_name kp) (kp_score kp) (kp_x kp * s + ox) (kp_y kp * s + oy).

(** The same lookup result, with the keypoint it holds replaced by its
    image. *)
Definition mapFound (f : Keypoint -> Keypoint) (r : Found) : Found :=
  match r with
  | FoundKeypoint kp => FoundKeypoint (f kp)
  | FoundOther => FoundOther
  | NotFound => NotFound
  end.

(** No keypoint of the pose is named [__proto__]. *)
Definition plainNames (keypoints : list Keypoint) : Prop :=
  Forall (fun kp => kp_name kp <> "__proto__"%string) keypoints.

(** A selection of three method names of [Object.prototype], and a state
    with this selection and a pose without keypoints. *)
Definition inheritedJoints : list string :=
  ["constructor"; "toString"; "valueOf"]%string.

Definition inheritedState : JointState :=
  mkJointState inheritedJoints [] (Some []).

(** A pose with the three joints of the left arm, and a state in which they
    are selected. *)
Definition armPose : list Keypoint :=
  [mkKeypoint "left_shoulder" (Some (9 / 10)) 1 0;
   mkKeypoint "left_elbow" (Some (9 / 10)) 0 0;
   mkKeypoint "left_wrist" (Some (9 / 10)) 0 1].

Definition armJoints : list string :=
  ["left_shoulder"; "left_elbow"; "left_wrist"]%string.

Definition armState : JointState := mkJointState armJoints [] (Some armPose).

End PoseSpec.

Module ViewerSpec.
Import Viewer.

(** The three places that hold the sync offset and the follow mode agree:
    the cache of video-metadata.js holds the panel's offset, the
    Follow/Manual buttons are enabled exactly when there is an offset, follow
    mode is on only with an offset, and no suppression flag is left set. *)
Definition SyncOk (w : World) : Prop :=
  timeSync_offset w = offset (state w)
  /\ followManualEnabled w = Fusion.isSome (offset (state w))
  /\ (followVideo w = true -> offset (state w) <> None)
  /\ suppressImuToVideo w = false
  /\ suppressVideoToImu w = false.

(** The fields [SyncOk] reads. *)
Definition syncView (w : World)
  : option Q * option Q * bool * bool * bool * bool :=
  (timeSync_offset w, offset (state w), followManualEnabled w, followVideo w,
   suppressImuToVideo w, suppressVideoToImu w).

End ViewerSpec.

(** ** Time-scale detection in double precision (session-viewer-controller.js)

    The candidate loop of [detectTimeScaleFactor] decides by comparing
    doubles, and a decision at a boundary depends on the rounding of every
    operation.  Here the function is embedded over IEEE 754 binary64 numbers
    with the operations of the language; [Math.pow], which the language
    leaves to the implementation, is a parameter. *)

Module TimeScale.
Import PrimFloat.
Local Open Scope float_scope.

(** A row as the detector reads it: [Number(cell)] of every cell, a double
    that may be NaN or infinite. *)
Definition Row : Type := list float.

(** [Number(rows[i]?.[timeIdx])]; a missing cell is [undefined], read as NaN. *)
Definition numberAt (r : Row) (timeIdx : Z) : float :=
  if (timeIdx <? 0)%Z then nan else nth (Z.to_nat timeIdx) r nan.

(** The accumulators of the first loop. *)
Record ScanState : Type := mkScanState {
  dts : list float;
  prev : option float;
  firstVal : option float;
  lastVal : option float;
  validCount : float
}.

Definition scanInit : ScanState := mkScanState [] None None None 0.

(** One iteration of [for (let i = 0; i < rows.length; i++)]. *)
Definition scanRow (timeIdx : Z) (i : nat) (r : Row) (s : ScanState) : ScanState :=
  let v := numberAt r timeIdx in
  if negb (is_finite v) then s
  else
    mkScanState
      (match prev s with
       | Some p =>
           if (i <? 201)%nat
           then (let dt := v - p in if 0 <? dt then dts s ++ [dt] else dts s)
           else dts s
       | None => dts s
       end)
      (Some v)
      (match firstVal s with None => Some v | Some f => Some f end)
      (Some v)
      (validCount s + 1).

Fixpoint scanLoop (timeIdx : Z) (i : nat) (rows : list Row) (s : ScanState)
  : ScanState :=
  match rows with
  | [] => s
  | r :: rest => scanLoop timeIdx (S i) rest (scanRow timeIdx i r s)
  end.

(** [dts.sort((a, b) => a - b)], a stable sort: [x] stays in front of [y]
    unless the comparator puts [y] first, that is unless [y - x < 0]. *)
Fixpoint insertSorted (x : float) (l : list float) : list float :=
  match l with
  | [] => [x]
  | y :: l' => if y - x <? 0 then y :: insertSorted x l' else x :: y :: l'
  end.

Fixpoint sortNumbers (l : list float) : list float :=
  match l with
  | [] => []
  | x :: l' => insertSorted x (sortNumbers l')
  end.

(** [dts[Math.floor(dts.length / 2)]] after the sort. *)
Definition medianOf (ds : list float) : float :=
  nth (length ds / 2) (sortNumbers ds) nan.

#[warnings="-inexact-float"]
Definition DT_MIN_S : float := 0.0005.
Definition DT_MAX_S : float := 2.
Definition RATE_MIN : float := 1.
Definition RATE_MAX : float := 500.

(** The body of the candidate loop for one value of [scale]: does the loop
    return at this iteration? *)
Definition accepts (medianDt rawSpan validCount scale : float) : bool :=
  let dtSec := medianDt * scale in
  if (dtSec <? DT_MIN_S) || (DT_MAX_S <? dtSec) then false
  else
    let durSec := rawSpan * scale in
    if durSec <=? 0 then false
    else
      let rate := validCount / durSec in
      (RATE_MIN <=? rate) && (rate <=? RATE_MAX).

(** [for (let exp = 9; exp >= -3; exp--)]: the values of [exp] in loop order. *)
Definition candidateExps : list float :=
  [9; 8; 7; 6; 5; 4; 3; 2; 1; 0; -1; -2; -3].

Fixpoint firstAccepted (mathPow : float -> float -> float)
    (medianDt rawSpan validCount : float) (exps : list float) : option float :=
  match exps with
  | [] => None
  | exp :: rest =>
      let scale := mathPow 10 (- exp) in
      if accepts medianDt rawSpan validCount scale then Some scale
      else firstAccepted mathPow medianDt rawSpan validCount rest
  end.

#[warnings="-inexact-float"]
Definition detectTimeScaleFactor (mathPow : float -> float -> float)
    (rows : list Row) (timeIdx : Z) : float :=
  let s := scanLoop timeIdx 0 rows scanInit in
  match dts s, firstVal s, lastVal s with
  | _ :: _, Some first, Some last =>
      let medianDt := medianOf (dts s) in
      let rawSpan := last - first in
      if rawSpan <=? 0 then 1
      else match firstAccepted mathPow medianDt rawSpan (validCount s)
                               candidateExps with
           | Some scale => scale
           | None => 0.01 / medianDt
           end
  | _, _, _ => 1
  end.

End TimeScale.

Module TimeScaleSpec.
Import PrimFloat TimeScale.
Local Open Scope float_scope.

(** The finite time values with their row indices, for the rows from index
    [i] on. *)
Fixpoint finiteFrom (timeIdx : Z) (i : nat) (rows : list Row) : list (nat * float) :=
  match rows with
  | [] => []
  | r :: rest =>
      if is_finite (numberAt r timeIdx)
      then (i, numberAt r timeIdx) :: finiteFrom timeIdx (S i) rest
      else finiteFrom timeIdx (S i) rest
  end.

Definition finiteTimes (rows : list Row) (timeIdx : Z) : list (nat * float) :=
  finiteFrom timeIdx 0 rows.

(** The positive differences between consecutive finite time values whose
    later row has an index below 201; [p] is the value before [vt]. *)
Fixpoint deltasAfter (p : float) (vt : list (nat * float)) : list float :=
  match vt with
  | [] => []
  | (j, v) :: tl =>
      (if (j <? 201)%nat && (0 <? v - p) then [v - p] else [])
        ++ deltasAfter v tl
  end.

Definition positiveDeltas (vt : list (nat * float)) : list float :=
  match vt with
  | [] => []
  | (_, f) :: tl => deltasAfter f tl
  end.

(** Last finite value minus first finite value. *)
Definition rawSpanOf (vt : list (nat * float)) : float :=
  last (map snd vt) nan - hd nan (map snd vt).

(** The number [n] as the code counts it, by adding 1 [n] times (exact below
    2^53). *)
Definition countOf (n : nat) : float := Nat.iter n (fun c => c + 1) 0.

(** Two neighbours are in the order of the comparator [(a, b) => a - b]: it
    puts [a] first, or it does not put [b] first. *)
Definition inOrder (a b : float) : Prop :=
  (a - b <? 0) = true \/ (b - a <? 0) = false.

(** [m] is the upper median of [ds]: the element at index [floor(n / 2)] of
    [ds] put in ascending order. *)
Definition UpperMedian (ds : list float) (m : float) : Prop :=
  exists sorted,
    Permutation ds sorted /\ Sorted inOrder sorted
    /\ nth_error sorted (length ds / 2) = Some m.

(** Conditions (a) and (b) for one scale, in double precision: the scaled
    median delta is neither below 0.5 ms nor above 2 s; the scaled span is
    not at or below 0, and the count divided by it is at least 1 and at most
    500. *)
#[warnings="-inexact-float"]
Definition Plausible (medianDt rawSpan count scale : float) : Prop :=
  let dtSec := medianDt * scale in
  let durSec := rawSpan * scale in
  let rate := count / durSec in
  ((dtSec <? 0.0005) = false /\ (2 <? dtSec) = false)
  /\ ((durSec <=? 0) = false
      /\ (1 <=? rate) = true /\ (rate <=? 500) = true).

#[warnings="-inexact-float"]
Definition plausibleb (medianDt rawSpan count scale : float) : bool :=
  let dtSec := medianDt * scale in
  let durSec := rawSpan * scale in
  let rate := count / durSec in
  negb (dtSec <? 0.0005) && negb (2 <? dtSec)
  && negb (durSec <=? 0) && (1 <=? rate) && (rate <=? 500).

(** The fallback: the scale that brings the median delta to 10 ms. *)
#[warnings="-inexact-float"]
Definition fallbackScale (medianDt : float) : float := 0.01 / medianDt.

(** The candidate scale factors in the order the specification words them:
    from 10^9 down to 10^-3. *)
Definition scalesAsSpecified (mathPow : float -> float -> float) : list float :=
  map (mathPow 10) [9; 8; 7; 6; 5; 4; 3; 2; 1; 0; -1; -2; -3].

(** The detection as the specification words it: the first of
    [scalesAsSpecified] that is plausible, else the 10 ms fallback. *)
#[warnings="-inexact-float"]
Definition detectAsSpecified (mathPow : float -> float -> float)
    (rows : list Row) (timeIdx : Z) : float :=
  let vt := finiteTimes rows timeIdx in
  let m := medianOf (positiveDeltas vt) in
  match find (plausibleb m (rawSpanOf vt) (countOf (length vt)))
             (scalesAsSpecified mathPow) with
  | Some scale => scale
  | None => fallbackScale m
  end.

(** A [Math.pow] that returns, for base 10 and a whole exponent from -9 to 9,
    the double nearest to the power. *)
#[warnings="-inexact-float"]
Definition nearestPow10 (base exponent : float) : float :=
  let table :=
    [(-9, 1e-9); (-8, 1e-8); (-7, 1e-7); (-6, 1e-6); (-5, 1e-5); (-4, 1e-4);
     (-3, 1e-3); (-2, 1e-2); (-1, 1e-1); (0, 1); (1, 10); (2, 100);
     (3, 1000); (4, 1e4); (5, 1e5); (6, 1e6); (7, 1e7); (8, 1e8); (9, 1e9)] in
  match find (fun p => fst p =? exponent) table with
  | Some p => snd p
  | None => nan
  end.

(** A [Math.pow] that differs from [nearestPow10] at the exponent [at_]
    only, where its result lies one unit in the last place lower. *)
Definition lowPow10 (at_ base exponent : float) : float :=
  if exponent =? at_ then next_down (nearestPow10 base exponent)
  else nearestPow10 base exponent.

(** A time column with the deltas 0.25, 6 and 2000: the median differs from
    the smallest, the largest and the first delta. *)
Definition rowsUneven : list Row := [[0]; [0.25]; [6.25]; [2006.25]].

(** The time column 0, 1, 2, 3. *)
Definition rows0123 : list Row := [[0]; [1]; [2]; [3]].

(** The time column 0, 50, 60. *)
Definition rows_0_50_60 : list Row := [[0]; [50]; [60]].

End TimeScaleSpec.

(** ** Calibration in double precision (fusion-processor.js)

    The calibration functions over IEEE 754 binary64 numbers, with the
    operations in the order the source writes them. *)

Module FusionDouble.
Import PrimFloat.
Local Open Scope float_scope.

Record AxisData : Type := mkAxes {
  x_ : list float;
  y_ : list float;
  z_ : list float
}.

(** [arr.length] as a number. *)
Definition lengthOf (arr : list float) : float :=
  of_uint63 (Uint63.of_Z (Z.of_nat (length arr))).

(** [median(arr)]; an index outside the array reads [undefined], which the
    arithmetic turns into NaN. *)
Definition median (arr : list float) : float :=
  let sorted := TimeScale.sortNumbers arr in
  let mid := (length sorted / 2)%nat in
  if Nat.eqb (length sorted mod 2) 1 then nth mid sorted nan
  else (nth (mid - 1) sorted nan + nth mid sorted nan) / 2.

(** [mean(arr)] *)
Definition mean (arr : list float) : float :=
  fold_left (fun sum v => sum + v) arr 0 / lengthOf arr.

Definition subtractMedian (data : list float) : list float :=
  let bias := median data in
  map (fun v => v - bias) data.

Definition calibrateMagnetometer (magData : AxisData) : AxisData :=
  mkAxes (subtractMedian (x_ magData))
         (subtractMedian (y_ magData))
         (subtractMedian (z_ magData)).

Definition magnitudes (accData : AxisData) : list float :=
  map (fun i =>
         let ax := nth i (x_ accData) nan in
         let ay := nth i (y_ accData) nan in
         let az := nth i (z_ accData) nan in
         sqrt (ax * ax + ay * ay + az * az))
      (seq 0 (length (x_ accData))).

Definition calibrateAccelerometer (accData : AxisData) : AxisData :=
  let avgMagnitude := mean (magnitudes accData) in
  let scale := if 0 <? avgMagnitude then 1 / avgMagnitude else 1 in
  mkAxes (map (fun v => v * scale) (x_ accData))
         (map (fun v => v * scale) (y_ accData))
         (map (fun v => v * scale) (z_ accData)).

(** The one-sample accelerometer stream (49, 0, 0). *)
Definition oneSample49 : AxisData := mkAxes [49] [0] [0].

(** The signal -0.3, 0.3, of median 0, and the bias 0.7. *)
#[warnings="-inexact-float"]
Definition signal03 : list float := [-0.3; 0.3].

#[warnings="-inexact-float"]
Definition bias07 : float := 0.7.

(** A magnetometer stream with this signal plus this bias on every axis. *)
Definition biasedSignal : AxisData :=
  let data := map (fun u => u + bias07) signal03 in
  mkAxes data data data.

End FusionDouble.


(** * Properties *)

(** ** TimeBase normalizer *)

Section TimeBaseProperties.
Import TimeBase Spec.
Local Open Scope Q_scope.

Lemma Qltb_lt (a b : Q) : Qltb a b = true <-> a < b.
Proof.
  unfold Qltb. rewrite negb_true_iff. split; intro H.
  - apply Qnot_le_lt. intro Hle. apply Qle_bool_iff in Hle. congruence.
  - destruct (Qle_bool b a) eqn:E; [|reflexivity].
    apply Qle_bool_iff in E. exfalso. exact (Qlt_not_le _ _ H E).
Qed.

Lemma Qltb_ge (a b : Q) : Qltb a b = false <-> b <= a.
Proof.
  unfold Qltb. rewrite negb_false_iff. apply Qle_bool_iff.
Qed.

Lemma Qle_bool_false (a b : Q) : Qle_bool a b = false <-> b < a.
Proof.
  split; intro H.
  - apply Qnot_le_lt. intro Hle. apply Qle_bool_iff in Hle. congruence.
  - destruct (Qle_bool a b) eqn:E; [|reflexivity].
    apply Qle_bool_iff in E. exfalso. exact (Qlt_not_le _ _ H E).
Qed.

(** *** The scanning loop against the list of finite time values *)

Lemma scan_validCount timeIdx rows : forall i s,
  validCount (scanRows timeIdx i rows s)
  = (validCount s + length (validFrom timeIdx i rows))%nat.
Proof.
  induction rows as [|r rest IH]; intros i s; simpl.
  - lia.
  - rewrite IH. unfold scanStep.
    destruct (readTime r timeIdx); simpl; lia.
Qed.

Lemma scan_firstVal timeIdx rows : forall i s,
  firstVal (scanRows timeIdx i rows s)
  = match firstVal s with
    | Some f => Some f
    | None => hd_error (map snd (validFrom timeIdx i rows))
    end.
Proof.
  induction rows as [|r rest IH]; intros i s; simpl.
  - destruct (firstVal s); reflexivity.
  - rewrite IH. unfold scanStep.
    destruct (readTime r timeIdx); simpl; destruct (firstVal s); reflexivity.
Qed.

Lemma scan_lastVal timeIdx rows : forall i s,
  lastVal (scanRows timeIdx i rows s)
  = match validFrom timeIdx i rows with
    | [] => lastVal s
    | vt => Some (last (map snd vt) 0)
    end.
Proof.
  induction rows as [|r rest IH]; intros i s; simpl.
  - reflexivity.
  - rewrite IH. unfold scanStep.
    destruct (readTime r timeIdx) as [v|]; simpl.
    + destruct (validFrom timeIdx (S i) rest); reflexivity.
    + reflexivity.
Qed.

Lemma scan_dts timeIdx rows : forall i s,
  dts (scanRows timeIdx i rows s)
  = dts s ++ match prev s with
             | Some p => deltasFrom p (validFrom timeIdx i rows)
             | None => positiveDeltas (validFrom timeIdx i rows)
             end.
Proof.
  induction rows as [|r rest IH]; intros i s; simpl.
  - destruct (prev s); simpl; now rewrite app_nil_r.
  - rewrite IH. unfold scanStep.
    destruct (readTime r timeIdx) as [v|]; simpl; [|reflexivity].
    destruct (prev s) as [p|]; simpl; [|reflexivity].
    destruct (i <? 201)%nat; simpl; [|reflexivity].
    destruct (Qltb 0 (v - p)); simpl; [|reflexivity].
    now rewrite <- app_assoc.
Qed.

Lemma scan_init_dts timeIdx rows :
  dts (scanRows timeIdx 0 rows scanInit) = positiveDeltas (validTimes rows timeIdx).
Proof. rewrite scan_dts. reflexivity. Qed.

Lemma positiveDeltas_nonempty vt :
  positiveDeltas vt <> [] -> exists a b tl, vt = a :: b :: tl.
Proof.
  destruct vt as [|a [|b tl]]; simpl; intro H.
  - congruence.
  - destruct a. simpl in H. congruence.
  - eauto.
Qed.

(** *** The sort *)

Lemma Qinsert_perm v l : Permutation (v :: l) (insertDelta v l).
Proof.
  induction l as [|h l IH]; simpl.
  - apply Permutation_refl.
  - destruct (Qltb v h).
    + apply Permutation_refl.
    + eapply perm_trans; [apply perm_swap|]. now apply perm_skip.
Qed.

Lemma Qsort_perm l : Permutation l (sortDeltas l).
Proof.
  induction l as [|v l IH]; simpl.
  - apply perm_nil.
  - eapply perm_trans; [apply perm_skip; exact IH | apply Qinsert_perm].
Qed.

Lemma Qinsert_sorted v l : Sorted Qle l -> Sorted Qle (insertDelta v l).
Proof.
  induction l as [|h l IH]; simpl; intro Hs.
  - repeat constructor.
  - destruct (Qltb v h) eqn:E.
    + apply Qltb_lt in E. constructor; [exact Hs|].
      constructor. now apply Qlt_le_weak.
    + apply Qltb_ge in E.
      inversion Hs as [|? ? Hs' Hhd]; subst.
      constructor; [now apply IH|].
      destruct l as [|h' l]; simpl.
      * constructor. exact E.
      * destruct (Qltb v h'); constructor; [exact E|].
        inversion Hhd; subst. assumption.
Qed.

Lemma Qsort_sorted l : Sorted Qle (sortDeltas l).
Proof.
  induction l as [|v l IH]; simpl.
  - constructor.
  - now apply Qinsert_sorted.
Qed.

(** The median is one of the deltas. *)
Lemma medianOf_In ds : ds <> [] -> In (medianOf ds) ds.
Proof.
  intro H. unfold medianOf.
  apply (Permutation_in _ (Permutation_sym (Qsort_perm ds))).
  apply nth_In.
  rewrite <- (Permutation_length (Qsort_perm ds)).
  destruct ds; [congruence|]. apply Nat.div_lt; simpl; lia.
Qed.

(** *** The candidate loop *)

Lemma pow10_pos (e : Z) : 0 < pow10 e.
Proof. unfold pow10. apply Qpower_0_lt. reflexivity. Qed.

Lemma firstAccepted_nth m span n : forall exps,
  match firstAccepted m span n exps with
  | Some s =>
      exists k, (k < length exps)%nat /\ s = pow10 (- nth k exps 0%Z)
                /\ accepts m span n (nth k exps 0%Z) = true
                /\ forall j, (j < k)%nat -> accepts m span n (nth j exps 0%Z) = false
  | None =>
      forall j, (j < length exps)%nat -> accepts m span n (nth j exps 0%Z) = false
  end.
Proof.
  induction exps as [|e rest IH]; simpl.
  - intros j Hj. lia.
  - destruct (accepts m span n e) eqn:E.
    + exists 0%nat. repeat split; [lia | exact E | intros j Hj; lia].
    + destruct (firstAccepted m span n rest) as [s|].
      * destruct IH as (k & Hk & Hs & Hacc & Hbefore).
        exists (S k). repeat split; [lia | exact Hs | exact Hacc |].
        intros [|j] Hj; [exact E | apply Hbefore; lia].
      * intros [|j] Hj; [exact E | apply IH; lia].
Qed.

(** *** The rewriting loop *)

Lemma rewriteRows_rows k t0raw sc rows : forall mraw mt,
  fst (rewriteRows k t0raw sc rows mraw mt) = map (rewrittenRow k t0raw sc) rows.
Proof.
  induction rows as [|r rest IH]; intros mraw mt; simpl.
  - reflexivity.
  - unfold rewrittenRow at 1.
    destruct (readTime r k) as [v|].
    + match goal with
      | |- context [rewriteRows k t0raw sc rest ?a ?b] =>
          specialize (IH a b); destruct (rewriteRows k t0raw sc rest a b) as [rs m]
      end.
      simpl in *. now rewrite IH.
    + specialize (IH mraw mt).
      destruct (rewriteRows k t0raw sc rest mraw mt) as [rs m].
      simpl in *. now rewrite IH.
Qed.

Lemma rewriteRows_maxT k t0raw sc rows : forall mraw mt,
  let mt' := snd (snd (rewriteRows k t0raw sc rows mraw mt)) in
  mt <= mt'
  /\ (forall r v, In r rows -> readTime r k = Some v -> (v - t0raw) * sc <= mt')
  /\ (mt' = mt
      \/ exists r v, In r rows /\ readTime r k = Some v /\ mt' = (v - t0raw) * sc).
Proof.
  induction rows as [|r rest IH]; intros mraw mt; simpl.
  - split; [apply Qle_refl|]. split; [intros r v []|]. now left.
  - destruct (readTime r k) as [v|] eqn:E.
    + match goal with
      | |- context [rewriteRows k t0raw sc rest ?a ?b] =>
          specialize (IH a b); destruct (rewriteRows k t0raw sc rest a b) as [rs [m1 m2]]
      end.
      simpl in *. destruct IH as (Hle & Hall & Hatt).
      destruct (Qltb mt ((v - t0raw) * sc)) eqn:Elt.
      * apply Qltb_lt in Elt. split; [|split].
        -- apply Qle_trans with ((v - t0raw) * sc); [apply Qlt_le_weak; exact Elt | exact Hle].
        -- intros r' v' [Hr|Hr] Hv'.
           ++ subst r'. rewrite E in Hv'. injection Hv' as <-. exact Hle.
           ++ eapply Hall; eauto.
        -- right. destruct Hatt as [Heq | (r' & v' & Hin & Hv' & Heq)].
           ++ exists r, v. auto.
           ++ exists r', v'. auto.
      * apply Qltb_ge in Elt. split; [exact Hle|]. split.
        -- intros r' v' [Hr|Hr] Hv'.
           ++ subst r'. rewrite E in Hv'. injection Hv' as <-.
              apply Qle_trans with mt; assumption.
           ++ eapply Hall; eauto.
        -- destruct Hatt as [Heq | (r' & v' & Hin & Hv' & Heq)].
           ++ now left.
           ++ right. exists r', v'. auto.
    + specialize (IH mraw mt).
      destruct (rewriteRows k t0raw sc rest mraw mt) as [rs [m1 m2]].
      simpl in *. destruct IH as (Hle & Hall & Hatt).
      split; [exact Hle|]. split.
      * intros r' v' [Hr|Hr] Hv'.
        -- subst r'. congruence.
        -- eapply Hall; eauto.
      * destruct Hatt as [Heq | (r' & v' & Hin & Hv' & Heq)].
        -- now left.
        -- right. exists r', v'. auto.
Qed.


(** *** The normalizer *)

(** Without a positive delta, or with a span that is not positive, the
    detected scale is 1. *)
Lemma detectTimeScaleFactor_short (rows : list Row) (timeIdx : Z) :
  positiveDeltas (validTimes rows timeIdx) = [] ->
  detectTimeScaleFactor rows timeIdx = 1.
Proof.
  intro H. unfold detectTimeScaleFactor.
  rewrite scan_init_dts, H. reflexivity.
Qed.

(** With a span that is not positive the detected scale is 1 as well. *)
Lemma detectTimeScaleFactor_nonpositive_span (rows : list Row) (timeIdx : Z) :
  rawSpanOf (validTimes rows timeIdx) <= 0 ->
  detectTimeScaleFactor rows timeIdx = 1.
Proof.
  intro Hspan. unfold detectTimeScaleFactor. cbv zeta.
  rewrite scan_init_dts, scan_firstVal, scan_lastVal.
  fold (validTimes rows timeIdx).
  destruct (positiveDeltas (validTimes rows timeIdx)) as [|d ds] eqn:Eds;
    [reflexivity|].
  assert (Hne : positiveDeltas (validTimes rows timeIdx) <> []) by congruence.
  destruct (positiveDeltas_nonempty _ Hne) as (a & b & tl & Hvt).
  revert Hspan. unfold rawSpanOf. rewrite Hvt.
  cbn [firstVal scanInit map hd_error hd].
  intro Hspan. apply Qle_bool_iff in Hspan.
  cbn [map] in Hspan. rewrite Hspan. reflexivity.
Qed.

(** C2, counterexample.  A one-row input gets scale 1.0 and is rewritten all
    the same (5 becomes 0), and a row whose time value is not finite is left
    as it was instead of being replaced. *)
Lemma normalizeTimeColumnInPlace_counterexample :
  (scale (fst (normalizeTimeColumnInPlace [[CNum 5]] (Some 0%Z))) = Some 1
   /\ snd (normalizeTimeColumnInPlace [[CNum 5]] (Some 0%Z)) = [[CNum 0]]
   /\ snd (normalizeTimeColumnInPlace [[CNum 5]] (Some 0%Z)) <> [[CNum 5]])
  /\ (let rows := [[CNum 0]; [CText "x"]; [CNum 10]; [CNum 20]] in
      let out := normalizeTimeColumnInPlace rows (Some 0%Z) in
      nth 1 (snd out) [] = [CText "x"]
      /\ nth 1 (snd out) []
         <> rewrittenRowAsSpecified 0 0 (detectTimeScaleFactor rows 0)
                                    [CText "x"]).
Proof.
  split.
  - split; [vm_compute; reflexivity|]. split; [vm_compute; reflexivity|].
    vm_compute. discriminate.
  - split; [vm_compute; reflexivity|]. vm_compute. discriminate.
Qed.

(** C2, amended.  When [rows] is empty, the index is missing or negative, or
    the first row has no finite time value, nothing is rewritten and the
    result carries [t0 = null] and no scale (the caller then takes 1.0).
    Otherwise every row with a finite time value [v] gets
    [(v - firstRaw) * scale] and every other row is left as it is, [t0] is 0,
    [scale] is the detected factor (1 when the input is too short to yield a
    positive delta), and [maxT] is the largest rewritten value, at least 0. *)
Theorem normalizeTimeColumnInPlace_spec :
  (forall rows timeIdx,
      (rows = []
       \/ timeIdx = None
       \/ exists k, timeIdx = Some k
            /\ ((k < 0)%Z
                \/ exists r0 rest, rows = r0 :: rest /\ readTime r0 k = None)) ->
      normalizeTimeColumnInPlace rows timeIdx = (earlyInfo, rows)
      /\ t0 earlyInfo = None /\ scale earlyInfo = None
      /\ scaleOrDefault earlyInfo = 1)
  /\ (forall r0 rest k t0raw,
         readTime r0 k = Some t0raw ->
         let rows := r0 :: rest in
         let sc := detectTimeScaleFactor rows k in
         let info := fst (normalizeTimeColumnInPlace rows (Some k)) in
         let rows' := snd (normalizeTimeColumnInPlace rows (Some k)) in
         t0 info = Some 0 /\ t0Raw info = Some t0raw /\ scale info = Some sc
         /\ rows' = map (rewrittenRow k t0raw sc) rows
         /\ (forall r, readTime r k = None -> rewrittenRow k t0raw sc r = r)
         /\ (forall r v, readTime r k = Some v ->
               readTime (rewrittenRow k t0raw sc r) k = Some ((v - t0raw) * sc))
         /\ 0 <= maxT info
         /\ (forall r v, In r rows -> readTime r k = Some v ->
               (v - t0raw) * sc <= maxT info)
         /\ (maxT info = 0
             \/ exists r v, In r rows /\ readTime r k = Some v
                            /\ maxT info = (v - t0raw) * sc)
         /\ (positiveDeltas (validTimes rows k) = [] -> sc = 1)).
Proof.
  split.
  - intros rows timeIdx H. split; [|repeat split].
    destruct H as [-> | [-> | (k & -> & [Hk | (r0 & rest & -> & Hr)])]].
    + reflexivity.
    + destruct rows; reflexivity.
    + destruct rows; [reflexivity|]. simpl.
      apply Z.ltb_lt in Hk. now rewrite Hk.
    + simpl. rewrite Hr. destruct (k <? 0)%Z; reflexivity.
  - intros r0 rest k t0raw Hr0 rows sc info rows'.
    assert (Hk : (k <? 0)%Z = false).
    { unfold readTime in Hr0. destruct (k <? 0)%Z; [discriminate|reflexivity]. }
    pose proof (rewriteRows_rows k t0raw sc rows 0 0) as Hrows.
    pose proof (rewriteRows_maxT k t0raw sc rows 0 0) as Hmax.
    assert (Hnorm : normalizeTimeColumnInPlace rows (Some k)
                    = (mkNormInfo (Some 0)
                         (snd (snd (rewriteRows k t0raw sc rows 0 0)))
                         (Some t0raw)
                         (fst (snd (rewriteRows k t0raw sc rows 0 0)))
                         (Some sc),
                       fst (rewriteRows k t0raw sc rows 0 0))).
    { unfold normalizeTimeColumnInPlace, rows. rewrite Hk, Hr0.
      fold rows. fold sc.
      destruct (rewriteRows k t0raw sc rows 0 0) as [rs [m1 m2]]. reflexivity. }
    unfold info, rows'. rewrite Hnorm. cbn [fst snd t0 t0Raw scale maxT].
    cbv zeta in Hmax. destruct Hmax as (Hle & Hall & Hatt).
    repeat split; try assumption.
    + intros r Hr. unfold rewrittenRow. now rewrite Hr.
    + intros r v Hr. unfold rewrittenRow. rewrite Hr.
      clear - Hr. unfold readTime in *.
      destruct (k <? 0)%Z; [discriminate|].
      generalize dependent (Z.to_nat k). intros n. revert n.
      induction r as [|c r IH]; intros [|n] Hr; simpl in *; try discriminate.
      * reflexivity.
      * apply IH. exact Hr.
    + intro Hshort. apply detectTimeScaleFactor_short. exact Hshort.
Qed.

Lemma normalize_maxT_nonneg (rows : list Row) (timeIdx : option Z) :
  0 <= maxT (fst (normalizeTimeColumnInPlace rows timeIdx)).
Proof.
  unfold normalizeTimeColumnInPlace.
  destruct rows as [|r0 rest]; [apply Qle_refl|].
  destruct timeIdx as [k|]; [|apply Qle_refl].
  destruct (k <? 0)%Z; [apply Qle_refl|].
  destruct (readTime r0 k) as [t0raw|]; [|apply Qle_refl].
  pose proof (rewriteRows_maxT k t0raw (detectTimeScaleFactor (r0 :: rest) k)
                (r0 :: rest) 0 0) as H.
  cbv zeta in H. destruct H as [H _].
  destruct (rewriteRows k t0raw (detectTimeScaleFactor (r0 :: rest) k)
              (r0 :: rest) 0 0) as [rs [m1 m2]].
  exact H.
Qed.

End TimeBaseProperties.

(** ** Time-scale detection in double precision *)

Section TimeScaleProperties.
Import PrimFloat SpecFloat FloatOps FloatAxioms TimeScale TimeScaleSpec.
Local Open Scope float_scope.

(** *** The scanning loop against the list of finite time values *)

Lemma scanLoop_validCount timeIdx rows : forall i s,
  validCount (scanLoop timeIdx i rows s)
  = Nat.iter (length (finiteFrom timeIdx i rows)) (fun c => c + 1) (validCount s).
Proof.
  induction rows as [|r rest IH]; intros i s; simpl.
  - reflexivity.
  - rewrite IH. unfold scanRow.
    destruct (is_finite (numberAt r timeIdx)); simpl; [|reflexivity].
    symmetry. exact (Nat.iter_succ_r _ _ (fun c => c + 1) _).
Qed.

Lemma scanLoop_firstVal timeIdx rows : forall i s,
  firstVal (scanLoop timeIdx i rows s)
  = match firstVal s with
    | Some f => Some f
    | None => hd_error (map snd (finiteFrom timeIdx i rows))
    end.
Proof.
  induction rows as [|r rest IH]; intros i s; simpl.
  - destruct (firstVal s); reflexivity.
  - rewrite IH. unfold scanRow.
    destruct (is_finite (numberAt r timeIdx)); simpl;
      destruct (firstVal s); reflexivity.
Qed.

Lemma scanLoop_lastVal timeIdx rows : forall i s,
  lastVal (scanLoop timeIdx i rows s)
  = match finiteFrom timeIdx i rows with
    | [] => lastVal s
    | vt => Some (last (map snd vt) nan)
    end.
Proof.
  induction rows as [|r rest IH]; intros i s; simpl.
  - reflexivity.
  - rewrite IH. unfold scanRow.
    destruct (is_finite (numberAt r timeIdx)); simpl.
    + destruct (finiteFrom timeIdx (S i) rest); reflexivity.
    + reflexivity.
Qed.

Lemma scanLoop_dts timeIdx rows : forall i s,
  dts (scanLoop timeIdx i rows s)
  = dts s ++ match prev s with
             | Some p => deltasAfter p (finiteFrom timeIdx i rows)
             | None => positiveDeltas (finiteFrom timeIdx i rows)
             end.
Proof.
  induction rows as [|r rest IH]; intros i s; simpl.
  - destruct (prev s); simpl; now rewrite app_nil_r.
  - rewrite IH. unfold scanRow.
    destruct (is_finite (numberAt r timeIdx)); simpl; [|reflexivity].
    destruct (prev s) as [p|]; simpl; [|reflexivity].
    destruct (i <? 201)%nat; simpl; [|reflexivity].
    destruct (0 <? numberAt r timeIdx - p); simpl; [|reflexivity].
    now rewrite <- app_assoc.
Qed.

Lemma positiveDeltas_two vt :
  positiveDeltas vt <> [] -> exists a b tl, vt = a :: b :: tl.
Proof.
  destruct vt as [|a [|b tl]]; simpl; intro H.
  - congruence.
  - destruct a. simpl in H. congruence.
  - eauto.
Qed.

(** *** The sort *)

Lemma insertSorted_perm x l : Permutation (x :: l) (insertSorted x l).
Proof.
  induction l as [|y l IH]; simpl.
  - apply Permutation_refl.
  - destruct (y - x <? 0).
    + eapply perm_trans; [apply perm_swap|]. now apply perm_skip.
    + apply Permutation_refl.
Qed.

Lemma sortNumbers_perm l : Permutation l (sortNumbers l).
Proof.
  induction l as [|x l IH]; simpl.
  - apply perm_nil.
  - eapply perm_trans; [apply perm_skip; exact IH | apply insertSorted_perm].
Qed.

Lemma insertSorted_sorted x l :
  Sorted inOrder l -> Sorted inOrder (insertSorted x l).
Proof.
  induction l as [|y l IH]; simpl; intro Hs.
  - repeat constructor.
  - destruct (y - x <? 0) eqn:E.
    + inversion Hs as [|? ? Hs' Hhd]; subst.
      constructor; [now apply IH|].
      destruct l as [|y' l]; simpl.
      * constructor. now left.
      * destruct (y' - x <? 0); constructor; [|now left].
        now inversion Hhd.
    + constructor; [exact Hs|]. constructor. now right.
Qed.

Lemma sortNumbers_sorted l : Sorted inOrder (sortNumbers l).
Proof.
  induction l as [|x l IH]; simpl.
  - constructor.
  - now apply insertSorted_sorted.
Qed.

(** The median the code takes is the upper median. *)
Lemma medianOf_UpperMedian ds : ds <> [] -> UpperMedian ds (medianOf ds).
Proof.
  intro Hne. exists (sortNumbers ds).
  split; [apply sortNumbers_perm|]. split; [apply sortNumbers_sorted|].
  unfold medianOf. apply nth_error_nth'.
  rewrite <- (Permutation_length (sortNumbers_perm ds)).
  destruct ds; [congruence|]. apply Nat.div_lt; simpl; lia.
Qed.

(** *** Comparisons of doubles *)

Lemma SFcompare_antisym a b :
  SFcompare b a = option_map CompOpp (SFcompare a b).
Proof.
  destruct a as [sa|sa| |sa ma ea], b as [sb|sb| |sb mb eb]; simpl;
    try reflexivity;
    try (destruct sa; reflexivity); try (destruct sb; reflexivity);
    try (destruct sa, sb; reflexivity).
  destruct sa, sb; simpl; try reflexivity;
    rewrite (Z.compare_antisym ea eb);
    destruct (ea ?= eb)%Z; simpl; try reflexivity.
  - rewrite CompOpp_involutive. f_equal.
    apply (Pos.compare_cont_antisym mb ma Eq).
  - f_equal. symmetry. apply (Pos.compare_cont_antisym ma mb Eq).
Qed.

Lemma is_nan_SF x : is_nan x = false -> Prim2SF x <> S754_nan.
Proof.
  unfold is_nan. rewrite eqb_spec. intros H E. rewrite E in H. discriminate.
Qed.

Lemma SFcompare_some a b :
  a <> S754_nan -> b <> S754_nan -> exists c, SFcompare a b = Some c.
Proof.
  intros Ha Hb.
  destruct a as [sa|sa| |sa ma ea], b as [sb|sb| |sb mb eb]; simpl;
    try congruence; eauto.
Qed.

(** A number that is not below another one is at least that one. *)
Lemma not_below_at_least x y :
  is_nan x = false -> is_nan y = false ->
  ((x <? y) = false <-> (y <=? x) = true).
Proof.
  intros Hx Hy. apply is_nan_SF in Hx, Hy.
  rewrite ltb_spec, leb_spec. unfold SFltb, SFleb.
  rewrite (SFcompare_antisym (Prim2SF x) (Prim2SF y)).
  destruct (SFcompare_some _ _ Hx Hy) as [c ->]. simpl.
  destruct c; simpl; split; congruence.
Qed.

Lemma SFcompare_refl a : a <> S754_nan -> SFcompare a a = Some Eq.
Proof.
  destruct a as [sa|sa| |sa ma ea]; simpl; intro H; try congruence.
  - destruct sa; reflexivity.
  - destruct sa; rewrite Z.compare_refl, Pos.compare_cont_refl; reflexivity.
Qed.

Lemma SF_is_nan x : Prim2SF x <> S754_nan -> is_nan x = false.
Proof.
  intro H. unfold is_nan. rewrite eqb_spec. unfold SFeqb.
  now rewrite SFcompare_refl.
Qed.

(** A comparison with NaN is false. *)
Lemma leb_not_nan x y : (x <=? y) = true -> is_nan x = false /\ is_nan y = false.
Proof.
  rewrite leb_spec. unfold SFleb. intro H.
  split; apply SF_is_nan; intro E; rewrite E in H; simpl in H;
    [discriminate|].
  destruct (Prim2SF x); discriminate.
Qed.

(** *** The candidate loop *)

Lemma accepts_Plausible m span n scale :
  accepts m span n scale = true <-> Plausible m span n scale.
Proof.
  unfold accepts, Plausible, DT_MIN_S, DT_MAX_S, RATE_MIN, RATE_MAX. cbv zeta.
  destruct (m * scale <? _); simpl.
  { split; [discriminate | intros [[H _] _]; discriminate]. }
  destruct (_ <? m * scale); simpl.
  { split; [discriminate | intros [[_ H] _]; discriminate]. }
  destruct (span * scale <=? 0).
  { split; [discriminate | intros [_ [H _]]; discriminate]. }
  rewrite andb_true_iff. tauto.
Qed.

(** When the scaled median delta and the scaled span are numbers, the
    conditions are the closed ranges: the scaled median delta lies in
    [0.5 ms, 2 s], the scaled span is positive and the rate lies in
    [1 Hz, 500 Hz]. *)
#[warnings="-inexact-float"]
Lemma Plausible_ranges m span n scale :
  is_nan (m * scale) = false -> is_nan (span * scale) = false ->
  (Plausible m span n scale
   <-> ((0.0005 <=? m * scale) = true /\ (m * scale <=? 2) = true)
       /\ ((0 <? span * scale) = true
           /\ (1 <=? n / (span * scale)) = true
           /\ (n / (span * scale) <=? 500) = true)).
Proof.
  intros Hdt Hdur. unfold Plausible. cbv zeta.
  assert (Hmin : is_nan DT_MIN_S = false) by reflexivity.
  assert (Hmax : is_nan DT_MAX_S = false) by reflexivity.
  assert (Hzero : is_nan 0 = false) by reflexivity.
  pose proof (not_below_at_least (m * scale) DT_MIN_S Hdt Hmin) as H1.
  pose proof (not_below_at_least DT_MAX_S (m * scale) Hmax Hdt) as H2.
  unfold DT_MIN_S in H1. unfold DT_MAX_S in H2.
  pose proof (not_below_at_least 0 (span * scale) Hzero Hdur) as H3.
  rewrite H1, H2.
  assert (H4 : (span * scale <=? 0) = false <-> (0 <? span * scale) = true).
  { destruct (0 <? span * scale), (span * scale <=? 0);
      intuition congruence. }
  rewrite H4. tauto.
Qed.

Lemma firstAccepted_first mathPow m span n : forall exps,
  match firstAccepted mathPow m span n exps with
  | Some s =>
      exists k, (k < length exps)%nat
                /\ s = mathPow 10 (- nth k exps nan)
                /\ accepts m span n (mathPow 10 (- nth k exps nan)) = true
                /\ forall j, (j < k)%nat ->
                     accepts m span n (mathPow 10 (- nth j exps nan)) = false
  | None =>
      forall j, (j < length exps)%nat ->
                accepts m span n (mathPow 10 (- nth j exps nan)) = false
  end.
Proof.
  induction exps as [|e rest IH]; simpl.
  - intros j Hj. lia.
  - destruct (accepts m span n (mathPow 10 (- e))) eqn:E.
    + exists 0%nat. repeat split; [lia | exact E | intros j Hj; lia].
    + destruct (firstAccepted mathPow m span n rest) as [s|].
      * destruct IH as (k & Hk & Hs & Hacc & Hbefore).
        exists (S k). repeat split; [lia | exact Hs | exact Hacc |].
        intros [|j] Hj; [exact E | apply Hbefore; lia].
      * intros [|j] Hj; [exact E | apply IH; lia].
Qed.

(** What the function returns once the scan has found a positive delta. *)
Lemma detectTimeScaleFactor_unfold mathPow rows timeIdx :
  let vt := finiteTimes rows timeIdx in
  positiveDeltas vt <> [] ->
  detectTimeScaleFactor mathPow rows timeIdx
  = if rawSpanOf vt <=? 0 then 1
    else match firstAccepted mathPow (medianOf (positiveDeltas vt)) (rawSpanOf vt)
                             (countOf (length vt)) candidateExps with
         | Some scale => scale
         | None => fallbackScale (medianOf (positiveDeltas vt))
         end.
Proof.
  intros vt Hds.
  destruct (positiveDeltas_two vt Hds) as (a & b & tl & Hvt).
  assert (Hdts : dts (scanLoop timeIdx 0 rows scanInit) = positiveDeltas vt)
    by (rewrite scanLoop_dts; reflexivity).
  assert (Hfirst : firstVal (scanLoop timeIdx 0 rows scanInit)
                   = Some (hd nan (map snd vt))).
  { rewrite scanLoop_firstVal. simpl. fold (finiteTimes rows timeIdx). fold vt.
    rewrite Hvt. reflexivity. }
  assert (Hlast : lastVal (scanLoop timeIdx 0 rows scanInit)
                  = Some (last (map snd vt) nan)).
  { rewrite scanLoop_lastVal. fold (finiteTimes rows timeIdx). fold vt.
    rewrite Hvt. reflexivity. }
  assert (Hcount : validCount (scanLoop timeIdx 0 rows scanInit)
                   = countOf (length vt)).
  { rewrite scanLoop_validCount. reflexivity. }
  unfold detectTimeScaleFactor. cbv zeta.
  rewrite Hdts, Hfirst, Hlast, Hcount.
  fold (rawSpanOf vt).
  revert Hds. case (positiveDeltas vt); [congruence | reflexivity].
Qed.

(** C1, counterexample.  The time column 0, 0.25, 6.25, 2006.25 (median
    delta 6) gets the scale [Math.pow(10, -4)] from the code, the first
    plausible scale when the scales are tried from 10^-9 upwards; tried from
    10^9 downwards, as the claim words it, the first plausible scale is
    [Math.pow(10, -3)].  For the time column 0, 1, 2, 3 the two orders give
    [Math.pow(10, -2)] and [Math.pow(10, 0)].  This holds with a [Math.pow]
    that returns the nearest doubles and with one whose 10^-4 lies one unit
    in the last place lower. *)
Lemma detectTimeScaleFactor_order_counterexample :
  (detectTimeScaleFactor nearestPow10 rowsUneven 0 = nearestPow10 10 (-4)
   /\ detectAsSpecified nearestPow10 rowsUneven 0 = nearestPow10 10 (-3)
   /\ (detectTimeScaleFactor nearestPow10 rowsUneven 0
       =? detectAsSpecified nearestPow10 rowsUneven 0) = false)
  /\ (detectTimeScaleFactor nearestPow10 rows0123 0 = nearestPow10 10 (-2)
      /\ detectAsSpecified nearestPow10 rows0123 0 = nearestPow10 10 0
      /\ (detectTimeScaleFactor nearestPow10 rows0123 0
          =? detectAsSpecified nearestPow10 rows0123 0) = false)
  /\ (detectTimeScaleFactor (lowPow10 (-4)) rowsUneven 0
      = lowPow10 (-4) 10 (-4)
      /\ detectAsSpecified (lowPow10 (-4)) rowsUneven 0
         = lowPow10 (-4) 10 (-3)
      /\ (detectTimeScaleFactor (lowPow10 (-4)) rowsUneven 0
          =? detectAsSpecified (lowPow10 (-4)) rowsUneven 0) = false)
  /\ (detectTimeScaleFactor (lowPow10 (-4)) rows0123 0
      = lowPow10 (-4) 10 (-2)
      /\ detectAsSpecified (lowPow10 (-4)) rows0123 0 = lowPow10 (-4) 10 0
      /\ (detectTimeScaleFactor (lowPow10 (-4)) rows0123 0
          =? detectAsSpecified (lowPow10 (-4)) rows0123 0) = false).
Proof. repeat split; vm_compute; reflexivity. Qed.

(** C1, amended.  When the scan finds a positive delta and the raw span is
    positive, [detectTimeScaleFactor] takes the upper median [m] of the
    positive deltas between consecutive finite time values at row indices
    below 201, and returns [Math.pow(10, -exp)] for the first [exp] of 9, 8,
    ..., -3 whose scale is plausible, conditions (a) and (b) being evaluated
    in double precision with the count and the span taken over all finite
    rows; so the scales are tried from 10^-9 upwards.  When no candidate is
    plausible it returns [0.01 / m]. *)
Theorem detectTimeScaleFactor_first_plausible
    (mathPow : float -> float -> float) (rows : list Row) (timeIdx : Z) :
  let vt := finiteTimes rows timeIdx in
  let ds := positiveDeltas vt in
  let span := rawSpanOf vt in
  let n := countOf (length vt) in
  let r := detectTimeScaleFactor mathPow rows timeIdx in
  let scaleAt k := mathPow 10 (- nth k [9; 8; 7; 6; 5; 4; 3; 2; 1; 0; -1; -2; -3] nan) in
  ds <> [] ->
  (span <=? 0) = false ->
  exists m,
    UpperMedian ds m
    /\ ((exists k, (k < 13)%nat /\ r = scaleAt k
                   /\ Plausible m span n (scaleAt k)
                   /\ forall j, (j < k)%nat -> ~ Plausible m span n (scaleAt j))
        \/ ((forall k, (k < 13)%nat -> ~ Plausible m span n (scaleAt k))
            /\ r = fallbackScale m)).
Proof.
  intros vt ds span n r scaleAt Hds Hspan.
  exists (medianOf ds). split; [now apply medianOf_UpperMedian|].
  assert (Hr : r = match firstAccepted mathPow (medianOf ds) span n candidateExps with
                   | Some scale => scale
                   | None => fallbackScale (medianOf ds)
                   end).
  { unfold r. rewrite (detectTimeScaleFactor_unfold mathPow rows timeIdx Hds).
    fold vt. fold span. now rewrite Hspan. }
  pose proof (firstAccepted_first mathPow (medianOf ds) span n candidateExps) as Hfa.
  change (length candidateExps) with 13%nat in Hfa.
  change (fun k => mathPow 10 (- nth k candidateExps nan)) with scaleAt in *.
  destruct (firstAccepted mathPow (medianOf ds) span n candidateExps) as [s|].
  - left. destruct Hfa as (k & Hk & Hs & Hacc & Hbefore).
    exists k. split; [exact Hk|]. split; [now rewrite Hr|]. split.
    + now apply accepts_Plausible.
    + intros j Hj Hpl. apply accepts_Plausible in Hpl.
      specialize (Hbefore j Hj). unfold scaleAt in Hpl.
      change [9; 8; 7; 6; 5; 4; 3; 2; 1; 0; -1; -2; -3] with candidateExps in Hpl.
      congruence.
  - right. split; [|exact Hr].
    intros k Hk Hpl. apply accepts_Plausible in Hpl.
    specialize (Hfa k Hk). unfold scaleAt in Hpl.
    change [9; 8; 7; 6; 5; 4; 3; 2; 1; 0; -1; -2; -3] with candidateExps in Hpl.
    congruence.
Qed.

Lemma detectTimeScaleFactor_first_plausible_witness :
  let vt := finiteTimes rowsUneven 0 in
  let scaleAt k :=
    nearestPow10 10 (- nth k [9; 8; 7; 6; 5; 4; 3; 2; 1; 0; -1; -2; -3] nan) in
  exists m,
    UpperMedian (positiveDeltas vt) m
    /\ ((exists k, (k < 13)%nat
           /\ detectTimeScaleFactor nearestPow10 rowsUneven 0 = scaleAt k
           /\ Plausible m (rawSpanOf vt) (countOf (length vt)) (scaleAt k)
           /\ forall j, (j < k)%nat ->
                ~ Plausible m (rawSpanOf vt) (countOf (length vt)) (scaleAt j))
        \/ ((forall k, (k < 13)%nat ->
               ~ Plausible m (rawSpanOf vt) (countOf (length vt)) (scaleAt k))
            /\ detectTimeScaleFactor nearestPow10 rowsUneven 0 = fallbackScale m)).
Proof.
  apply (detectTimeScaleFactor_first_plausible nearestPow10 rowsUneven 0).
  - vm_compute. discriminate.
  - vm_compute. reflexivity.
Defined.

(** Without a positive delta, or with a span that is not positive, the
    detected scale is 1. *)
Lemma detectTimeScaleFactor_one mathPow rows timeIdx :
  let vt := finiteTimes rows timeIdx in
  positiveDeltas vt = [] \/ (rawSpanOf vt <=? 0) = true ->
  detectTimeScaleFactor mathPow rows timeIdx = 1.
Proof.
  intros vt H.
  destruct (positiveDeltas vt) as [|d ds] eqn:E.
  - unfold detectTimeScaleFactor.
    rewrite scanLoop_dts. simpl. fold (finiteTimes rows timeIdx). fold vt.
    now rewrite E.
  - destruct H as [H|H]; [discriminate|].
    assert (Hne : positiveDeltas vt <> []) by congruence.
    rewrite (detectTimeScaleFactor_unfold mathPow rows timeIdx Hne).
    fold vt. now rewrite H.
Qed.

(** At a boundary the result depends on the last bit of [Math.pow]: for the
    time column 0, 50, 60 the rate at the scale 10^-4 is exactly 500 when the
    power is the nearest double, and the result is 10^-4; with a power one
    unit in the last place lower the rate exceeds 500 and the result is
    10^-3.  The median delta is 50, not 10, the smaller and later delta. *)
Example detectTimeScaleFactor_boundary :
  detectTimeScaleFactor nearestPow10 rows_0_50_60 0 = nearestPow10 10 (-4)
  /\ detectTimeScaleFactor (lowPow10 (-4)) rows_0_50_60 0 = nearestPow10 10 (-3)
  /\ medianOf (positiveDeltas (finiteTimes rows_0_50_60 0)) = 50.
Proof. repeat split; vm_compute; reflexivity. Qed.

End TimeScaleProperties.

(** ** Cursor, time frame and time sync *)

Section ViewerProperties.
Import Viewer Spec.
Local Open Scope Q_scope.

Lemma orZeroQ_eq (q : Q) : orZeroQ q == q.
Proof.
  unfold orZeroQ. destruct (Qeq_bool q 0) eqn:E; [|reflexivity].
  apply Qeq_bool_iff in E. now symmetry.
Qed.

Lemma Qeq_le (a b : Q) : a == b -> a <= b.
Proof. intros ->. apply Qle_refl. Qed.

Lemma clamp_within (n : JsNum) (a b : Q) :
  a <= b -> a <= clamp n a b <= b.
Proof.
  intro Hab. destruct n; simpl; try (split; [apply Qle_refl | exact Hab]).
  split.
  - apply Q.min_glb; [exact Hab | apply Q.le_max_l].
  - apply Q.le_min_l.
Qed.

Lemma clamp_fin_eq (v v' a a' b b' : Q) :
  v == v' -> a == a' -> b == b' ->
  clamp (Fin v) a b == Qmin b' (Qmax a' v').
Proof. intros Hv Ha Hb. simpl. now rewrite Hv, Ha, Hb. Qed.

Lemma onImuCursorChanged_cursor t w :
  imuCursor (onImuCursorChanged t w) = imuCursor w
  /\ imuFullRangeMaxX (onImuCursorChanged t w) = imuFullRangeMaxX w.
Proof.
  unfold onImuCursorChanged.
  destruct (video w); [|auto].
  destruct (negb (canFollow w) || suppressImuToVideo w); [auto|].
  destruct (timeSync_offset w); auto.
Qed.

Lemma setImuCursorX_cursor n w :
  imuCursor (setImuCursorX n w)
  = mkCursor (clamp (orZero n) (orZeroQ (minX (imuCursor w)))
                    (orZeroQ (maxX (imuCursor w))))
             (minX (imuCursor w)) (maxX (imuCursor w))
  /\ imuFullRangeMaxX (setImuCursorX n w) = imuFullRangeMaxX w.
Proof.
  unfold setImuCursorX.
  match goal with
  | |- context [onImuCursorChanged ?t ?w1] =>
      destruct (onImuCursorChanged_cursor t w1) as [H1 H2]
  end.
  rewrite H1, H2. split; reflexivity.
Qed.

Lemma setImuCursorX_ok n w : CursorOk w -> CursorOk (setImuCursorX n w).
Proof.
  intros [[Hlo Hhi] Hfull]. unfold CursorOk.
  destruct (setImuCursorX_cursor n w) as [-> ->]. simpl.
  split; [|exact Hfull].
  assert (Hb : orZeroQ (minX (imuCursor w)) <= orZeroQ (maxX (imuCursor w))).
  { rewrite !orZeroQ_eq. eapply Qle_trans; eassumption. }
  pose proof (clamp_within (orZero n) _ _ Hb) as [H1 H2].
  split.
  - eapply Qle_trans; [|exact H1]. apply Qeq_le. symmetry. apply orZeroQ_eq.
  - eapply Qle_trans; [exact H2|]. apply Qeq_le. apply orZeroQ_eq.
Qed.

Lemma CursorOk_ext w w' :
  imuCursor w' = imuCursor w -> imuFullRangeMaxX w' = imuFullRangeMaxX w ->
  CursorOk w -> CursorOk w'.
Proof. unfold CursorOk. intros -> ->. auto. Qed.

Lemma pushVideoTimeToImu_ok w : CursorOk w -> CursorOk (pushVideoTimeToImu w).
Proof.
  intro H. unfold pushVideoTimeToImu.
  destruct (video w); [|exact H].
  destruct (suppressVideoToImu w); [exact H|].
  destruct (negb (canFollow w)); [exact H|].
  match goal with
  | |- CursorOk (withSuppressImuToVideo (setImuCursorX ?n ?w1) _) =>
      apply (CursorOk_ext (setImuCursorX n w1)); [reflexivity | reflexivity |];
      apply setImuCursorX_ok; apply (CursorOk_ext w); [reflexivity | reflexivity | exact H]
  end.
Qed.

Lemma setFollowVideoMode_ok b w : CursorOk w -> CursorOk (setFollowVideoMode b w).
Proof.
  intro H. unfold setFollowVideoMode.
  match goal with
  | |- CursorOk (if canFollow ?w2 then _ else _) =>
      assert (H2 : CursorOk w2)
        by (apply (CursorOk_ext w); [reflexivity | reflexivity | exact H]);
      destruct (canFollow w2); [apply pushVideoTimeToImu_ok|]; exact H2
  end.
Qed.

Lemma onTimeSyncChanged_ok w : CursorOk w -> CursorOk (onTimeSyncChanged w).
Proof.
  intro H. unfold onTimeSyncChanged.
  match goal with
  | |- CursorOk (if canFollow ?w2 then _ else _) =>
      assert (H2 : CursorOk w2)
        by (apply (CursorOk_ext w); [reflexivity | reflexivity | exact H]);
      destruct (canFollow w2); [apply pushVideoTimeToImu_ok|]; exact H2
  end.
Qed.

Lemma resetZoomToFullRange_ok w :
  0 <= imuFullRangeMaxX w -> CursorOk (resetZoomToFullRange w).
Proof.
  intro Hfull. unfold CursorOk, resetZoomToFullRange. simpl imuFullRangeMaxX.
  split; [|exact Hfull]. cbn [imuCursor withCursor x minX maxX].
  assert (Hb : 0 <= orZeroQ (imuFullRangeMaxX w)) by (now rewrite orZeroQ_eq).
  pose proof (clamp_within (orZero (Fin (x (imuCursor w)))) _ _ Hb) as [H1 H2].
  split; [exact H1|].
  eapply Qle_trans; [exact H2|]. apply Qeq_le. apply orZeroQ_eq.
Qed.

Lemma setMarkerX_ok v w : CursorOk w -> CursorOk (setMarkerX v w).
Proof.
  intro H. unfold setMarkerX.
  destruct v as [[q| | |]|]; try exact H;
    (apply (CursorOk_ext w); [reflexivity | reflexivity | exact H]).
Qed.

Lemma onTimeframeMarked_ok d1 d2 w :
  CursorOk w -> CursorOk (onTimeframeMarked d1 d2 w).
Proof.
  intro H. apply (CursorOk_ext w); [reflexivity | reflexivity | exact H].
Qed.

Lemma onTimeframeReset_ok w : CursorOk w -> CursorOk (onTimeframeReset w).
Proof.
  intros [_ Hfull]. unfold onTimeframeReset.
  apply resetZoomToFullRange_ok. exact Hfull.
Qed.

Lemma onTimeframeApplied_cursor s e d1 d2 w :
  imuCursor (onTimeframeApplied s e d1 d2 w)
  = mkCursor (clamp (Fin (x (imuCursor w))) (Qmin s e) (Qmax s e))
             (Qmin s e) (Qmax s e)
  /\ imuFullRangeMaxX (onTimeframeApplied s e d1 d2 w) = imuFullRangeMaxX w.
Proof. split; reflexivity. Qed.

Lemma Qmin_le_Qmax (a b : Q) : Qmin a b <= Qmax a b.
Proof.
  apply Qle_trans with a; [apply Q.le_min_l | apply Q.le_max_l].
Qed.

Lemma onTimeframeApplied_ok s e d1 d2 w :
  CursorOk w -> CursorOk (onTimeframeApplied s e d1 d2 w).
Proof.
  intros [_ Hfull]. unfold CursorOk.
  destruct (onTimeframeApplied_cursor s e d1 d2 w) as [-> ->].
  split; [|exact Hfull]. cbn [x minX maxX].
  apply clamp_within. apply Qmin_le_Qmax.
Qed.

Lemma renderImu_ok csv w : CursorOk (renderImu csv w).
Proof.
  unfold CursorOk, renderImu. destruct csv as [[rows timeIdx]|]; simpl.
  - pose proof (normalize_maxT_nonneg rows (Some timeIdx)) as H.
    repeat split; try exact H. apply Qle_refl.
  - repeat split; apply Qle_refl.
Qed.

Lemma handle_ok e w : CursorOk w -> CursorOk (handle e w).
Proof.
  intro H. destruct e; simpl.
  - now apply setImuCursorX_ok.
  - destruct (video w); [|exact H].
    apply pushVideoTimeToImu_ok.
    apply (CursorOk_ext w); [reflexivity | reflexivity | exact H].
  - apply renderImu_ok.
  - unfold markVideo. destruct (video w); [|exact H].
    apply (CursorOk_ext w); [reflexivity | reflexivity | exact H].
  - unfold markImu. now apply setMarkerX_ok.
  - unfold computeOffset.
    destruct (videoMarkerT (state w)); [|exact H].
    destruct (imuMarker w); [|exact H].
    apply onTimeSyncChanged_ok, setFollowVideoMode_ok.
    apply (CursorOk_ext w); [reflexivity | reflexivity | exact H].
  - unfold clearAll.
    apply onTimeSyncChanged_ok, setFollowVideoMode_ok.
    match goal with
    | |- CursorOk (withFollowManualEnabled ?w3 _) =>
        apply (CursorOk_ext w3); [reflexivity | reflexivity |]
    end.
    apply onTimeframeReset_ok, setMarkerX_ok.
    apply (CursorOk_ext w); [reflexivity | reflexivity | exact H].
  - unfold markT1. apply onTimeframeMarked_ok.
    apply (CursorOk_ext w); [reflexivity | reflexivity | exact H].
  - unfold markT2. apply onTimeframeMarked_ok.
    apply (CursorOk_ext w); [reflexivity | reflexivity | exact H].
  - unfold resetT1T2. apply onTimeframeReset_ok.
    apply (CursorOk_ext w); [reflexivity | reflexivity | exact H].
  - unfold applyTimeframe.
    destruct (canApplyTimeframe (state w)); [|exact H].
    destruct (t1 (state w)); [|exact H].
    destruct (t2 (state w)); [|exact H].
    now apply onTimeframeApplied_ok.
  - unfold clickFollow. destruct (followManualEnabled w); [|exact H].
    now apply setFollowVideoMode_ok.
Qed.

Lemma run_ok es : forall w, CursorOk w -> CursorOk (run es w).
Proof.
  induction es as [|e es IH]; intros w H; simpl.
  - exact H.
  - apply IH. now apply handle_ok.
Qed.

Lemma initialWorld_ok video : CursorOk (initialWorld video).
Proof. unfold CursorOk. simpl. repeat split; apply Qle_refl. Qed.

(** C9.  In every state reached from the initial one the cursor lies within
    [[minX, maxX]]; setting the cursor keeps the bounds and clamps the value
    into them; [applyTimeframe], which acts only when T1 and T2 are both set
    and differ, installs [[min(t1,t2), max(t1,t2)]] as the bounds and clamps
    the cursor into them. *)
Theorem imuCursor_stays_within_bounds :
  (forall video es,
      let c := imuCursor (run es (initialWorld video)) in
      minX c <= x c <= maxX c)
  /\ (forall w n,
         let c := imuCursor w in
         let c' := imuCursor (setImuCursorX n w) in
         minX c' = minX c /\ maxX c' = maxX c
         /\ x c' == match orZero n with
                    | Fin v => Qmin (maxX c) (Qmax (minX c) v)
                    | _ => minX c
                    end)
  /\ (forall w a b,
         t1 (state w) = Some a -> t2 (state w) = Some b -> ~ a == b ->
         let c' := imuCursor (applyTimeframe w) in
         minX c' == Qmin a b /\ maxX c' == Qmax a b
         /\ x c' == Qmin (Qmax a b) (Qmax (Qmin a b) (x (imuCursor w)))
         /\ minX c' <= x c' <= maxX c')
  /\ (forall w,
         (t1 (state w) = None \/ t2 (state w) = None
          \/ exists a b, t1 (state w) = Some a /\ t2 (state w) = Some b /\ a == b) ->
         applyTimeframe w = w).
Proof.
  split; [|split; [|split]].
  - intros video es c.
    exact (proj1 (run_ok es _ (initialWorld_ok video))).
  - intros w n c c'. unfold c'.
    destruct (setImuCursorX_cursor n w) as [-> _]. cbn [x minX maxX].
    repeat split. fold c.
    destruct (orZero n); simpl; try apply orZeroQ_eq.
    now rewrite !orZeroQ_eq.
  - intros w a b H1 H2 Hab c'. unfold c', applyTimeframe, canApplyTimeframe.
    rewrite H1, H2.
    destruct (Qeq_bool a b) eqn:E; [apply Qeq_bool_iff in E; contradiction|].
    simpl negb. cbv iota.
    destruct (onTimeframeApplied_cursor (Qmin a b) (Qmax a b) (Some a) (Some b) w)
      as [-> _].
    cbn [x minX maxX].
    assert (Hmin : Qmin (Qmin a b) (Qmax a b) == Qmin a b).
    { apply Q.min_l. apply Qmin_le_Qmax. }
    assert (Hmax : Qmax (Qmin a b) (Qmax a b) == Qmax a b).
    { apply Q.max_r. apply Qmin_le_Qmax. }
    split; [exact Hmin|]. split; [exact Hmax|]. split.
    + simpl. now rewrite Hmin, Hmax.
    + apply clamp_within. apply Qmin_le_Qmax.
  - intros w H. unfold applyTimeframe, canApplyTimeframe.
    destruct H as [-> | [H | (a & b & -> & -> & Hab)]].
    + reflexivity.
    + rewrite H. destruct (t1 (state w)); reflexivity.
    + apply Qeq_bool_iff in Hab. now rewrite Hab.
Qed.

(** C6.  With both markers set, [computeOffset] stores
    [videoMarker - imuMarker] (10.0 s and 7.5 s give 2.5 s) and does nothing
    when a marker is missing; in follow mode a playhead at [t] moves the
    cursor to [t - offset] clamped to the cursor range, and a cursor moved to
    [x] moves the playhead to [x + offset], not below 0. *)
Theorem computeOffset_and_follow_mappings :
  (forall w v m,
      videoMarkerT (state w) = Some v -> imuMarker w = Some m ->
      offset (state (computeOffset w)) = Some (v - m)
      /\ timeSync_offset (computeOffset w) = Some (v - m))
  /\ (forall w,
         videoMarkerT (state w) = None \/ imuMarker w = None ->
         computeOffset w = w)
  /\ (exists o,
         offset (state (run [MarkVideo; MarkImu; ComputeOffset] worldAt_10_75))
         = Some o /\ o == 25 # 10)
  /\ (forall w off t cur,
         video w = Some cur -> followVideo w = true ->
         timeSync_offset w = Some off -> suppressVideoToImu w = false ->
         let c := imuCursor w in
         x (imuCursor (handle (VideoTime t) w))
         == Qmin (maxX c) (Qmax (minX c) (t - off)))
  /\ (forall w off n cur,
         video w = Some cur -> followVideo w = true ->
         timeSync_offset w = Some off -> suppressImuToVideo w = false ->
         let w' := handle (SliderInput n) w in
         video w' = Some (Qmax 0 (x (imuCursor w') + off)))
  /\ x (imuCursor (handle (VideoTime (125 # 10)) worldFollowing)) == 10
  /\ (exists vt, video (handle (SliderInput (Fin 10)) worldFollowing) = Some vt
                 /\ vt == 125 # 10).
Proof.
  repeat match goal with |- _ /\ _ => split end.
  - intros w v m Hv Hm. unfold computeOffset. rewrite Hv, Hm.
    unfold onTimeSyncChanged, setFollowVideoMode, applyMode, canFollow.
    simpl. split; reflexivity.
  - intros w [H | H]; unfold computeOffset; rewrite H.
    + reflexivity.
    + destruct (videoMarkerT (state w)); reflexivity.
  - eexists. split; [vm_compute; reflexivity | reflexivity].
  - intros w off t cur Hv Hf Ho Hs c. simpl. rewrite Hv.
    unfold pushVideoTimeToImu. cbn [video withVideo suppressVideoToImu].
    rewrite Hs. unfold canFollow. cbn [followVideo withVideo timeSync_offset].
    rewrite Hf, Ho. cbn [andb negb].
    match goal with
    | |- x (imuCursor (withSuppressImuToVideo (setImuCursorX ?n ?w1) _)) == _ =>
        change (x (imuCursor (setImuCursorX n w1)) == Qmin (maxX c) (Qmax (minX c) (t - off)));
        destruct (setImuCursorX_cursor n w1) as [-> _]
    end.
    cbn [x imuCursor withSuppressImuToVideo withVideo]. fold c.
    unfold orZero.
    assert (Ht : orZeroQ t - off == t - off) by (now rewrite orZeroQ_eq).
    destruct (Qeq_bool (orZeroQ t - off) 0) eqn:E.
    + apply Qeq_bool_iff in E. apply clamp_fin_eq; try apply orZeroQ_eq.
      now rewrite <- Ht, E.
    + apply clamp_fin_eq; try apply orZeroQ_eq. exact Ht.
  - intros w off n cur Hv Hf Ho Hs w'. unfold w'. simpl.
    unfold setImuCursorX, onImuCursorChanged.
    cbn [video withCursor suppressImuToVideo timeSync_offset].
    unfold canFollow. cbn [followVideo withCursor timeSync_offset].
    rewrite Hv, Hf, Ho, Hs. cbn [andb negb orb]. reflexivity.
  - vm_compute. reflexivity.
  - eexists. split; [vm_compute; reflexivity | vm_compute; reflexivity].
Qed.

End ViewerProperties.

(** ** Sensor fusion *)

Section FusionProperties.
Import Fusion FusionSpec.
Local Open Scope R_scope.

(** *** Sorting and medians *)

Lemma insert_perm v l : Permutation (v :: l) (insert v l).
Proof.
  induction l as [|h l IH]; simpl.
  - apply Permutation_refl.
  - destruct (Rlt_dec v h).
    + apply Permutation_refl.
    + eapply perm_trans; [apply perm_swap|]. now apply perm_skip.
Qed.

Lemma sort_perm l : Permutation l (sort l).
Proof.
  induction l as [|v l IH]; simpl.
  - apply perm_nil.
  - eapply perm_trans; [apply perm_skip; exact IH | apply insert_perm].
Qed.

Lemma insert_sorted v l : Sorted Rle l -> Sorted Rle (insert v l).
Proof.
  induction l as [|h l IH]; simpl; intro Hs.
  - repeat constructor.
  - destruct (Rlt_dec v h) as [Hlt|Hge].
    + constructor; [exact Hs | constructor; lra].
    + inversion Hs as [|? ? Hs' Hhd]; subst.
      constructor; [now apply IH|].
      destruct l as [|h' l]; simpl.
      * constructor. lra.
      * destruct (Rlt_dec v h'); constructor; [lra|].
        inversion Hhd; subst. assumption.
Qed.

Lemma sort_sorted l : Sorted Rle (sort l).
Proof.
  induction l as [|v l IH]; simpl.
  - constructor.
  - now apply insert_sorted.
Qed.

Lemma sort_length l : length (sort l) = length l.
Proof. symmetry. apply Permutation_length, sort_perm. Qed.

Lemma insert_shift b v l :
  insert (v + b) (map (fun u => u + b) l) = map (fun u => u + b) (insert v l).
Proof.
  induction l as [|h l IH]; simpl.
  - reflexivity.
  - destruct (Rlt_dec (v + b) (h + b)), (Rlt_dec v h); try lra.
    + reflexivity.
    + simpl. now rewrite IH.
Qed.

Lemma sort_shift b l :
  sort (map (fun u => u + b) l) = map (fun u => u + b) (sort l).
Proof.
  induction l as [|v l IH]; simpl.
  - reflexivity.
  - rewrite IH. apply insert_shift.
Qed.

Lemma nth_shift b i l :
  (i < length l)%nat ->
  nth i (map (fun u => u + b) l) 0 = nth i l 0 + b.
Proof.
  intro Hi. rewrite (nth_indep _ 0 (0 + b)) by (now rewrite length_map).
  apply (map_nth (fun u => u + b)).
Qed.

Lemma median_shift b l m :
  median l = Some m -> median (map (fun u => u + b) l) = Some (m + b).
Proof.
  unfold median. rewrite sort_shift, length_map.
  destruct (sort l) as [|h t] eqn:E; [discriminate|].
  rewrite <- E. intro H.
  assert (Hlen : (0 < length (sort l))%nat) by (rewrite E; simpl; lia).
  assert (Hmid : (length (sort l) / 2 < length (sort l))%nat)
    by (apply Nat.div_lt; lia).
  destruct (map (fun u => u + b) (sort l)) as [|h' t'] eqn:E'.
  { rewrite E in E'. discriminate. }
  rewrite <- E'.
  remember (length (sort l) / 2)%nat as mid eqn:Emid.
  destruct (Nat.eqb (length (sort l) mod 2) 1).
  - injection H as <-. now rewrite nth_shift.
  - injection H as <-. rewrite !nth_shift by lia. f_equal. lra.
Qed.

Lemma median_some_nonempty l m : median l = Some m -> l <> [].
Proof. intros H ->. discriminate. Qed.

(** Removing the median of a biased signal gives the signal back. *)
Lemma subtractMedian_biased b l :
  median l = Some 0 -> subtractMedian (map (fun u => u + b) l) = l.
Proof.
  intro H. unfold subtractMedian.
  rewrite (median_shift b l 0 H), map_map.
  rewrite <- (map_id l) at 2. apply map_ext. intro u. lra.
Qed.

(** *** Mean magnitude *)

Lemma fold_left_Rplus_scale s l : forall a,
  fold_left Rplus (map (fun v => v * s) l) (a * s) = fold_left Rplus l a * s.
Proof.
  induction l as [|v l IH]; intro a; simpl.
  - reflexivity.
  - rewrite <- IH. f_equal. lra.
Qed.

Lemma mean_scale s l : mean (map (fun v => v * s) l) = mean l * s.
Proof.
  unfold mean. rewrite length_map.
  replace 0 with (0 * s) at 1 by lra.
  rewrite fold_left_Rplus_scale. unfold Rdiv. lra.
Qed.

Lemma nth_scale s i l : nth i (map (fun v => v * s) l) 0 = nth i l 0 * s.
Proof.
  replace 0 with ((fun v => v * s) 0) at 1 by lra.
  apply (map_nth (fun v => v * s)).
Qed.

Lemma magnitudes_scale s a :
  0 <= s ->
  magnitudes (mkAxes (map (fun v => v * s) (x_ a))
                     (map (fun v => v * s) (y_ a))
                     (map (fun v => v * s) (z_ a)))
  = map (fun m => m * s) (magnitudes a).
Proof.
  intro Hs. unfold magnitudes. cbn [x_ y_ z_].
  rewrite length_map, map_map. apply map_ext. intro i.
  rewrite !nth_scale.
  set (u := nth i (x_ a) 0). set (v := nth i (y_ a) 0). set (w := nth i (z_ a) 0).
  replace (u * s * (u * s) + v * s * (v * s) + w * s * (w * s))
    with ((u * u + v * v + w * w) * (s * s)) by ring.
  rewrite sqrt_mult_alt by nra.
  f_equal. apply sqrt_square. exact Hs.
Qed.

Lemma calibrateAccelerometer_mean a :
  mean (magnitudes a) > 0 ->
  mean (magnitudes (calibrateAccelerometer a)) = 1.
Proof.
  intro Hpos. unfold calibrateAccelerometer.
  assert (Hs : accScale a = 1 / mean (magnitudes a)).
  { unfold accScale. destruct (Rgt_dec (mean (magnitudes a)) 0); [reflexivity|contradiction]. }
  rewrite Hs.
  assert (H0 : 0 <= 1 / mean (magnitudes a)).
  { apply Rlt_le. apply Rdiv_lt_0_compat; lra. }
  rewrite magnitudes_scale by exact H0.
  rewrite mean_scale. field. lra.
Qed.

Lemma cutoffFreq_half : cutoffFreq = 1 / 2.
Proof. unfold cutoffFreq. lra. Qed.

Lemma filterInputs_nth rows headers rate i :
  (i < length rows)%nat ->
  exists a,
    nth_error (filterInputs rows headers rate) i = Some a
    /\ a = updateArgsAt (accCalOf rows headers rate)
                        (extractAxisData rows headers gyro)
                        (magCalOf rows headers)
                        (gyroIsDegreesOf (extractAxisData rows headers gyro))
                        (1 / rate) i.
Proof.
  intro Hi. unfold filterInputs. rewrite nth_error_map, nth_error_seq.
  destruct (Nat.ltb_spec i (length rows)); [|lia].
  simpl. eauto.
Qed.

(** *** The high-pass recurrence *)

Lemma highPassLoop_length alpha rest : forall f d,
  length (highPassLoop alpha f d rest) = length rest.
Proof.
  induction rest as [|x rest IH]; intros f d; simpl; [reflexivity|].
  now rewrite IH.
Qed.

Lemma highPassFilter_length data rate cutoff :
  length (highPassFilter data rate cutoff) = Nat.max 1 (length data).
Proof.
  unfold highPassFilter. destruct data as [|d0 rest]; simpl; [reflexivity|].
  now rewrite highPassLoop_length.
Qed.

Lemma highPassLoop_step alpha : forall rest f d i,
  (i < length rest)%nat ->
  nth (S i) (f :: highPassLoop alpha f d rest) 0
  = alpha * (nth i (f :: highPassLoop alpha f d rest) 0
             + nth (S i) (d :: rest) 0 - nth i (d :: rest) 0).
Proof.
  induction rest as [|x rest IH]; intros f d i Hi; simpl in Hi; [lia|].
  destruct i as [|i].
  - reflexivity.
  - cbn [highPassLoop].
    change (nth (S (S i)) (f :: alpha * (f + x - d)
                             :: highPassLoop alpha (alpha * (f + x - d)) x rest) 0)
      with (nth (S i) (alpha * (f + x - d)
                       :: highPassLoop alpha (alpha * (f + x - d)) x rest) 0).
    rewrite (IH (alpha * (f + x - d)) x i) by lia. reflexivity.
Qed.

(** [highPassFilter] computes the first-order high-pass filter. *)
Lemma highPassFilter_HighPassed data rate cutoff :
  HighPassed (highPassAlpha cutoff rate) data (highPassFilter data rate cutoff).
Proof.
  split; [apply highPassFilter_length|]. split; [reflexivity|].
  intros i Hi. unfold highPassFilter.
  destruct data as [|d0 rest]; [simpl in Hi; lia|].
  destruct i as [|i]; [lia|].
  replace (S i - 1)%nat with i by lia.
  apply highPassLoop_step. simpl in Hi. lia.
Qed.

Lemma HighPassed_unique alpha data o1 o2 :
  HighPassed alpha data o1 -> HighPassed alpha data o2 -> o1 = o2.
Proof.
  intros (L1 & Z1 & R1) (L2 & Z2 & R2).
  apply (nth_ext _ _ 0 0); [congruence|].
  assert (H0 : nth 0 o1 0 = nth 0 o2 0).
  { now rewrite (nth_error_nth _ _ _ Z1), (nth_error_nth _ _ _ Z2). }
  assert (H : forall i, (i < length data)%nat -> nth i o1 0 = nth i o2 0).
  { induction i as [|i IH]; intro Hi; [exact H0|].
    rewrite R1, R2 by lia. replace (S i - 1)%nat with i by lia.
    rewrite IH by lia. reflexivity. }
  intros i Hi. rewrite L1 in Hi.
  destruct (Nat.lt_ge_cases i (length data)) as [Hlt|Hge]; [now apply H|].
  assert (i = 0%nat) by lia. subst i. exact H0.
Qed.

(** *** The median *)

Lemma sorted_perm_unique l1 : forall l2,
  Sorted Rle l1 -> Sorted Rle l2 -> Permutation l1 l2 -> l1 = l2.
Proof.
  induction l1 as [|a l1 IH]; intros l2 S1 S2 P.
  - apply Permutation_nil in P. now subst.
  - destruct l2 as [|b l2].
    { apply Permutation_sym, Permutation_nil in P. discriminate. }
    assert (T : Relations_1.Transitive Rle) by (intros x y z; apply Rle_trans).
    pose proof (Sorted_StronglySorted T S1) as SS1.
    pose proof (Sorted_StronglySorted T S2) as SS2.
    inversion SS1 as [|? ? _ F1]; subst. inversion SS2 as [|? ? _ F2]; subst.
    rewrite Forall_forall in F1, F2.
    assert (Hab : a = b).
    { assert (Ha : In a (b :: l2))
        by (apply (Permutation_in _ P); now left).
      assert (Hb : In b (a :: l1))
        by (apply (Permutation_in _ (Permutation_sym P)); now left).
      destruct Ha as [Ha|Ha]; [now symmetry|].
      destruct Hb as [Hb|Hb]; [exact Hb|].
      apply Rle_antisym; [now apply F1 | now apply F2]. }
    subst b. f_equal. apply IH.
    + now inversion S1.
    + now inversion S2.
    + now apply Permutation_cons_inv in P.
Qed.

(** [median] computes the median. *)
Lemma IsMedian_median l m : IsMedian l m <-> median l = Some m.
Proof.
  split.
  - intros (sorted & P & S & Hne & Hodd & Heven).
    assert (E : sort l = sorted).
    { apply sorted_perm_unique; [apply sort_sorted | exact S |].
      eapply perm_trans; [apply Permutation_sym, sort_perm | exact P]. }
    unfold median. rewrite E.
    destruct sorted as [|h t] eqn:Es; [congruence|]. rewrite <- Es in *.
    destruct (Nat.eqb_spec (length sorted mod 2) 1) as [H1|H1].
    + now rewrite (Hodd H1).
    + assert (H0 : (length sorted mod 2 = 0)%nat).
      { pose proof (Nat.mod_upper_bound (length sorted) 2). lia. }
      now rewrite (Heven H0).
  - intro H. exists (sort l).
    split; [apply sort_perm|]. split; [apply sort_sorted|].
    unfold median in H.
    destruct (sort l) as [|h t] eqn:Es; [discriminate|]. rewrite <- Es in *.
    split; [rewrite Es; discriminate|].
    destruct (Nat.eqb_spec (length (sort l) mod 2) 1) as [H1|H1];
      injection H as <-; split; intro H2; try reflexivity; lia.
Qed.

Lemma subtractMedian_IsMedian l m :
  IsMedian l m -> subtractMedian l = map (fun v => v - m) l.
Proof.
  intro H. apply IsMedian_median in H. unfold subtractMedian. now rewrite H.
Qed.

Lemma mean_magnitudes a : mean (magnitudes a) = meanMagnitude a.
Proof.
  unfold mean, magnitudes, meanMagnitude. rewrite length_map, length_seq.
  f_equal. apply fold_symmetric; intros; ring.
Qed.

Lemma calibrateAccelerometer_scaled a :
  meanMagnitude a > 0 ->
  calibrateAccelerometer a = scaledBy (1 / meanMagnitude a) a
  /\ meanMagnitude (calibrateAccelerometer a) = 1.
Proof.
  intro Hpos. rewrite <- !mean_magnitudes in *. split.
  - unfold calibrateAccelerometer, scaledBy, accScale.
    destruct (Rgt_dec (mean (magnitudes a)) 0); [reflexivity|contradiction].
  - now apply calibrateAccelerometer_mean.
Qed.

Lemma calibrateAccelerometer_unscaled a :
  ~ meanMagnitude a > 0 -> calibrateAccelerometer a = scaledBy 1 a.
Proof.
  intro Hpos. rewrite <- mean_magnitudes in Hpos.
  unfold calibrateAccelerometer, scaledBy, accScale.
  destruct (Rgt_dec (mean (magnitudes a)) 0); [contradiction|reflexivity].
Qed.

Lemma removeGravityBias_HighPassed raw rate hp :
  HighPassed (highPassAlpha (1 / 2) rate) (x_ raw) (x_ hp) ->
  HighPassed (highPassAlpha (1 / 2) rate) (y_ raw) (y_ hp) ->
  HighPassed (highPassAlpha (1 / 2) rate) (z_ raw) (z_ hp) ->
  removeGravityBias raw rate = hp.
Proof.
  intros Hx Hy Hz. unfold removeGravityBias. rewrite cutoffFreq_half.
  destruct hp as [hx hy hz]. cbn [x_ y_ z_] in *.
  f_equal; eapply HighPassed_unique; eauto using highPassFilter_HighPassed.
Qed.

Lemma calibrateMagnetometer_biased s bx by_ bz :
  IsMedian (x_ s) 0 -> IsMedian (y_ s) 0 -> IsMedian (z_ s) 0 ->
  calibrateMagnetometer (biasedBy bx by_ bz s) = s.
Proof.
  intros Hx Hy Hz. apply IsMedian_median in Hx, Hy, Hz.
  destruct s as [sx sy sz]. unfold calibrateMagnetometer, biasedBy.
  cbn [x_ y_ z_] in *. now rewrite !subtractMedian_biased.
Qed.

(** C5, amended.  In [process] the accelerometer axes first go through the
    first-order high-pass filter with the cutoff 0.5 Hz (factor
    [RC / (RC + dt)], [RC = 1 / (2 pi 0.5)], [dt = 1 / sampleRate]), and the
    filtered stream is then multiplied by [1 / m], [m] being its mean
    per-sample magnitude, when [m] is positive, and left as it is otherwise;
    [calibrateAccelerometer] does so with every stream of three axes of one
    length.  In exact arithmetic the mean magnitude of the result is then 1.
    The magnetometer calibration subtracts from each axis its median (the
    middle element in ascending order, or the mean of the two middle ones);
    in exact arithmetic a zero-median signal with a constant bias added
    comes back as the signal itself, of median 0 on every axis.  The filter
    is fed the calibrated values. *)
Theorem calibration_normalises_mean_and_median :
  (forall rows headers rate hp,
      let raw := extractAxisData rows headers acc in
      let cal := accCalOf rows headers rate in
      HighPassed (highPassAlpha (1 / 2) rate) (x_ raw) (x_ hp) ->
      HighPassed (highPassAlpha (1 / 2) rate) (y_ raw) (y_ hp) ->
      HighPassed (highPassAlpha (1 / 2) rate) (z_ raw) (z_ hp) ->
      (meanMagnitude hp > 0 ->
       cal = scaledBy (1 / meanMagnitude hp) hp /\ meanMagnitude cal = 1)
      /\ (~ meanMagnitude hp > 0 -> cal = scaledBy 1 hp))
  /\ (forall a,
         length (y_ a) = length (x_ a) -> length (z_ a) = length (x_ a) ->
         (meanMagnitude a > 0 ->
          calibrateAccelerometer a = scaledBy (1 / meanMagnitude a) a
          /\ meanMagnitude (calibrateAccelerometer a) = 1)
         /\ (~ meanMagnitude a > 0 -> calibrateAccelerometer a = scaledBy 1 a))
  /\ (forall d bx by_ bz,
         IsMedian (x_ d) bx -> IsMedian (y_ d) by_ -> IsMedian (z_ d) bz ->
         calibrateMagnetometer d = biasedBy (- bx) (- by_) (- bz) d)
  /\ (forall s bx by_ bz,
         IsMedian (x_ s) 0 -> IsMedian (y_ s) 0 -> IsMedian (z_ s) 0 ->
         let cal := calibrateMagnetometer (biasedBy bx by_ bz s) in
         cal = s
         /\ IsMedian (x_ cal) 0 /\ IsMedian (y_ cal) 0 /\ IsMedian (z_ cal) 0)
  /\ (forall rows headers rate i,
         (i < length rows)%nat ->
         exists a,
           nth_error (filterInputs rows headers rate) i = Some a
           /\ ax a = nth i (x_ (accCalOf rows headers rate)) 0
           /\ ay a = nth i (y_ (accCalOf rows headers rate)) 0
           /\ az a = nth i (z_ (accCalOf rows headers rate)) 0
           /\ mx a = nth i (x_ (magCalOf rows headers)) 0
           /\ my a = nth i (y_ (magCalOf rows headers)) 0
           /\ mz a = nth i (z_ (magCalOf rows headers)) 0).
Proof.
  split; [|split; [|split; [|split]]].
  - intros rows headers rate hp raw cal Hx Hy Hz.
    assert (Hcal : cal = calibrateAccelerometer hp).
    { unfold cal, accCalOf. fold raw.
      now rewrite (removeGravityBias_HighPassed raw rate hp Hx Hy Hz). }
    rewrite Hcal. split.
    + apply calibrateAccelerometer_scaled.
    + apply calibrateAccelerometer_unscaled.
  - intros a _ _. split.
    + apply calibrateAccelerometer_scaled.
    + apply calibrateAccelerometer_unscaled.
  - intros d bx by_ bz Hx Hy Hz.
    unfold calibrateMagnetometer, biasedBy.
    rewrite (subtractMedian_IsMedian _ _ Hx), (subtractMedian_IsMedian _ _ Hy),
      (subtractMedian_IsMedian _ _ Hz).
    f_equal; apply map_ext; intro v; lra.
  - intros s bx by_ bz Hx Hy Hz cal.
    assert (Hcal : cal = s) by (now apply calibrateMagnetometer_biased).
    rewrite Hcal. auto.
  - intros rows headers rate i Hi.
    destruct (filterInputs_nth rows headers rate i Hi) as (a & Ha & Hax).
    exists a. split; [exact Ha|]. rewrite Hax. repeat split.
Qed.

Lemma IsMedian_m1_0_2 : IsMedian [-1; 0; 2] 0.
Proof.
  exists [-1; 0; 2]. split; [apply Permutation_refl|]. split.
  - repeat constructor; lra.
  - split; [discriminate|]. split; intro H; [reflexivity | discriminate H].
Qed.

(** The statement at work: a two-row recording whose accelerometer x axis
    steps from 0 to 1 at 100 Hz, the one-sample stream (3, 4, 0), and the
    signal -1, 0, 2 with the biases 5, 6 and 7. *)
Lemma calibration_normalises_mean_and_median_witness :
  (let alpha := highPassAlpha (1 / 2) 100 in
   let hp := mkAxes [0; alpha * (0 + 1 - 0)] [0; alpha * (0 + 0 - 0)]
                    [0; alpha * (0 + 0 - 0)] in
   accCalOf twoRows nineDofHeaders 100 = scaledBy (1 / meanMagnitude hp) hp
   /\ meanMagnitude (accCalOf twoRows nineDofHeaders 100) = 1)
  /\ (calibrateAccelerometer (mkAxes [3] [4] [0])
      = scaledBy (1 / meanMagnitude (mkAxes [3] [4] [0])) (mkAxes [3] [4] [0])
      /\ meanMagnitude (calibrateAccelerometer (mkAxes [3] [4] [0])) = 1)
  /\ (let s := mkAxes [-1; 0; 2] [-1; 0; 2] [-1; 0; 2] in
      calibrateMagnetometer (biasedBy 5 6 7 s) = s
      /\ IsMedian (x_ (calibrateMagnetometer (biasedBy 5 6 7 s))) 0
      /\ IsMedian (y_ (calibrateMagnetometer (biasedBy 5 6 7 s))) 0
      /\ IsMedian (z_ (calibrateMagnetometer (biasedBy 5 6 7 s))) 0).
Proof.
  destruct calibration_normalises_mean_and_median as (H1 & H2 & _ & H4 & _).
  split; [|split].
  - intros alpha hp.
    assert (Hk : findAxisKeys nineDofHeaders acc
                 = mkKeys (Some 1%nat) (Some 2%nat) (Some 3%nat))
      by (vm_compute; reflexivity).
    assert (Hraw : extractAxisData twoRows nineDofHeaders acc
                   = mkAxes [0; 1] [0; 0] [0; 0]).
    { unfold extractAxisData. rewrite Hk. reflexivity. }
    assert (Hhp : forall d, HighPassed alpha [0; d] [0; alpha * (0 + d - 0)]).
    { intro d. split; [reflexivity|]. split; [reflexivity|].
      intros i Hi. simpl in Hi. assert (i = 1%nat) by lia. subst i. reflexivity. }
    apply (H1 twoRows nineDofHeaders 100 hp);
      try (rewrite Hraw; apply Hhp).
    assert (Halpha : 0 < alpha).
    { pose proof PI_RGT_0 as Hpi. unfold alpha, highPassAlpha.
      assert (Hrc : 0 < 1 / (1 / 2 * 2 * PI)) by (apply Rdiv_lt_0_compat; lra).
      apply Rdiv_lt_0_compat; lra. }
    unfold meanMagnitude, hp. cbn [x_ y_ z_ length seq map nth fold_right INR].
    replace (0 * 0 + 0 * 0 + 0 * 0) with 0 by lra. rewrite sqrt_0.
    assert (Hs : 0 < sqrt (alpha * (0 + 1 - 0) * (alpha * (0 + 1 - 0))
                           + alpha * (0 + 0 - 0) * (alpha * (0 + 0 - 0))
                           + alpha * (0 + 0 - 0) * (alpha * (0 + 0 - 0)))).
    { apply sqrt_lt_R0. nra. }
    apply Rdiv_lt_0_compat; lra.
  - apply (H2 (mkAxes [3] [4] [0]) eq_refl eq_refl).
    unfold meanMagnitude. cbn [x_ y_ z_ length seq map nth fold_right INR].
    replace (3 * 3 + 4 * 4 + 0 * 0) with (5 * 5) by lra.
    rewrite sqrt_square by lra. lra.
  - intro s. apply (H4 s 5 6 7); apply IsMedian_m1_0_2.
Defined.


(** *** Header matching *)

Lemma indexOf_nth_error l s : forall i,
  indexOf l s = Some i -> nth_error l i = Some s.
Proof.
  induction l as [|h l IH]; simpl; intros i H.
  - discriminate.
  - destruct (String.eqb h s) eqn:E.
    + injection H as <-. apply String.eqb_eq in E. now subst.
    + destruct (indexOf l s) as [j|]; [|discriminate].
      injection H as <-. simpl. now apply IH.
Qed.

Lemma findIndexIn_located nh cs idx :
  findIndexIn nh cs = Some idx ->
  exists c, In c cs /\ nth_error nh idx = Some (normalize c).
Proof.
  induction cs as [|c cs IH]; simpl; intro H.
  - discriminate.
  - destruct (indexOf nh (normalize c)) as [i|] eqn:E.
    + injection H as <-. exists c. split; [now left|].
      now apply indexOf_nth_error.
    + destruct (IH H) as (c' & Hin & Hnth). exists c'. split; [now right|exact Hnth].
Qed.

Lemma hasAxisData_located headers sensor :
  hasAxisData headers sensor = true ->
  forall axis, exists c idx,
    In c (candidates sensor axis)
    /\ nth_error (map normalize headers) idx = Some (normalize c).
Proof.
  unfold hasAxisData, findAxisKeys. cbn [key_x key_y key_z].
  intros H axis.
  apply andb_true_iff in H. destruct H as [H Hz].
  apply andb_true_iff in H. destruct H as [Hx Hy].
  destruct axis.
  - destruct (findIndexIn _ (candidates sensor AxisX)) as [i|] eqn:E; [|discriminate].
    destruct (findIndexIn_located _ _ _ E) as (c & Hc & Hn). eauto.
  - destruct (findIndexIn _ (candidates sensor AxisY)) as [i|] eqn:E; [|discriminate].
    destruct (findIndexIn_located _ _ _ E) as (c & Hc & Hn). eauto.
  - destruct (findIndexIn _ (candidates sensor AxisZ)) as [i|] eqn:E; [|discriminate].
    destruct (findIndexIn_located _ _ _ E) as (c & Hc & Hn). eauto.
Qed.

Lemma process_ok_inv lib o r :
  process lib o = Ok r ->
  opt_rows o <> []
  /\ hasAxisData (opt_headers o) acc = true
  /\ hasAxisData (opt_headers o) gyro = true
  /\ hasAxisData (opt_headers o) mag = true
  /\ exists f,
       createFilter lib (orDefault (opt_algorithm o) "madgwick"%string)
                    (orDefault (opt_sampleRate o) 100)
                    (orDefault (opt_beta o) (1 / 10)) = Ok f
       /\ r = mkFusionResult
                (opt_timeSeconds o)
                (map orientationOf
                     (runFilter f (finit f)
                        (filterInputs (opt_rows o) (opt_headers o)
                                      (orDefault (opt_sampleRate o) 100))))
                (orDefault (opt_algorithm o) "madgwick"%string)
                (orDefault (opt_sampleRate o) 100).
Proof.
  unfold process. intro H.
  destruct (opt_rows o) as [|r0 rest] eqn:Erows; [discriminate|].
  destruct (hasAxisData (opt_headers o) acc) eqn:Ea; simpl in H; [|discriminate].
  destruct (hasAxisData (opt_headers o) gyro) eqn:Eg; simpl in H; [|discriminate].
  destruct (hasAxisData (opt_headers o) mag) eqn:Em; simpl in H; [|discriminate].
  split; [discriminate|]. repeat split.
  destruct (createFilter lib _ _ _) as [f|msg] eqn:Ef; simpl in H; [|discriminate].
  exists f. split; [reflexivity|]. now injection H as <-.
Qed.

(** *** Header matching ignores case *)

Lemma toLowerChar_toUpperChar c : toLowerChar (toUpperChar c) = toLowerChar c.
Proof. destruct c as [[] [] [] [] [] [] [] []]; reflexivity. Qed.

Lemma isSpace_toUpperChar c : isSpace (toUpperChar c) = isSpace c.
Proof. destruct c as [[] [] [] [] [] [] [] []]; reflexivity. Qed.

Lemma dropWhile_map (p : ascii -> bool) (f : ascii -> ascii) l :
  (forall c, p (f c) = p c) ->
  dropWhile p (map f l) = map f (dropWhile p l).
Proof.
  intro H. induction l as [|c l IH]; simpl; [reflexivity|].
  rewrite H. destruct (p c); [exact IH | reflexivity].
Qed.

Lemma trim_map_upper l : trim (map toUpperChar l) = map toUpperChar (trim l).
Proof.
  unfold trim, dropWhileEnd.
  rewrite (dropWhile_map isSpace toUpperChar) by apply isSpace_toUpperChar.
  rewrite <- map_rev.
  rewrite (dropWhile_map isSpace toUpperChar) by apply isSpace_toUpperChar.
  now rewrite map_rev.
Qed.

Lemma list_ascii_of_uppercase s :
  list_ascii_of_string (uppercase s) = map toUpperChar (list_ascii_of_string s).
Proof.
  induction s as [|c s IH]; simpl; [reflexivity|]. now rewrite IH.
Qed.

(** A header and its upper-case spelling normalize to the same name. *)
Lemma normalize_uppercase s : normalize (uppercase s) = normalize s.
Proof.
  unfold normalize. rewrite list_ascii_of_uppercase, trim_map_upper, map_map.
  f_equal. f_equal. f_equal. apply map_ext. apply toLowerChar_toUpperChar.
Qed.

(** C7.  [process] throws when one of the nine axis columns cannot be found
    among the normalized headers, when the AHRS library is not loaded and
    when the algorithm is unknown; whenever it returns a result, every axis
    of every sensor was matched by one of its candidate names.  Header
    matching ignores case and separators. *)
Theorem process_fails_without_9dof_or_filter :
  (forall lib o,
      hasAxisData (opt_headers o) acc = false
      \/ hasAxisData (opt_headers o) gyro = false
      \/ hasAxisData (opt_headers o) mag = false ->
      process lib o
      = Throw (match opt_rows o with
               | [] => "No IMU data to process"
               | _ => "9-DOF data required (acc + gyro + mag)"
               end))
  /\ (forall lib o r,
         process lib o = Ok r ->
         forall sensor axis, exists c idx,
           In c (candidates sensor axis)
           /\ nth_error (map normalize (opt_headers o)) idx = Some (normalize c))
  /\ (forall lib o,
         Madgwick lib = None ->
         (exists msg, process lib o = Throw msg)
         /\ (opt_rows o <> [] ->
             hasAxisData (opt_headers o) acc = true ->
             hasAxisData (opt_headers o) gyro = true ->
             hasAxisData (opt_headers o) mag = true ->
             process lib o
             = Throw "AHRS library not loaded. Add ahrs_min.js to your project"))
  /\ (forall lib o algo,
         opt_algorithm o = Some algo ->
         algo <> "madgwick"%string -> algo <> "mahony"%string ->
         algo <> "complementary"%string ->
         (exists msg, process lib o = Throw msg)
         /\ (opt_rows o <> [] ->
             hasAxisData (opt_headers o) acc = true ->
             hasAxisData (opt_headers o) gyro = true ->
             hasAxisData (opt_headers o) mag = true ->
             Madgwick lib <> None ->
             process lib o = Throw ("Unknown algorithm: " ++ algo)))
  /\ (forall s, normalize (uppercase s) = normalize s)
  /\ (normalize "Acc-X" = "acc_x"%string
      /\ normalize "  ACCEL X " = "accel_x"%string
      /\ normalize "Gyro.Z" = "gyro_z"%string
      /\ hasAxisData ["Time"; " AX "; "Acc-Y"; "accelerometer__z"]%string acc = true
      /\ hasAxisData ["time"; "ax"; "ay"]%string acc = false).
Proof.
  split; [|split; [|split; [|split; [|split]]]].
  - intros lib o H. unfold process.
    destruct (opt_rows o); [reflexivity|].
    destruct H as [H | [H | H]]; rewrite H; simpl;
      rewrite ?andb_false_r; reflexivity.
  - intros lib o r H sensor axis.
    destruct (process_ok_inv lib o r H) as (_ & Ha & Hg & Hm & _).
    destruct sensor; now apply hasAxisData_located.
  - intros lib o Hlib.
    assert (Hcf : forall a r b, createFilter lib a r b
              = Throw "AHRS library not loaded. Add ahrs_min.js to your project").
    { intros. unfold createFilter. now rewrite Hlib. }
    split.
    + unfold process. destruct (opt_rows o); [eauto|].
      destruct (negb _); [eauto|]. rewrite Hcf. simpl. eauto.
    + intros Hrows Ha Hg Hm. unfold process.
      destruct (opt_rows o); [congruence|].
      rewrite Ha, Hg, Hm, Hcf. reflexivity.
  - intros lib o algo Halgo H1 H2 H3.
    assert (Hcf : forall r b, exists msg, createFilter lib algo r b = Throw msg
               /\ (Madgwick lib <> None -> msg = ("Unknown algorithm: " ++ algo)%string)).
    { intros. unfold createFilter.
      destruct (Madgwick lib); [|eexists; split; [reflexivity|congruence]].
      apply String.eqb_neq in H1, H2, H3. rewrite H1, H2, H3.
      eexists; split; reflexivity. }
    split.
    + unfold process. destruct (opt_rows o); [eauto|].
      destruct (negb _); [eauto|]. rewrite Halgo. simpl orDefault.
      destruct (Hcf (orDefault (opt_sampleRate o) 100)
                    (orDefault (opt_beta o) (1 / 10))) as (msg & -> & _).
      simpl. eauto.
    + intros Hrows Ha Hg Hm Hlib. unfold process.
      destruct (opt_rows o); [congruence|].
      rewrite Ha, Hg, Hm, Halgo. simpl orDefault.
      destruct (Hcf (orDefault (opt_sampleRate o) 100)
                    (orDefault (opt_beta o) (1 / 10))) as (msg & -> & Hmsg).
      simpl. now rewrite (Hmsg Hlib).
  - exact normalize_uppercase.
  - repeat split; vm_compute; reflexivity.
Qed.

(** *** Sample-rate estimation *)

Lemma flat_map_filter (f : nat -> R) (l : list nat) :
  flat_map (fun i => if Rgt_dec (f i) 0 then [f i] else []) l
  = filter isPositive (map f l).
Proof.
  induction l as [|i l IH]; simpl; [reflexivity|].
  unfold isPositive at 1. destruct (Rgt_dec (f i) 0); simpl; now rewrite IH.
Qed.

Lemma consecutiveDeltas_nth (l : list R) :
  consecutiveDeltas l
  = map (fun i => nth i l 0 - nth (i - 1) l 0) (seq 1 (length l - 1)).
Proof.
  induction l as [|a tl IH]; [reflexivity|].
  destruct tl as [|b tl']; [reflexivity|].
  change (consecutiveDeltas (a :: b :: tl'))
    with ((b - a) :: consecutiveDeltas (b :: tl')).
  rewrite IH.
  replace (length (a :: b :: tl') - 1)%nat with (S (length (b :: tl') - 1))
    by (simpl; lia).
  rewrite <- cons_seq. cbn [map]. f_equal.
  rewrite <- (seq_shift _ 1), map_map. apply map_ext_in.
  intros i Hi. apply in_seq in Hi.
  destruct i as [|i]; [lia|].
  replace (S (S i) - 1)%nat with (S i) by lia.
  replace (S i - 1)%nat with i by lia.
  reflexivity.
Qed.

Lemma collectDts_spec (ts : list R) : collectDts ts = positiveTimeDeltas ts.
Proof.
  unfold collectDts, positiveTimeDeltas.
  rewrite (flat_map_filter (fun i => nth i ts 0 - nth (i - 1) ts 0)).
  rewrite consecutiveDeltas_nth, length_firstn. f_equal.
  replace (Nat.min 201 (length ts) - 1)%nat with (Nat.min (length ts - 1) 200)
    by lia.
  apply map_ext_in. intros i Hi. apply in_seq in Hi.
  rewrite !nth_firstn.
  destruct (Nat.ltb_spec i 201); [|lia].
  destruct (Nat.ltb_spec (i - 1) 201); [|lia].
  reflexivity.
Qed.

Lemma medianDtOf_median (ds : list R) : medianDtOf ds = median ds.
Proof. reflexivity. Qed.

Lemma positiveDeltas_positive ts d : In d (positiveTimeDeltas ts) -> d > 0.
Proof.
  unfold positiveTimeDeltas. intro H. apply filter_In in H. destruct H as [_ H].
  unfold isPositive in H. destruct (Rgt_dec d 0); [assumption|discriminate].
Qed.

Lemma median_positive (l : list R) m :
  (forall d, In d l -> d > 0) -> median l = Some m -> m > 0.
Proof.
  intros Hall. unfold median.
  destruct (sort l) as [|h t] eqn:E; [discriminate|].
  rewrite <- E.
  assert (Hlen : (0 < length (sort l))%nat) by (rewrite E; simpl; lia).
  assert (Hmid : (length (sort l) / 2 < length (sort l))%nat)
    by (apply Nat.div_lt; lia).
  assert (Hnth : forall i, (i < length (sort l))%nat -> nth i (sort l) 0 > 0).
  { intros i Hi. apply Hall.
    apply (Permutation_in _ (Permutation_sym (sort_perm l))).
    now apply nth_In. }
  remember (length (sort l) / 2)%nat as mid.
  destruct (Nat.eqb (length (sort l) mod 2) 1); intro H; injection H as <-.
  - now apply Hnth.
  - pose proof (Hnth mid Hmid). pose proof (Hnth (mid - 1)%nat ltac:(lia)). lra.
Qed.

Lemma filterInputs_dt rows headers rate :
  length (filterInputs rows headers rate) = length rows
  /\ Forall (fun a => dt a = 1 / rate) (filterInputs rows headers rate).
Proof.
  unfold filterInputs. split.
  - now rewrite length_map, length_seq.
  - apply Forall_forall. intros a Ha. apply in_map_iff in Ha.
    destruct Ha as (i & <- & _). reflexivity.
Qed.

(** The quaternion read after the update of sample [i] is that of the state
    reached by the updates with the inputs 0 to [i], in this order. *)
Lemma runFilter_nth f : forall inputs st i,
  (i < length inputs)%nat ->
  nth_error (runFilter f st inputs) i
  = Some (getQuaternion f (fold_left (update f) (firstn (S i) inputs) st)).
Proof.
  induction inputs as [|a rest IH]; intros st i Hi; simpl in Hi; [lia|].
  destruct i as [|i].
  - reflexivity.
  - cbn [runFilter nth_error]. rewrite IH by lia. reflexivity.
Qed.

Lemma runFilter_length f inputs : forall st,
  length (runFilter f st inputs) = length inputs.
Proof.
  induction inputs as [|a rest IH]; intro st; simpl; [reflexivity|].
  now rewrite IH.
Qed.


Lemma fold_left_snoc (calls : list UpdateArgs) : forall st,
  fold_left (fun s a => s ++ [a]) calls st = st ++ calls.
Proof.
  induction calls as [|a rest IH]; intro st; simpl.
  - now rewrite app_nil_r.
  - rewrite IH, <- app_assoc. reflexivity.
Qed.

Lemma median_0_1_2 : median (positiveTimeDeltas [0; 1; 2]) = Some 1.
Proof.
  assert (Hd : positiveTimeDeltas [0; 1; 2] = [1 - 0; 2 - 1]).
  { unfold positiveTimeDeltas. cbn [firstn consecutiveDeltas filter].
    unfold isPositive.
    destruct (Rgt_dec (1 - 0) 0); [|lra].
    destruct (Rgt_dec (2 - 1) 0); [|lra]. reflexivity. }
  assert (Hs : sort [1 - 0; 2 - 1] = [2 - 1; 1 - 0]).
  { cbn [sort insert]. destruct (Rlt_dec (1 - 0) (2 - 1)); [lra|]. reflexivity. }
  rewrite Hd. unfold median. rewrite Hs. cbn. f_equal. lra.
Qed.


(** *** Instances *)

(** [process] does return a result on a one-row stream with the nine
    columns, here with the default rate of 100 Hz. *)
Example process_instance :
  exists r,
    process countingLibrary
            (mkOptions [[0; 0; 0; 1; 0; 0; 0; 1; 0; 0]] nineDofHeaders
                       (Some [0]) None None None) = Ok r
    /\ sampleRate r = 100
    /\ length (orientations r) = 1%nat.
Proof.
  unfold process. cbn [opt_rows opt_headers opt_sampleRate opt_algorithm opt_beta
                       opt_timeSeconds orDefault].
  assert (Ha : hasAxisData nineDofHeaders acc = true) by (vm_compute; reflexivity).
  assert (Hg : hasAxisData nineDofHeaders gyro = true) by (vm_compute; reflexivity).
  assert (Hm : hasAxisData nineDofHeaders mag = true) by (vm_compute; reflexivity).
  rewrite Ha, Hg, Hm. cbn [andb negb].
  unfold createFilter, countingLibrary. cbn [Madgwick String.eqb Ascii.eqb Bool.eqb bind].
  eexists. split; [reflexivity|]. split; [reflexivity|].
  cbn [orientations]. rewrite length_map.
  unfold filterInputs. cbn [length seq map runFilter]. reflexivity.
Qed.

(** Three time stamps one second apart give an estimated rate of 1 Hz. *)
Example estimateSampleRate_instance :
  median (positiveTimeDeltas [0; 1; 2]) = Some 1
  /\ estimateSampleRate None (Some [0; 1; 2]) = Some (1 / 1).
Proof.
  assert (Hd : positiveTimeDeltas [0; 1; 2] = [1 - 0; 2 - 1]).
  { unfold positiveTimeDeltas. cbn [firstn consecutiveDeltas filter].
    unfold isPositive.
    destruct (Rgt_dec (1 - 0) 0); [|lra].
    destruct (Rgt_dec (2 - 1) 0); [|lra]. reflexivity. }
  assert (Hs : sort [1 - 0; 2 - 1] = [2 - 1; 1 - 0]).
  { cbn [sort insert]. destruct (Rlt_dec (1 - 0) (2 - 1)); [lra|]. reflexivity. }
  assert (Hm : median (positiveTimeDeltas [0; 1; 2]) = Some 1).
  { rewrite Hd. unfold median. rewrite Hs. cbn. f_equal. lra. }
  split; [exact Hm|].
  unfold estimateSampleRate. cbn [length Nat.ltb Nat.leb].
  change (medianDtOf (collectDts [0; 1; 2])) with (median (collectDts [0; 1; 2])).
  rewrite collectDts_spec, Hm.
  destruct (Rgt_dec 1 0); [reflexivity|lra].
Qed.

(** A two-row recording whose accelerometer x axis steps from 0 to 1 has a
    positive mean magnitude after the high-pass filter. *)
Example accelerometer_instance :
  let raw := extractAxisData twoRows nineDofHeaders acc in
  mean (magnitudes (mkAxes (highPassFilter (x_ raw) 100 (1 / 2))
                           (highPassFilter (y_ raw) 100 (1 / 2))
                           (highPassFilter (z_ raw) 100 (1 / 2)))) > 0.
Proof.
  assert (Hk : findAxisKeys nineDofHeaders acc
               = mkKeys (Some 1%nat) (Some 2%nat) (Some 3%nat))
    by (vm_compute; reflexivity).
  unfold extractAxisData. rewrite Hk. unfold twoRows.
  cbn [map cell nth key_x key_y key_z x_ y_ z_].
  unfold highPassFilter. cbn [highPassLoop].
  set (alpha := 1 / (1 / 2 * 2 * PI) / (1 / (1 / 2 * 2 * PI) + 1 / 100)).
  assert (Halpha : 0 < alpha).
  { pose proof PI_RGT_0 as Hpi. unfold alpha.
    assert (Hrc : 0 < 1 / (1 / 2 * 2 * PI)).
    { apply Rdiv_lt_0_compat; lra. }
    apply Rdiv_lt_0_compat; lra. }
  unfold mean, magnitudes. cbn [x_ y_ z_ length seq map nth fold_left INR].
  replace (0 * 0 + 0 * 0 + 0 * 0) with 0 by lra. rewrite sqrt_0.
  assert (Hs : 0 < sqrt (alpha * (0 + 1 - 0) * (alpha * (0 + 1 - 0))
                         + alpha * (0 + 0 - 0) * (alpha * (0 + 0 - 0))
                         + alpha * (0 + 0 - 0) * (alpha * (0 + 0 - 0)))).
  { apply sqrt_lt_R0. nra. }
  apply Rdiv_lt_0_compat; lra.
Qed.

End FusionProperties.

(** ** Calibration in double precision *)

Section FusionDoubleProperties.
Import PrimFloat FusionDouble.
Local Open Scope float_scope.

(** C5, counterexample.  In the doubles the code computes with, the two
    equalities of the claim can fail in the last place.  The one-sample stream
    (49, 0, 0) has the mean magnitude 49; [calibrateAccelerometer] multiplies
    it by [1 / 49], and the mean magnitude of the result is the double just
    below 1, 0.9999999999999999.  The signal -0.3, 0.3 has the median 0; with
    the bias 0.7 added, [calibrateMagnetometer] returns an axis whose median
    is not 0 (it is about 2.8e-17). *)
Lemma calibration_rounding_counterexample :
  ((0 <? mean (magnitudes oneSample49)) = true
   /\ mean (magnitudes oneSample49) = 49
   /\ calibrateAccelerometer oneSample49 = mkAxes [next_down 1] [0] [0]
   /\ mean (magnitudes (calibrateAccelerometer oneSample49)) = next_down 1
   /\ (mean (magnitudes (calibrateAccelerometer oneSample49)) =? 1) = false)
  /\ (median signal03 = 0
      /\ (median (x_ (calibrateMagnetometer biasedSignal)) =? 0) = false
      /\ (0 <? median (x_ (calibrateMagnetometer biasedSignal))) = true
      /\ (median (y_ (calibrateMagnetometer biasedSignal)) =? 0) = false
      /\ (median (z_ (calibrateMagnetometer biasedSignal)) =? 0) = false).
Proof. repeat split; vm_compute; reflexivity. Qed.

End FusionDoubleProperties.


(** ** Arm-angle analysis *)

Section ArmAngleProperties.
Import Fusion ArmAngle ArmAngleSpec.
Local Open Scope R_scope.

(** *** Relative angle *)

Lemma clamp_one : clamp 1 (-1) 1 = 1.
Proof.
  unfold clamp. rewrite Rmin_left by lra. apply Rmax_right. lra.
Qed.

Lemma clamp_minus_one : clamp (-1) (-1) 1 = -1.
Proof.
  unfold clamp. rewrite Rmin_right by lra. apply Rmax_left. lra.
Qed.

Lemma rad2deg_0 : rad2deg (2 * acos 1) = 0.
Proof. rewrite acos_1. unfold rad2deg. field. apply PI_neq0. Qed.

Lemma acos_minus_one : acos (-1) = PI.
Proof.
  replace (-1) with (Ropp 1) by lra.
  rewrite acos_opp, acos_1. lra.
Qed.

Lemma canonicalize_unit q : isUnit q -> isUnit (Quat.canonicalize q).
Proof.
  destruct q as [[[w x] y] z]. unfold isUnit, Quat.canonicalize.
  destruct (Rlt_dec w 0); intro H; lra.
Qed.

Lemma multiply_conjugate_w q :
  isUnit q -> fst (fst (fst (Quat.multiply q (Quat.conjugate q)))) = 1.
Proof.
  destruct q as [[[w x] y] z]. unfold isUnit. simpl. intro H. lra.
Qed.

Lemma relativeAngleDeg_same_canonical qA qB :
  isUnit qA -> Quat.canonicalize qB = Quat.canonicalize qA ->
  Quat.relativeAngleDeg qA qB = 0.
Proof.
  intros Hu Hc. unfold Quat.relativeAngleDeg. rewrite Hc.
  rewrite multiply_conjugate_w by (now apply canonicalize_unit).
  rewrite clamp_one. apply rad2deg_0.
Qed.

Lemma relativeAngleDeg_self q : isUnit q -> Quat.relativeAngleDeg q q = 0.
Proof. intro H. now apply relativeAngleDeg_same_canonical. Qed.

Lemma canonicalize_negate q :
  fst (fst (fst q)) <> 0 ->
  Quat.canonicalize (negate q) = Quat.canonicalize q.
Proof.
  destruct q as [[[w x] y] z]. simpl. intro Hw.
  destruct (Rlt_dec (- w) 0), (Rlt_dec w 0); try lra.
  - now rewrite !Ropp_involutive.
  - reflexivity.
Qed.

Lemma relativeAngleDeg_negate q :
  isUnit q -> fst (fst (fst q)) <> 0 ->
  Quat.relativeAngleDeg q (negate q) = 0.
Proof.
  intros Hu Hw. apply relativeAngleDeg_same_canonical; [exact Hu|].
  now apply canonicalize_negate.
Qed.

Lemma relativeAngleDeg_negate_pure q :
  isUnit q -> fst (fst (fst q)) = 0 ->
  Quat.relativeAngleDeg q (negate q) = 360.
Proof.
  destruct q as [[[w x] y] z]. unfold isUnit. simpl. intros Hu ->.
  unfold Quat.relativeAngleDeg, Quat.canonicalize.
  destruct (Rlt_dec (- 0) 0); [lra|]. destruct (Rlt_dec 0 0); [lra|].
  cbn [Quat.conjugate Quat.multiply fst].
  replace (- 0 * 0 - - x * - x - - y * - y - - z * - z) with (-1) by lra.
  rewrite clamp_minus_one, acos_minus_one. unfold rad2deg. field.
  apply PI_neq0.
Qed.

(** C4.  For a unit quaternion [q] the angle between [q] and itself is 0,
    and so is the angle between [q] and [-q] when the scalar part of [q] is
    not 0; when the scalar part is 0 neither argument is flipped and the
    angle between [q] and [-q] comes out as 360. *)
Theorem relativeAngleDeg_of_q_and_opposite :
  (forall q, isUnit q -> Quat.relativeAngleDeg q q = 0)
  /\ (forall q, isUnit q -> fst (fst (fst q)) <> 0 ->
                Quat.relativeAngleDeg q (negate q) = 0)
  /\ (forall q, isUnit q -> fst (fst (fst q)) = 0 ->
                Quat.relativeAngleDeg q (negate q) = 360)
  /\ isUnit (0, 1, 0, 0)
  /\ Quat.relativeAngleDeg (0, 1, 0, 0) (negate (0, 1, 0, 0)) = 360
  /\ Quat.relativeAngleDeg (0, 1, 0, 0) (negate (0, 1, 0, 0)) <> 0.
Proof.
  assert (Hu : isUnit (0, 1, 0, 0)) by (unfold isUnit; lra).
  assert (H360 : Quat.relativeAngleDeg (0, 1, 0, 0) (negate (0, 1, 0, 0)) = 360)
    by (now apply relativeAngleDeg_negate_pure).
  repeat split.
  - exact relativeAngleDeg_self.
  - exact relativeAngleDeg_negate.
  - exact relativeAngleDeg_negate_pure.
  - exact Hu.
  - exact H360.
  - rewrite H360. lra.
Qed.

(** *** The analyser *)

Lemma asQuat_wellFormed l : length l = 4%nat -> exists q, asQuat l = Some q.
Proof.
  destruct l as [|a [|b [|c [|d [|? ?]]]]]; simpl; intro H; try discriminate.
  eauto.
Qed.

Lemma quatAt_ok f i who :
  wellFormed f -> (i < length (orientations f))%nat ->
  exists q, quatAt f i who = Ok q /\ quatOf f i = Some q.
Proof.
  intros Hwf Hi. unfold quatAt, quatOf.
  destruct (nth_error (orientations f) i) as [o|] eqn:E.
  - assert (Hin : In o (orientations f)) by (eapply nth_error_In; eauto).
    unfold wellFormed in Hwf. rewrite Forall_forall in Hwf.
    destruct (asQuat_wellFormed _ (Hwf o Hin)) as [q Hq].
    rewrite Hq. eauto.
  - apply nth_error_None in E. lia.
Qed.

Lemma computeAt_ok s e w i :
  wellFormed s -> wellFormed e -> wellFormed w ->
  (i < length (orientations s))%nat -> (i < length (orientations e))%nat ->
  (i < length (orientations w))%nat ->
  exists qs qe qw,
    quatOf s i = Some qs /\ quatOf e i = Some qe /\ quatOf w i = Some qw
    /\ computeAt s e w i
       = Ok (Quat.relativeAngleDeg qs qe, Quat.relativeAngleDeg qe qw,
             shoulderEulerAt s i).
Proof.
  intros Hs He Hw Is Ie Iw. unfold computeAt.
  destruct (quatAt_ok s i "shoulder" Hs Is) as (qs & -> & Hqs).
  destruct (quatAt_ok e i "elbow" He Ie) as (qe & -> & Hqe).
  destruct (quatAt_ok w i "wrist" Hw Iw) as (qw & -> & Hqw).
  exists qs, qe, qw. simpl. auto.
Qed.

Lemma computeLoop_ok s e w (P : nat -> Prop) :
  (forall i, P i -> exists v, computeAt s e w i = Ok v) ->
  forall idxs, Forall P idxs ->
  exists vs, computeLoop s e w idxs = Ok vs
             /\ length vs = length idxs
             /\ forall k i, nth_error idxs k = Some i ->
                  exists v, nth_error vs k = Some v /\ computeAt s e w i = Ok v.
Proof.
  intros Hall idxs. induction idxs as [|i rest IH]; intro HP.
  - exists []. repeat split. intros [|k] i H; discriminate.
  - inversion HP as [|? ? Hi Hrest]; subst.
    destruct (Hall i Hi) as [v Hv].
    destruct (IH Hrest) as (vs & Hvs & Hlen & Hnth).
    exists (v :: vs). simpl. rewrite Hv, Hvs. simpl.
    split; [reflexivity|]. split; [now rewrite Hlen|].
    intros [|k] j Hj; simpl in *.
    + injection Hj as <-. eauto.
    + now apply Hnth.
Qed.

Lemma nth_error_map_some {A B : Type} (f : A -> B) l k v :
  nth_error l k = Some v -> nth_error (map f l) k = Some (f v).
Proof. intro H. rewrite nth_error_map, H. reflexivity. Qed.

Lemma compute_ok s e w ts :
  wellFormed s -> wellFormed e -> wellFormed w ->
  (0 < sampleCount s e w ts)%nat ->
  exists out,
    compute s e w ts = Ok out
    /\ length (a_elbow out) = sampleCount s e w ts
    /\ length (a_wrist out) = sampleCount s e w ts
    /\ a_times out = firstn (sampleCount s e w ts) ts
    /\ forall i, (i < sampleCount s e w ts)%nat ->
         exists qs qe qw,
           quatOf s i = Some qs /\ quatOf e i = Some qe /\ quatOf w i = Some qw
           /\ nth_error (a_elbow out) i = Some (Quat.relativeAngleDeg qs qe)
           /\ nth_error (a_wrist out) i = Some (Quat.relativeAngleDeg qe qw).
Proof.
  intros Hs He Hw Hn. unfold compute.
  set (n := sampleCount s e w ts) in *.
  assert (Hbound : forall i, (i < n)%nat ->
            (i < length (orientations s))%nat /\ (i < length (orientations e))%nat
            /\ (i < length (orientations w))%nat).
  { intros i Hi. unfold n, sampleCount in Hi. lia. }
  destruct (Nat.ltb_spec 0 n) as [_|]; [|lia]. simpl.
  destruct (computeLoop_ok s e w (fun i => (i < n)%nat)) with (idxs := seq 0 n)
    as (vs & Hvs & Hlen & Hnth).
  { intros i Hi. destruct (Hbound i Hi) as (Is & Ie & Iw).
    destruct (computeAt_ok s e w i Hs He Hw Is Ie Iw) as (qs & qe & qw & _ & _ & _ & H).
    eauto. }
  { apply Forall_forall. intros i Hi. apply in_seq in Hi. lia. }
  rewrite Hvs. simpl. eexists. split; [reflexivity|]. cbn [a_elbow a_wrist a_times].
  rewrite length_seq in Hlen.
  split; [now rewrite length_map|]. split; [now rewrite length_map|].
  split; [reflexivity|].
  intros i Hi.
  destruct (Hnth i i) as (v & Hv & Hc).
  { rewrite nth_error_seq. destruct (Nat.ltb_spec i n); [reflexivity|lia]. }
  destruct (Hbound i Hi) as (Is & Ie & Iw).
  destruct (computeAt_ok s e w i Hs He Hw Is Ie Iw)
    as (qs & qe & qw & Hqs & Hqe & Hqw & Hc').
  rewrite Hc' in Hc. injection Hc as <-.
  exists qs, qe, qw. repeat split; try assumption.
  - now rewrite (nth_error_map_some _ _ _ _ Hv).
  - now rewrite (nth_error_map_some _ _ _ _ Hv).
Qed.


Lemma orientationOf_quat q : length (quat (orientationOf q)) = 4%nat.
Proof. destruct q as [[[w x] y] z]. reflexivity. Qed.

Lemma singleResult_wellFormed q : wellFormed (singleResult q).
Proof.
  unfold wellFormed, singleResult. cbn [orientations].
  constructor; [apply orientationOf_quat | constructor].
Qed.


Lemma orientationOf_all_wellFormed (qs : list Quat) :
  Forall (fun o => length (quat o) = 4%nat) (map orientationOf qs).
Proof.
  apply Forall_forall. intros o Ho. apply in_map_iff in Ho.
  destruct Ho as (q & <- & _). apply orientationOf_quat.
Qed.

(** Results of [process] are well formed. *)
Lemma process_wellFormed lib o r : process lib o = Ok r -> wellFormed r.
Proof.
  intro H.
  destruct (process_ok_inv lib o r H) as (_ & _ & _ & _ & f & _ & ->).
  exact (orientationOf_all_wellFormed _).
Qed.

(** C8, counterexample.  For three results without samples [setImuData]
    throws, [calculate] shows the alert and no statistics are produced. *)
Lemma empty_streams_counterexample :
  snd (setImuData newAnalyser (Some emptyResult) (Some emptyResult)
                  (Some emptyResult))
  = Throw "No samples available to compute angles."
  /\ getStatistics (fst (setImuData newAnalyser (Some emptyResult)
                                    (Some emptyResult) (Some emptyResult)))
     = None
  /\ snd (calculate newAnalyser (Some 0%nat) (Some 1%nat) (Some 2%nat)
                    (Some [(0%nat, Some emptyResult); (1%nat, Some emptyResult);
                           (2%nat, Some emptyResult)]))
     = Alert "Failed to calculate arm angles: No samples available to compute angles.".
Proof. repeat split. Qed.

(** C8, amended.  [statsOf] of an empty series is made of four [NaN]s and
    does not throw; the analyser, however, never computes statistics for
    empty streams: when the truncated length is 0, [setImuData] throws
    "No samples available to compute angles." and leaves the stored angles,
    hence the statistics, as they were. *)
Theorem empty_streams_throw_and_statsOf_empty_is_NaN :
  statsOf [] = mkStats NaN NaN NaN NaN
  /\ (forall an s e w ts,
         times s = Some ts -> sampleCount s e w ts = 0%nat ->
         snd (setImuData an (Some s) (Some e) (Some w))
         = Throw "No samples available to compute angles."
         /\ getStatistics (fst (setImuData an (Some s) (Some e) (Some w)))
            = getStatistics an)
  /\ (forall an sIdx eIdx wIdx fusion angles stats,
         snd (calculate an sIdx eIdx wIdx fusion) = Displayed angles stats ->
         a_elbow angles <> [] /\ a_wrist angles <> []
         /\ s_elbow stats = statsOf (a_elbow angles)
         /\ s_wrist stats = statsOf (a_wrist angles)).
Proof.
  split; [reflexivity|]. split.
  - intros an s e w ts Hts Hn. unfold setImuData, compute.
    rewrite Hts, Hn. simpl. split; reflexivity.
  - intros an sIdx eIdx wIdx fusion angles stats H.
    unfold calculate in H.
    destruct (calculateBody an sIdx eIdx wIdx fusion) as [an' [[a [st|]]|m]] eqn:E;
      simpl in H; try discriminate.
    injection H as -> ->.
    unfold calculateBody in E.
    destruct sIdx as [si|]; [|discriminate].
    destruct eIdx as [ei|]; [|discriminate].
    destruct wIdx as [wi|]; [|discriminate].
    destruct (negb (allDistinct si ei wi)); [discriminate|].
    destruct fusion as [[|p store]|]; try discriminate.
    destruct (lookup (p :: store) si) as [s|]; [|discriminate].
    destruct (lookup (p :: store) ei) as [e|]; [|discriminate].
    destruct (lookup (p :: store) wi) as [w|]; [|discriminate].
    unfold setImuData in E.
    destruct (times s) as [ts|]; [|discriminate].
    destruct (compute s e w ts) as [out|] eqn:Ec; [|discriminate].
    injection E as <- <- Hst. subst stats.
    cbn [s_elbow s_wrist].
    unfold compute in Ec.
    destruct (Nat.ltb_spec 0 (sampleCount s e w ts)) as [Hpos|]; [|discriminate].
    simpl in Ec.
    destruct (computeLoop s e w (seq 0 (sampleCount s e w ts))) as [vs|] eqn:El;
      [|discriminate].
    simpl in Ec. injection Ec as <-. cbn [a_elbow a_wrist].
    assert (Hvs : vs <> []).
    { destruct (sampleCount s e w ts) as [|n]; [lia|].
      simpl in El. destruct (computeAt s e w 0); [|discriminate].
      simpl in El. destruct (computeLoop s e w (seq 1 n)); [|discriminate].
      simpl in El. injection El as <-. discriminate. }
    destruct vs; [congruence|]. repeat split; discriminate.
Qed.

(** [calculate] shows what [setImuData] returned, with the statistics of the
    two series, when three different IMUs with stored results are chosen. *)
Lemma calculate_displays an s e w si ei wi store out :
  allDistinct si ei wi = true ->
  lookup store si = Some s -> lookup store ei = Some e ->
  lookup store wi = Some w ->
  snd (setImuData an (Some s) (Some e) (Some w)) = Ok out ->
  snd (calculate an (Some si) (Some ei) (Some wi) (Some store))
  = Displayed out (mkJointStats (statsOf (a_elbow out)) (statsOf (a_wrist out))).
Proof.
  intros Hd Hs He Hw Hout. unfold calculate, calculateBody.
  rewrite Hd. cbn [negb].
  destruct store as [|p store]; [discriminate|].
  rewrite Hs, He, Hw.
  unfold setImuData in *.
  destruct (times s) as [ts|]; [|discriminate].
  destruct (compute s e w ts) as [o|]; [|discriminate].
  simpl in Hout. injection Hout as ->. reflexivity.
Qed.

End ArmAngleProperties.

(** ** Rotations *)

Section RotationProperties.
Import Fusion FusionDisplay ArmAngle ArmAngleSpec RotationSpec.
Local Open Scope R_scope.

Lemma isUnit_normSq q : isUnit q <-> normSq q = 1.
Proof. destruct q as [[[w x] y] z]. reflexivity. Qed.


Lemma relativeAngleDeg_w qA qB :
  fst (fst (fst (Quat.multiply (Quat.canonicalize qB)
                               (Quat.conjugate (Quat.canonicalize qA)))))
  = fst (fst (fst (Quat.multiply (Quat.canonicalize qA)
                                 (Quat.conjugate (Quat.canonicalize qB))))).
Proof.
  destruct (Quat.canonicalize qA) as [[[w1 x1] y1] z1].
  destruct (Quat.canonicalize qB) as [[[w2 x2] y2] z2].
  simpl. ring.
Qed.

(** X2.  The relative angle does not depend on the order of its arguments and
    always lies between 0 and 360 degrees. *)
Theorem relativeAngleDeg_symmetric_and_bounded (qA qB : Quat) :
  Quat.relativeAngleDeg qA qB = Quat.relativeAngleDeg qB qA
  /\ 0 <= Quat.relativeAngleDeg qA qB <= 360.
Proof.
  split.
  - unfold Quat.relativeAngleDeg. now rewrite relativeAngleDeg_w.
  - unfold Quat.relativeAngleDeg, rad2deg.
    set (c := clamp _ (-1) 1).
    pose proof (acos_bound c) as [H0 H1]. pose proof PI_RGT_0 as Hpi.
    split.
    + apply Rmult_le_pos; [|apply Rlt_le, Rinv_0_lt_compat; exact Hpi].
      nra.
    + apply (Rmult_le_reg_r PI); [exact Hpi|].
      unfold Rdiv. rewrite Rmult_assoc, Rinv_l by lra. nra.
Qed.



Lemma rotate_normSq v q :
  normSq3 (rotateVectorByQuaternion v q) = normSq q * normSq q * normSq3 v.
Proof.
  destruct q as [[[w x] y] z]. destruct v as [[a b] c]. simpl. ring.
Qed.



Lemma atan_nonpos u : u <= 0 -> atan u <= 0.
Proof.
  intro H. destruct (Req_dec u 0) as [->|Hne].
  - rewrite atan_0. lra.
  - rewrite <- atan_0. apply Rlt_le, atan_increasing. lra.
Qed.

Lemma atan_pos u : 0 < u -> 0 < atan u.
Proof. intro H. rewrite <- atan_0. now apply atan_increasing. Qed.

Lemma atan2_bound y x : - PI <= atan2 y x <= PI.
Proof.
  pose proof PI_RGT_0 as Hp. unfold atan2.
  destruct (Rlt_dec 0 x).
  - pose proof (atan_bound (y / x)). lra.
  - destruct (Rlt_dec x 0) as [Hx|Hx].
    + assert (Hinv : / x < 0) by (now apply Rinv_lt_0_compat).
      pose proof (atan_bound (y / x)) as Hb.
      destruct (Rle_dec 0 y) as [Hy|Hy].
      * assert (Hq : y / x <= 0) by (unfold Rdiv; nra).
        pose proof (atan_nonpos _ Hq). lra.
      * assert (Hq : 0 < y / x) by (unfold Rdiv; nra).
        pose proof (atan_pos _ Hq). lra.
    + destruct (Rlt_dec 0 y); [lra|]. destruct (Rlt_dec y 0); lra.
Qed.

(** X5.  The Euler angles of any quaternion are in range: pitch between
    -pi/2 and pi/2, roll and yaw between -pi and pi; the identity quaternion
    has roll, pitch and yaw 0. *)
Theorem quaternionToEuler_ranges :
  (forall q,
      let e := quaternionToEuler q in
      - (PI / 2) <= pitch e <= PI / 2
      /\ - PI <= roll e <= PI
      /\ - PI <= yaw e <= PI)
  /\ quaternionToEuler (1, 0, 0, 0) = mkEuler 0 0 0.
Proof.
  pose proof PI_RGT_0 as Hp. split.
  - intros [[[w x] y] z]. cbv zeta. unfold quaternionToEuler.
    cbn [pitch roll yaw]. split; [|split; apply atan2_bound].
    destruct (Rge_dec (Rabs (2 * (w * y - z * x))) 1).
    + unfold sign.
      destruct (Rlt_dec 0 (2 * (w * y - z * x))); [lra|].
      destruct (Rlt_dec (2 * (w * y - z * x)) 0); lra.
    + pose proof (asin_bound (2 * (w * y - z * x))). lra.
  - unfold quaternionToEuler.
    replace (2 * (1 * 0 + 0 * 0)) with 0 by ring.
    replace (1 - 2 * (0 * 0 + 0 * 0)) with 1 by ring.
    replace (2 * (1 * 0 - 0 * 0)) with 0 by ring.
    assert (Ha : atan2 0 1 = 0).
    { unfold atan2. destruct (Rlt_dec 0 1); [|lra].
      unfold Rdiv. rewrite Rmult_0_l. apply atan_0. }
    rewrite Ha.
    destruct (Rge_dec (Rabs 0) 1) as [H|H].
    + rewrite Rabs_R0 in H. lra.
    + now rewrite asin_0.
Qed.

(** *** The closest sample *)

Lemma closestLoop_spec (c : R) (times : list R) : forall rest pre ci md,
  times = pre ++ rest ->
  (ci < length pre)%nat ->
  md = Rabs (nth ci times 0 - c) ->
  (forall j, (j < length pre)%nat -> md <= Rabs (nth j times 0 - c)) ->
  (forall j, (j < ci)%nat -> md < Rabs (nth j times 0 - c)) ->
  let r := closestLoop c rest (length pre) ci md in
  (r < length times)%nat
  /\ (forall j, (j < length times)%nat ->
        Rabs (nth r times 0 - c) <= Rabs (nth j times 0 - c))
  /\ (forall j, (j < r)%nat ->
        Rabs (nth r times 0 - c) < Rabs (nth j times 0 - c)).
Proof.
  induction rest as [|t rest IH]; intros pre ci md Ht Hci Hmd Hall Hbefore.
  - simpl. rewrite app_nil_r in Ht. subst pre.
    split; [exact Hci|]. split.
    + intros j Hj. rewrite <- Hmd. now apply Hall.
    + intros j Hj. rewrite <- Hmd. now apply Hbefore.
  - assert (Ht' : times = (pre ++ [t]) ++ rest) by (now rewrite <- app_assoc).
    assert (Hnth : nth (length pre) times 0 = t).
    { rewrite Ht, app_nth2 by lia. now rewrite Nat.sub_diag. }
    assert (Hlen : length (pre ++ [t]) = S (length pre))
      by (rewrite length_app; simpl; lia).
    simpl. destruct (Rlt_dec (Rabs (t - c)) md) as [Hlt|Hge].
    + specialize (IH (pre ++ [t]) (length pre) (Rabs (t - c)) Ht').
      rewrite Hlen in IH. apply IH.
      * lia.
      * now rewrite Hnth.
      * intros j Hj. destruct (Nat.eq_dec j (length pre)) as [->|Hne].
        -- rewrite Hnth. lra.
        -- specialize (Hall j ltac:(lia)). lra.
      * intros j Hj. specialize (Hall j Hj). lra.
    + specialize (IH (pre ++ [t]) ci md Ht').
      rewrite Hlen in IH. apply IH.
      * lia.
      * exact Hmd.
      * intros j Hj. destruct (Nat.eq_dec j (length pre)) as [->|Hne].
        -- rewrite Hnth. lra.
        -- apply Hall. lia.
      * exact Hbefore.
Qed.



(** *** Statistics *)

Lemma statsStep_finite s a b v :
  statsStep (s, Finite a, Finite b) v
  = (s + v, Finite (if Rlt_dec v a then v else a),
     Finite (if Rlt_dec b v then v else b)).
Proof.
  unfold statsStep, ltNum.
  destruct (Rlt_dec v a), (Rlt_dec b v); reflexivity.
Qed.

Lemma statsFold_spec (l : list R) : forall s a b k,
  INR k * a <= s <= INR k * b ->
  exists s' a' b',
    fold_left statsStep l (s, Finite a, Finite b) = (s', Finite a', Finite b')
    /\ s' = fold_left Rplus l s
    /\ INR (k + length l) * a' <= s' <= INR (k + length l) * b'
    /\ a' <= a /\ b <= b'
    /\ (forall v, In v l -> a' <= v <= b')
    /\ (a' = a \/ In a' l) /\ (b' = b \/ In b' l).
Proof.
  induction l as [|v l IH]; intros s a b k Hs.
  - exists s, a, b. simpl. rewrite Nat.add_0_r.
    split; [reflexivity|]. split; [reflexivity|]. split; [exact Hs|].
    split; [lra|]. split; [lra|]. split; [intros v []|]. split; now left.
  - cbn [fold_left]. rewrite statsStep_finite.
    pose proof (pos_INR k) as Hk.
    assert (HS : INR (S k) = INR k + 1) by apply S_INR.
    set (a1 := if Rlt_dec v a then v else a).
    set (b1 := if Rlt_dec b v then v else b).
    assert (Ha1 : a1 <= a /\ a1 <= v /\ (a1 = a \/ a1 = v)).
    { unfold a1. destruct (Rlt_dec v a); repeat split; try lra; auto. }
    assert (Hb1 : b <= b1 /\ v <= b1 /\ (b1 = b \/ b1 = v)).
    { unfold b1. destruct (Rlt_dec b v); repeat split; try lra; auto. }
    destruct Ha1 as (Ha1 & Ha2 & Ha3). destruct Hb1 as (Hb1 & Hb2 & Hb3).
    destruct (IH (s + v) a1 b1 (S k))
      as (s' & a' & b' & Hf & Hsum & Hbd & Hle & Hge & Hall & Hina & Hinb).
    { rewrite HS. nra. }
    exists s', a', b'.
    replace (k + length (v :: l))%nat with (S k + length l)%nat by (simpl; lia).
    split; [exact Hf|]. split; [exact Hsum|]. split; [exact Hbd|].
    split; [lra|]. split; [lra|]. split.
    + intros u [<-|Hu]; [lra | now apply Hall].
    + split.
      * destruct Hina as [->|H]; [|right; now right].
        destruct Ha3 as [->| ->]; [now left | right; now left].
      * destruct Hinb as [->|H]; [|right; now right].
        destruct Hb3 as [->| ->]; [now left | right; now left].
Qed.

(** X7.  For a non-empty series [statsOf] returns numbers: [min] and [max]
    are entries of the series that bound every entry, [range] is
    [max - min], not negative, and [mean] is the sum of the entries, added
    from left to right starting from 0, divided by their number. *)
Theorem statsOf_nonempty (arr : list R) :
  arr <> [] ->
  exists mn mx,
    statsOf arr
    = mkStats (Finite (fold_left Rplus arr 0 / INR (length arr)))
              (Finite mn) (Finite mx) (Finite (mx - mn))
    /\ In mn arr /\ In mx arr
    /\ (forall v, In v arr -> mn <= v <= mx)
    /\ 0 <= mx - mn.
Proof.
  destruct arr as [|v l]; [congruence|]. intros _.
  unfold statsOf. cbn [fold_left].
  assert (H0 : statsStep (0, Infinity, NegInfinity) v = (0 + v, Finite v, Finite v))
    by reflexivity.
  rewrite H0.
  destruct (statsFold_spec l (0 + v) v v 1%nat)
    as (s' & a' & b' & Hf & Hsum & Hbd & Hle & Hge & Hall & Hina & Hinb).
  { simpl. lra. }
  rewrite Hf. cbn [subNum].
  exists a', b'. rewrite Hsum.
  split; [reflexivity|].
  split; [destruct Hina as [->|H]; [now left | now right]|].
  split; [destruct Hinb as [->|H]; [now left | now right]|].
  split; [intros u [<-|Hu]; [lra | now apply Hall]|].
  lra.
Qed.

Lemma statsOf_nonempty_witness :
  exists mn mx,
    statsOf [3; 1; 2]
    = mkStats (Finite (fold_left Rplus [3; 1; 2] 0 / INR (length [3; 1; 2])))
              (Finite mn) (Finite mx) (Finite (mx - mn))
    /\ In mn [3; 1; 2] /\ In mx [3; 1; 2]
    /\ (forall v, In v [3; 1; 2] -> mn <= v <= mx)
    /\ 0 <= mx - mn.
Proof. apply (statsOf_nonempty [3; 1; 2]). discriminate. Defined.

End RotationProperties.

(** ** The fusion pipeline *)

Section PipelineProperties.
Import Fusion FusionSpec PipelineSpec.
Local Open Scope R_scope.

Lemma highPassLoop_constant alpha d rest :
  Forall (fun v => v = d) rest ->
  Forall (fun v => v = 0) (highPassLoop alpha 0 d rest).
Proof.
  induction rest as [|x rest IH]; intro H; simpl; [constructor|].
  inversion H as [|? ? Hx Hrest]; subst.
  replace (alpha * (0 + d - d)) with 0 by ring.
  constructor; [reflexivity | now apply IH].
Qed.

(** X8.  [highPassFilter] returns one value per sample (and a single 0 for
    an empty input), its first value is 0, and a constant signal, such as
    gravity on a sensor at rest, is filtered to 0 everywhere. *)
Theorem highPassFilter_shape_and_constant (data : list R) (rate cutoff : R) :
  length (highPassFilter data rate cutoff) = Nat.max 1 (length data)
  /\ nth 0 (highPassFilter data rate cutoff) 1 = 0
  /\ (forall d, Forall (fun v => v = d) data ->
        Forall (fun v => v = 0) (highPassFilter data rate cutoff)).
Proof.
  split; [apply highPassFilter_length|]. split; [reflexivity|].
  intros d H. unfold highPassFilter. constructor; [reflexivity|].
  destruct data as [|d0 rest]; [constructor|].
  inversion H as [|? ? Hd Hrest]; subst.
  now apply highPassLoop_constant.
Qed.

Lemma median_nonempty l : l <> [] -> exists m, median l = Some m.
Proof.
  intro H. unfold median.
  destruct (sort l) as [|h t] eqn:E.
  - exfalso. apply H. apply Permutation_nil.
    rewrite <- E. apply Permutation_sym, sort_perm.
  - destruct (Nat.eqb _ 1); eauto.
Qed.

Lemma subtractMedian_length l : length (subtractMedian l) = length l.
Proof.
  unfold subtractMedian. destruct l as [|v l]; [reflexivity|].
  destruct (median_nonempty (v :: l)) as [m ->]; [discriminate|].
  apply length_map.
Qed.

(** X9.  When [process] returns, there is exactly one orientation per input
    row, the time array is handed through untouched, and each of the nine
    arrays the loop indexes (calibrated accelerometer, gyroscope, calibrated
    magnetometer) has one entry per row, so that no index of the loop is out
    of range. *)
Theorem process_one_orientation_per_row lib o r :
  process lib o = Ok r ->
  let rows := opt_rows o in
  let headers := opt_headers o in
  let accCal := accCalOf rows headers (sampleRate r) in
  let gyroData := extractAxisData rows headers gyro in
  let magCal := magCalOf rows headers in
  length (orientations r) = length rows
  /\ times r = opt_timeSeconds o
  /\ Forall (fun l => length l = length rows)
            [x_ accCal; y_ accCal; z_ accCal;
             x_ gyroData; y_ gyroData; z_ gyroData;
             x_ magCal; y_ magCal; z_ magCal].
Proof.
  intro H. destruct (process_ok_inv lib o r H) as (Hrows & _ & _ & _ & f & _ & ->).
  cbv zeta. cbn [orientations times sampleRate].
  split; [|split; [reflexivity|]].
  - rewrite length_map, runFilter_length.
    unfold filterInputs. now rewrite length_map, length_seq.
  - assert (Hmax : Nat.max 1 (length (opt_rows o)) = length (opt_rows o)).
    { destruct (opt_rows o); [congruence | simpl; lia]. }
    unfold accCalOf, magCalOf, calibrateAccelerometer, removeGravityBias,
      calibrateMagnetometer, extractAxisData.
    cbn [x_ y_ z_].
    repeat constructor;
      rewrite ?subtractMedian_length, ?length_map, ?highPassFilter_length,
              ?length_map; auto.
Qed.

Lemma process_one_orientation_per_row_witness :
  exists r,
    process countingLibrary
            (mkOptions twoRows nineDofHeaders (Some [0; 1 / 100]) None None None)
    = Ok r
    /\ length (orientations r) = 2%nat.
Proof.
  assert (Ha : hasAxisData nineDofHeaders acc = true) by (vm_compute; reflexivity).
  assert (Hg : hasAxisData nineDofHeaders gyro = true) by (vm_compute; reflexivity).
  assert (Hm : hasAxisData nineDofHeaders mag = true) by (vm_compute; reflexivity).
  assert (Hp : exists r, process countingLibrary
            (mkOptions twoRows nineDofHeaders (Some [0; 1 / 100]) None None None)
            = Ok r).
  { unfold process.
    cbn [opt_rows opt_headers opt_sampleRate opt_algorithm opt_beta
         opt_timeSeconds orDefault twoRows].
    rewrite Ha, Hg, Hm. cbn [andb negb].
    unfold createFilter, countingLibrary.
    cbn [Madgwick String.eqb Ascii.eqb Bool.eqb bind]. eauto. }
  destruct Hp as [r Hr]. exists r. split; [exact Hr|].
  exact (proj1 (process_one_orientation_per_row _ _ _ Hr)).
Defined.

Lemma indexOf_leftmost l s : forall i,
  indexOf l s = Some i ->
  forall j, (j < i)%nat -> nth_error l j <> Some s.
Proof.
  induction l as [|h l IH]; simpl; intros i H j Hj.
  - discriminate.
  - destruct (String.eqb h s) eqn:E.
    + injection H as <-. lia.
    + destruct (indexOf l s) as [k|] eqn:Ek; [|discriminate].
      injection H as <-. destruct j as [|j]; simpl.
      * apply String.eqb_neq in E. congruence.
      * apply (IH k eq_refl). lia.
Qed.

Lemma indexOf_None l s : indexOf l s = None -> ~ In s l.
Proof.
  induction l as [|h l IH]; simpl; intros H Hin; [exact Hin|].
  destruct Hin as [Hin|Hin].
  - subst. now rewrite String.eqb_refl in H.
  - destruct (String.eqb h s); [discriminate|].
    destruct (indexOf l s); [discriminate|]. now apply IH.
Qed.

Lemma findIndexIn_first nh cs idx :
  findIndexIn nh cs = Some idx ->
  exists pre c post,
    cs = pre ++ c :: post
    /\ nth_error nh idx = Some (normalize c)
    /\ (forall j, (j < idx)%nat -> nth_error nh j <> Some (normalize c))
    /\ (forall c', In c' pre -> ~ In (normalize c') nh).
Proof.
  induction cs as [|c cs IH]; simpl; intro H; [discriminate|].
  destruct (indexOf nh (normalize c)) as [i|] eqn:E.
  - injection H as <-. exists [], c, cs.
    split; [reflexivity|]. split; [now apply indexOf_nth_error|].
    split; [now apply indexOf_leftmost|]. intros c' [].
  - destruct (IH H) as (pre & c0 & post & -> & Hn & Hl & Hp).
    exists (c :: pre), c0, post.
    split; [reflexivity|]. split; [exact Hn|]. split; [exact Hl|].
    intros c' [<-|Hin]; [now apply indexOf_None | now apply Hp].
Qed.

(** X10.  A column found by [findAxisKeys] is a valid column of the header
    row; it is the leftmost header that normalizes to the matched candidate
    name, and no candidate listed before the matched one occurs among the
    headers: the first candidate of the table wins. *)
Theorem findAxisKeys_first_match (headers : list string) (sensor : Sensor)
    (axis : Axis) (idx : nat) :
  keyOf (findAxisKeys headers sensor) axis = Some idx ->
  (idx < length headers)%nat
  /\ exists pre c post,
       candidates sensor axis = pre ++ c :: post
       /\ nth_error (map normalize headers) idx = Some (normalize c)
       /\ (forall j, (j < idx)%nat ->
             nth_error (map normalize headers) j <> Some (normalize c))
       /\ (forall c', In c' pre -> ~ In (normalize c') (map normalize headers)).
Proof.
  intro H.
  assert (Hf : findIndexIn (map normalize headers) (candidates sensor axis)
               = Some idx).
  { destruct axis; exact H. }
  destruct (findIndexIn_first _ _ _ Hf) as (pre & c & post & Hc & Hn & Hl & Hp).
  split.
  - rewrite <- (length_map normalize). apply nth_error_Some. congruence.
  - exists pre, c, post. auto.
Qed.

Lemma findAxisKeys_first_match_witness :
  (2 < length ["time"; "ax"; "Acc X"; "ay"]%string)%nat
  /\ exists pre c post,
       candidates acc AxisX = pre ++ c :: post
       /\ nth_error (map normalize ["time"; "ax"; "Acc X"; "ay"]%string) 2
          = Some (normalize c)
       /\ (forall j, (j < 2)%nat ->
             nth_error (map normalize ["time"; "ax"; "Acc X"; "ay"]%string) j
             <> Some (normalize c))
       /\ (forall c', In c' pre ->
             ~ In (normalize c') (map normalize ["time"; "ax"; "Acc X"; "ay"]%string)).
Proof.
  apply (findAxisKeys_first_match ["time"; "ax"; "Acc X"; "ay"]%string acc AxisX 2).
  vm_compute. reflexivity.
Defined.

End PipelineProperties.

(** ** Plot filters *)

Section FilterProperties.
Import Filters FilterSpec.
Local Open Scope R_scope.

Lemma skipn_cons_nth (l : list R) : forall a,
  (a < length l)%nat -> skipn a l = nth a l 0 :: skipn (S a) l.
Proof.
  induction l as [|x l IH]; intros a Ha; simpl in Ha; [lia|].
  destruct a as [|a]; [reflexivity|].
  cbn [skipn nth]. apply IH. lia.
Qed.

(** The inner loop adds up the samples of the window from left to right and
    counts them. *)
Lemma windowSum_fold data : forall n a s c,
  (a + n <= length data)%nat ->
  fold_left (fun acc j => (fst acc + nth j data 0, S (snd acc))) (seq a n) (s, c)
  = (fold_left Rplus (firstn n (skipn a data)) s, (c + n)%nat).
Proof.
  induction n as [|n IH]; intros a s c Ha.
  - simpl. now rewrite Nat.add_0_r.
  - cbn [seq fold_left fst snd].
    rewrite IH by lia.
    rewrite (skipn_cons_nth data a) by lia.
    cbn [firstn fold_left]. f_equal. lia.
Qed.

Lemma movingAverage_length data w :
  length (movingAverage data w) = length data.
Proof.
  unfold movingAverage. destruct data as [|d data]; [reflexivity|].
  now rewrite length_map, length_seq.
Qed.

Lemma movingAverage_nth_error data w i :
  (i < length data)%nat ->
  let a := (i - w / 2)%nat in
  let b := Nat.min (length data - 1) (i + w / 2) in
  nth_error (movingAverage data w) i
  = Some (fold_left Rplus (firstn (S b - a) (skipn a data)) 0 / INR (S b - a)).
Proof.
  intros Hi a b. unfold movingAverage.
  destruct data as [|d0 rest]; [simpl in Hi; lia|].
  set (data := d0 :: rest) in *.
  rewrite nth_error_map, nth_error_seq.
  destruct (Nat.ltb_spec i (length data)); [|lia].
  cbn [option_map Nat.add]. f_equal.
  replace (Nat.max 0 (i - w / 2)) with a by (unfold a; lia).
  fold b. unfold windowSum.
  rewrite windowSum_fold by (unfold a, b; lia).
  cbn [Nat.add]. replace (Nat.max 1 (S b - a)) with (S b - a)%nat by (unfold a, b; lia).
  reflexivity.
Qed.

(** X11.  [movingAverage] returns one value per sample.  The value at index
    [i] is the sum of the samples of the window from [max(0, i - half)] to
    [min(n - 1, i + half)], added from left to right starting from 0, divided
    by their number; the window lies within the array and contains [i], so
    the number is at least 1 and the guard [Math.max(1, count)] never
    acts. *)
Theorem movingAverage_window_mean (data : list R) (windowSize : nat) :
  length (movingAverage data windowSize) = length data
  /\ forall i, (i < length data)%nat ->
       let half := (windowSize / 2)%nat in
       let a := (i - half)%nat in
       let b := Nat.min (length data - 1) (i + half) in
       (a <= i <= b)%nat /\ (b < length data)%nat
       /\ nth_error (movingAverage data windowSize) i
          = Some (fold_left Rplus (firstn (S b - a) (skipn a data)) 0
                  / INR (S b - a)).
Proof.
  split; [apply movingAverage_length|].
  intros i Hi half a b.
  split; [unfold a, b; lia|]. split; [unfold b; lia|].
  now apply movingAverage_nth_error.
Qed.

Lemma smoothFrom_length alpha rest : forall p,
  length (smoothFrom alpha p rest) = length rest.
Proof.
  induction rest as [|d rest IH]; intro p; simpl; [reflexivity|]. now rewrite IH.
Qed.

Lemma smoothFrom_step alpha : forall rest p i,
  (i < length rest)%nat ->
  nth (S i) (p :: smoothFrom alpha p rest) 0
  = alpha * nth i rest 0 + (1 - alpha) * nth i (p :: smoothFrom alpha p rest) 0.
Proof.
  induction rest as [|d rest IH]; intros p i Hi; simpl in Hi; [lia|].
  destruct i as [|i]; [reflexivity|].
  cbn [smoothFrom].
  change (nth (S (S i)) (p :: alpha * d + (1 - alpha) * p
                           :: smoothFrom alpha (alpha * d + (1 - alpha) * p) rest) 0)
    with (nth (S i) (alpha * d + (1 - alpha) * p
                     :: smoothFrom alpha (alpha * d + (1 - alpha) * p) rest) 0).
  rewrite (IH (alpha * d + (1 - alpha) * p) i) by lia. reflexivity.
Qed.

Lemma lowPass_length data rate cutoff :
  length (lowPass data rate cutoff) = length data.
Proof.
  destruct data; simpl; [reflexivity|]. now rewrite smoothFrom_length.
Qed.


Lemma highPassFrom_loop alpha rest : forall o d,
  highPassFrom alpha o d rest = Fusion.highPassLoop alpha o d rest.
Proof.
  induction rest as [|x rest IH]; intros o d; simpl; [reflexivity|].
  now rewrite IH.
Qed.

(** X13.  On a non-empty signal the plot filter [highPass] and the
    processor's [highPassFilter] compute the same values; on an empty signal
    the first returns an empty array and the second a single 0. *)
Theorem highPass_agrees_with_highPassFilter (rate cutoff : R) :
  (forall data, data <> [] ->
      highPass data rate cutoff = Fusion.highPassFilter data rate cutoff)
  /\ highPass [] rate cutoff = []
  /\ Fusion.highPassFilter [] rate cutoff = [0].
Proof.
  split; [|split; reflexivity].
  intros [|d0 rest] H; [congruence|].
  unfold highPass, Fusion.highPassFilter. now rewrite highPassFrom_loop.
Qed.

Lemma diffsFrom_positive rest : forall p d,
  In d (diffsFrom p rest) -> d > 0.
Proof.
  induction rest as [|t rest IH]; intros p d H; simpl in H; [contradiction|].
  destruct (Rgt_dec (t - p) 0).
  - destruct H as [<-|H]; [assumption | eapply IH; eauto].
  - eapply IH; eauto.
Qed.

Lemma estimateSampleRateHz_pos times : estimateSampleRateHz times > 0.
Proof.
  unfold estimateSampleRateHz.
  destruct (Nat.ltb (length times) 3); [lra|].
  match goal with |- (if Rgt_dec ?m 0 then _ else _) > 0 => set (median := m) end.
  destruct (Rgt_dec median 0); [|lra].
  apply Rdiv_lt_0_compat; lra.
Qed.

Lemma diffsFrom_even d rest : forall p,
  d > 0 -> evenlySpaced d p rest -> diffsFrom p rest = repeat d (length rest).
Proof.
  induction rest as [|t rest IH]; intros p Hd H; simpl; [reflexivity|].
  destruct H as [Ht Hrest]. rewrite Ht.
  destruct (Rgt_dec d 0); [|contradiction]. f_equal. now apply IH.
Qed.

Lemma sort_repeat d n : Fusion.sort (repeat d n) = repeat d n.
Proof.
  induction n as [|n IH]; simpl; [reflexivity|]. rewrite IH.
  destruct n; simpl; [reflexivity|].
  destruct (Rlt_dec d d); [lra|]. f_equal.
  clear IH. induction n as [|n IHn]; simpl; [reflexivity|].
  destruct (Rlt_dec d d); [lra|]. now f_equal.
Qed.

(** X14.  [estimateSampleRateHz] always returns a positive rate; it is 100
    for fewer than three time stamps, and for three or more time stamps a
    constant positive step [d] apart it is [1 / d]. *)
Theorem estimateSampleRateHz_positive_and_exact :
  (forall times, estimateSampleRateHz times > 0)
  /\ (forall times, (length times < 3)%nat -> estimateSampleRateHz times = 100)
  /\ (forall d t0 rest,
         d > 0 -> (2 <= length rest)%nat -> evenlySpaced d t0 rest ->
         estimateSampleRateHz (t0 :: rest) = 1 / d).
Proof.
  split; [exact estimateSampleRateHz_pos|]. split.
  - intros times H. unfold estimateSampleRateHz.
    destruct (Nat.ltb_spec (length times) 3); [reflexivity|lia].
  - intros d t0 rest Hd Hlen Hev. unfold estimateSampleRateHz.
    destruct (Nat.ltb_spec (length (t0 :: rest)) 3) as [H|_]; [simpl in H; lia|].
    rewrite (diffsFrom_even d rest t0 Hd Hev), sort_repeat, repeat_length.
    assert (Hn : nth_error (repeat d (length rest)) (length rest / 2) = Some d).
    { rewrite nth_error_repeat; [reflexivity|]. apply Nat.div_lt; lia. }
    rewrite Hn.
    destruct (Req_dec_T d 0); [lra|].
    destruct (Rgt_dec d 0); [reflexivity|contradiction].
Qed.

Lemma highPassFrom_length alpha rest : forall o d,
  length (highPassFrom alpha o d rest) = length rest.
Proof.
  induction rest as [|x rest IH]; intros o d; simpl; [reflexivity|]. now rewrite IH.
Qed.

Lemma highPass_length data rate cutoff :
  length (highPass data rate cutoff) = length data.
Proof.
  destruct data; simpl; [reflexivity|]. now rewrite highPassFrom_length.
Qed.

Lemma hd_error_nth_error {A : Type} (l : list A) : hd_error l = nth_error l 0.
Proof. destruct l; reflexivity. Qed.

(** X15.  [filterAccelerationAxis] returns one value per sample whatever
    the time stamps are.  On a non-empty axis its first value is 0 with
    gravity removal; without it the first value is that of the moving
    average, the sum of the first three samples (of all of them when there
    are fewer) divided by their number. *)
Theorem filterAccelerationAxis_shape (axis times : list R) :
  (forall removeGravity,
      length (filterAccelerationAxis axis times removeGravity) = length axis)
  /\ (axis <> [] ->
      hd_error (filterAccelerationAxis axis times true) = Some 0)
  /\ (axis <> [] ->
      hd_error (filterAccelerationAxis axis times false)
      = Some (fold_left Rplus (firstn 3 axis) 0
              / INR (Nat.min 3 (length axis)))).
Proof.
  split; [|split].
  - intro g. unfold filterAccelerationAxis.
    destruct g; rewrite ?highPass_length, lowPass_length;
      apply movingAverage_length.
  - intro Hne. unfold filterAccelerationAxis.
    set (lp := lowPass (movingAverage axis 5) (estimateSampleRateHz times) 10).
    assert (Hlen : length lp = length axis).
    { unfold lp. rewrite lowPass_length. apply movingAverage_length. }
    destruct lp as [|l0 lp']; [|reflexivity].
    destruct axis; [congruence | discriminate].
  - intro Hne. unfold filterAccelerationAxis.
    assert (Hlp : forall d r c, hd_error (lowPass d r c) = hd_error d)
      by (intros [|? ?] ? ?; reflexivity).
    rewrite Hlp, hd_error_nth_error.
    assert (Hi : (0 < length axis)%nat) by (destruct axis; [congruence | simpl; lia]).
    rewrite (movingAverage_nth_error axis 5 0 Hi).
    change (5 / 2)%nat with 2%nat. change (0 - 2)%nat with 0%nat.
    change (0 + 2)%nat with 2%nat. cbn [skipn].
    assert (Hn : (S (Nat.min (length axis - 1) 2) - 0
                  = Nat.min 3 (length axis))%nat) by lia.
    rewrite Hn.
    assert (Hf : firstn (Nat.min 3 (length axis)) axis = firstn 3 axis).
    { destruct (Nat.le_gt_cases 3 (length axis)) as [H3|H3].
      - now rewrite Nat.min_l by exact H3.
      - rewrite Nat.min_r by lia. rewrite !firstn_all2 by lia. reflexivity. }
    now rewrite Hf.
Qed.


(** *** Downsampling *)

Lemma ceilDiv_step m s :
  (0 < m)%nat -> (1 <= s)%nat -> ceilDiv m s = S (ceilDiv (m - s) s).
Proof.
  intros Hm Hs. unfold ceilDiv.
  destruct (Nat.le_gt_cases s m) as [Hle|Hgt].
  - replace (m + s - 1)%nat with ((m - s + s - 1) + 1 * s)%nat by lia.
    rewrite Nat.div_add by lia. lia.
  - replace (m - s)%nat with 0%nat by lia.
    rewrite (Nat.div_small (0 + s - 1) s) by lia.
    symmetry. apply (Nat.div_unique _ _ 1 (m - 1)); lia.
Qed.

Lemma ceilDiv_zero s : (1 <= s)%nat -> ceilDiv 0 s = 0%nat.
Proof. intro Hs. unfold ceilDiv. apply Nat.div_small. lia. Qed.

Lemma strideFrom_spec n step : (1 <= step)%nat -> forall fuel i,
  (n - i <= fuel)%nat ->
  strideFrom fuel n step i
  = map (fun k => (i + k * step)%nat) (seq 0 (ceilDiv (n - i) step)).
Proof.
  intros Hs. induction fuel as [|fuel IH]; intros i Hf.
  - replace (n - i)%nat with 0%nat by lia. now rewrite ceilDiv_zero.
  - simpl. destruct (Nat.ltb_spec i n) as [Hlt|Hge].
    + rewrite (ceilDiv_step (n - i) step) by lia.
      rewrite <- cons_seq. cbn [map]. rewrite Nat.mul_0_l, Nat.add_0_r. f_equal.
      rewrite IH by lia.
      replace (n - (i + step))%nat with (n - i - step)%nat by lia.
      rewrite <- seq_shift, map_map. apply map_ext. intro k. simpl. lia.
    + replace (n - i)%nat with 0%nat by lia. now rewrite ceilDiv_zero.
Qed.

Lemma ceilDiv_mul_ge n m : (1 <= m)%nat -> (n <= m * ceilDiv n m)%nat.
Proof.
  intro Hm. unfold ceilDiv.
  pose proof (Nat.div_mod_eq (n + m - 1) m) as Hd.
  pose proof (Nat.mod_upper_bound (n + m - 1) m ltac:(lia)) as Hr.
  lia.
Qed.

Lemma ceilDiv_le n s m :
  (1 <= s)%nat -> (n <= m * s)%nat -> (ceilDiv n s <= m)%nat.
Proof.
  intros Hs Hn. unfold ceilDiv.
  apply Nat.lt_succ_r. apply Nat.Div0.div_lt_upper_bound. nia.
Qed.

(** X16.  When the series has at most [maxPoints] points [downsampleXY]
    returns it unchanged, point for point.  Otherwise, for [maxPoints] of at
    least 1, it returns every [step]-th point starting with the first one,
    [step = ceil(n / maxPoints)]; it returns at least one and at most
    [maxPoints] points and never reads beyond the series. *)
Theorem downsampleXY_bounded (times values : list R) (maxPoints : nat) :
  let n := Nat.min (length times) (length values) in
  let out := downsampleXY times values maxPoints in
  ((n <= maxPoints)%nat ->
     map fst out = firstn n times /\ map snd out = firstn n values)
  /\ ((maxPoints < n)%nat -> (1 <= maxPoints)%nat ->
      let step := ceilDiv n maxPoints in
      (1 <= length out <= maxPoints)%nat
      /\ ((length out - 1) * step < n)%nat
      /\ (n <= length out * step)%nat
      /\ out = map (fun k => (nth (k * step) times 0, nth (k * step) values 0))
                   (seq 0 (length out))).
Proof.
  intros n out. split.
  - intro Hle. unfold out, downsampleXY. fold n.
    destruct (Nat.leb_spec n maxPoints) as [_|H]; [|lia].
    rewrite !map_map. cbn [fst snd]. split.
    + apply (nth_ext _ _ 0 0).
      * rewrite length_map, length_seq, length_firstn. lia.
      * intros i Hi. rewrite length_map, length_seq in Hi.
        rewrite (nth_indep _ 0 (nth 0 times 0))
          by (now rewrite length_map, length_seq).
        rewrite (map_nth (fun i => nth i times 0)), seq_nth by exact Hi.
        rewrite nth_firstn. destruct (Nat.ltb_spec i n); [reflexivity|lia].
    + apply (nth_ext _ _ 0 0).
      * rewrite length_map, length_seq, length_firstn. lia.
      * intros i Hi. rewrite length_map, length_seq in Hi.
        rewrite (nth_indep _ 0 (nth 0 values 0))
          by (now rewrite length_map, length_seq).
        rewrite (map_nth (fun i => nth i values 0)), seq_nth by exact Hi.
        rewrite nth_firstn. destruct (Nat.ltb_spec i n); [reflexivity|lia].
  - intros Hgt Hm step. unfold out, downsampleXY. fold n.
    destruct (Nat.leb_spec n maxPoints) as [H|_]; [lia|].
    destruct maxPoints as [|m']; [lia|]. fold step.
    pose proof (ceilDiv_mul_ge n (S m') ltac:(lia)) as Hge. fold step in Hge.
    assert (Hstep : (1 <= step)%nat) by nia.
    rewrite (strideFrom_spec n step Hstep n 0) by lia.
    rewrite Nat.sub_0_r. rewrite map_map, !length_map, !length_seq.
    set (c := ceilDiv n step).
    assert (Hc1 : (c <= S m')%nat) by (apply ceilDiv_le; [exact Hstep | lia]).
    assert (Hc2 : (n <= step * c)%nat) by (now apply ceilDiv_mul_ge).
    assert (Hc3 : (1 <= c)%nat) by nia.
    assert (Hc4 : ((c - 1) * step < n)%nat).
    { unfold c. rewrite (ceilDiv_step n step) by lia.
      replace (S (ceilDiv (n - step) step) - 1)%nat
        with (ceilDiv (n - step) step) by lia.
      destruct (Nat.le_gt_cases step n) as [Hsn|Hsn].
      - assert (H1 : (ceilDiv (n - step) step * step < n - step + step)%nat).
        { unfold ceilDiv.
          pose proof (Nat.div_mod_eq (n - step + step - 1) step) as Hd.
          nia. }
        lia.
      - replace (n - step)%nat with 0%nat by lia. rewrite ceilDiv_zero by lia. lia. }
    split; [lia|]. split; [exact Hc4|]. split; [lia|]. reflexivity.
Qed.

Lemma downsampleXY_bounded_witness :
  let out := downsampleXY [0; 1; 2; 3; 4] [5; 6; 7; 8; 9] 2 in
  (1 <= length out)%nat /\ (length out <= 2)%nat.
Proof.
  apply (proj2 (downsampleXY_bounded [0; 1; 2; 3; 4] [5; 6; 7; 8; 9] 2));
    simpl; lia.
Defined.

End FilterProperties.

(** ** Cursor readouts *)

Section ReadoutProperties.
Import TimeBase Readout ReadoutSpec.
Local Open Scope Q_scope.

Lemma Qabs_of_nonneg (q : Q) : 0 <= q -> Qabs q == q.
Proof. apply Qabs_pos. Qed.

Lemma Qabs_of_nonpos (q : Q) : q <= 0 -> Qabs q == - q.
Proof. apply Qabs_neg. Qed.

(** Distances on the left of [x] grow towards the left. *)
Lemma dist_left (u v x : Q) : u <= v -> v <= x -> Qabs (v - x) <= Qabs (u - x).
Proof.
  intros Huv Hvx.
  pose proof (Qabs_of_nonpos (v - x) ltac:(Lqa.lra)) as E1.
  pose proof (Qabs_of_nonpos (u - x) ltac:(Lqa.lra)) as E2.
  Lqa.lra.
Qed.

Lemma dist_right (u v x : Q) : x <= u -> u <= v -> Qabs (u - x) <= Qabs (v - x).
Proof.
  intros Hxu Huv.
  pose proof (Qabs_of_nonneg (u - x) ltac:(Lqa.lra)) as E1.
  pose proof (Qabs_of_nonneg (v - x) ltac:(Lqa.lra)) as E2.
  Lqa.lra.
Qed.

Lemma ascending_at times i j :
  ascending times -> (0 <= i <= j)%Z -> (j < Z.of_nat (length times))%Z ->
  at_ times i <= at_ times j.
Proof. intros H Hij Hj. unfold at_. apply H. lia. Qed.

Lemma searchLoop_spec times x : ascending times -> forall fuel lo hi,
  SearchInv times x lo hi -> (hi - lo + 1 <= Z.of_nat fuel)%Z ->
  match searchLoop fuel times x lo hi with
  | inr mid => (0 <= mid < Z.of_nat (length times))%Z /\ at_ times mid == x
  | inl (lo', hi') => SearchInv times x lo' hi' /\ lo' = (hi' + 1)%Z
  end.
Proof.
  intros Hasc. induction fuel as [|fuel IH]; intros lo hi Hinv Hf.
  - simpl. destruct Hinv as (H0 & H1 & H2 & H3 & H4).
    split; [repeat split; assumption | lia].
  - simpl. destruct (Z.leb_spec lo hi) as [Hle|Hgt].
    + destruct Hinv as (H0 & H1 & H2 & H3 & H4).
      rewrite Z.shiftr_div_pow2 by lia. change (2 ^ 1)%Z with 2%Z.
      set (mid := ((lo + hi) / 2)%Z).
      assert (Hmid : (lo <= mid <= hi)%Z).
      { unfold mid. split.
        - apply Z.div_le_lower_bound; lia.
        - apply Z.div_le_upper_bound; lia. }
      destruct (Qeq_bool (at_ times mid) x) eqn:Eeq.
      * apply Qeq_bool_iff in Eeq. split; [lia | exact Eeq].
      * destruct (Qltb (at_ times mid) x) eqn:Elt.
        -- apply Qltb_lt in Elt. apply IH; [|lia].
           repeat split; try lia; [|exact H4].
           intros j Hj. apply Qle_lt_trans with (at_ times mid); [|exact Elt].
           apply ascending_at; [exact Hasc | lia | lia].
        -- apply Qltb_ge in Elt.
           assert (Hne : ~ at_ times mid == x).
           { intro Heq. apply Qeq_bool_iff in Heq. congruence. }
           assert (Hgt : x < at_ times mid).
           { apply Qle_lteq in Elt. destruct Elt as [Hl|He]; [exact Hl|].
             exfalso. apply Hne. now symmetry. }
           apply IH; [|lia].
           repeat split; try lia; [exact H3|].
           intros j Hj. apply Qlt_le_trans with (at_ times mid); [exact Hgt|].
           apply ascending_at; [exact Hasc | lia | lia].
    + destruct Hinv as (H0 & H1 & H2 & H3 & H4).
      split; [repeat split; assumption | lia].
Qed.

Lemma nearestIndex_spec (times : list Q) (x : Q) :
  times <> [] -> ascending times ->
  let r := nearestIndex times x in
  (0 <= r < Z.of_nat (length times))%Z
  /\ forall j, (0 <= j < Z.of_nat (length times))%Z ->
       Qabs (at_ times r - x) <= Qabs (at_ times j - x).
Proof.
  intros Hne Hasc r.
  { unfold r, nearestIndex.
    destruct times as [|t0 rest] eqn:Et; [congruence|]. rewrite <- Et in *.
    assert (Hlen : (0 < Z.of_nat (length times))%Z) by (rewrite Et; simpl; lia).
    assert (Ht0 : at_ times 0 = t0) by (rewrite Et; reflexivity).
    set (len := Z.of_nat (length times)) in *.
    destruct (Qle_bool x t0) eqn:E0.
    { apply Qle_bool_iff in E0. split; [lia|].
      intros j Hj. rewrite <- Ht0 in E0.
      apply dist_right; [exact E0|]. apply ascending_at; [exact Hasc | lia | lia]. }
    apply Qle_bool_false in E0.
    destruct (Qle_bool (at_ times (len - 1)) x) eqn:E1.
    { apply Qle_bool_iff in E1. split; [lia|].
      intros j Hj. apply dist_left; [|exact E1].
      apply ascending_at; [exact Hasc | lia | lia]. }
    apply Qle_bool_false in E1.
    pose proof (searchLoop_spec times x Hasc (length times) 0%Z (len - 1)%Z) as Hs.
    assert (Hinv0 : SearchInv times x 0 (len - 1)).
    { repeat split; try lia; intros j Hj; lia. }
    specialize (Hs Hinv0 ltac:(lia)).
    destruct (searchLoop (length times) times x 0 (len - 1)) as [[lo' hi']|mid].
    - destruct Hs as ((H0 & H1 & H2 & H3 & H4) & Hexit). subst lo'.
      fold len in H1, H4.
      assert (Ha : (0 <= hi')%Z).
      { destruct (Z.lt_ge_cases hi' 0) as [Hneg|]; [|assumption].
        exfalso. specialize (H4 0%Z ltac:(lia)). rewrite Ht0 in H4.
        exact (Qlt_irrefl _ (Qlt_trans _ _ _ H4 E0)). }
      assert (Hb : (hi' + 1 < len)%Z).
      { destruct (Z.lt_ge_cases (hi' + 1) len) as [|Hbig]; [assumption|].
        exfalso. specialize (H3 (len - 1)%Z ltac:(lia)).
        exact (Qlt_irrefl _ (Qlt_trans _ _ _ H3 E1)). }
      destruct (Z.ltb_spec hi' 0); [lia|].
      destruct (Z.leb_spec len (hi' + 1)); [lia|].
      assert (Hleft : forall j, (0 <= j <= hi')%Z ->
                Qabs (at_ times hi' - x) <= Qabs (at_ times j - x)).
      { intros j Hj. apply dist_left.
        - apply ascending_at; [exact Hasc | lia | lia].
        - apply Qlt_le_weak. apply H3. lia. }
      assert (Hright : forall j, (hi' + 1 <= j < len)%Z ->
                Qabs (at_ times (hi' + 1) - x) <= Qabs (at_ times j - x)).
      { intros j Hj. apply dist_right.
        - apply Qlt_le_weak. apply H4. lia.
        - apply ascending_at; [exact Hasc | lia | lia]. }
      destruct (Qltb (Qabs (at_ times (hi' + 1) - x)) (Qabs (at_ times hi' - x)))
        eqn:Ec.
      + apply Qltb_lt in Ec. split; [lia|]. intros j Hj.
        destruct (Z.le_gt_cases j hi').
        * apply Qle_trans with (Qabs (at_ times hi' - x));
            [now apply Qlt_le_weak | apply Hleft; lia].
        * apply Hright. lia.
      + apply Qltb_ge in Ec. split; [lia|]. intros j Hj.
        destruct (Z.le_gt_cases j hi').
        * apply Hleft. lia.
        * apply Qle_trans with (Qabs (at_ times (hi' + 1) - x));
            [exact Ec | apply Hright; lia].
    - destruct Hs as [Hm Heq]. split; [exact Hm|].
      intros j Hj. rewrite Heq.
      setoid_replace (x - x) with 0 by ring. apply Qabs_nonneg. }
Qed.



(** *** Column lookup *)

Lemma firstCandidate_first lower cs idx :
  firstCandidate lower cs = Some idx ->
  exists pre c post,
    cs = pre ++ c :: post
    /\ nth_error lower idx = Some c
    /\ (forall j, (j < idx)%nat -> nth_error lower j <> Some c)
    /\ (forall c', In c' pre -> ~ In c' lower).
Proof.
  induction cs as [|c cs IH]; simpl; intro H; [discriminate|].
  destruct (Fusion.indexOf lower c) as [i|] eqn:E.
  - injection H as <-. exists [], c, cs.
    split; [reflexivity|]. split; [now apply indexOf_nth_error|].
    split; [now apply indexOf_leftmost|]. intros c' [].
  - destruct (IH H) as (pre & c0 & post & -> & Hn & Hl & Hp).
    exists (c :: pre), c0, post.
    split; [reflexivity|]. split; [exact Hn|]. split; [exact Hl|].
    intros c' [<-|Hin]; [now apply indexOf_None | now apply Hp].
Qed.

Lemma firstCandidate_None lower cs :
  firstCandidate lower cs = None -> forall c, In c cs -> ~ In c lower.
Proof.
  induction cs as [|c cs IH]; simpl; intros H c' Hin; [contradiction|].
  destruct (Fusion.indexOf lower c) as [i|] eqn:E; [discriminate|].
  destruct Hin as [<-|Hin]; [now apply indexOf_None | now apply IH].
Qed.

Lemma toLowerCase_uppercase s : toLowerCase (FusionSpec.uppercase s) = toLowerCase s.
Proof.
  unfold toLowerCase. rewrite list_ascii_of_uppercase, map_map.
  f_equal. apply map_ext. apply toLowerChar_toUpperChar.
Qed.

Lemma trimLower_uppercase s : trimLower (FusionSpec.uppercase s) = trimLower s.
Proof.
  unfold trimLower. rewrite list_ascii_of_uppercase, trim_map_upper, map_map.
  f_equal. apply map_ext. apply toLowerChar_toUpperChar.
Qed.

(** X18.  [findTimeIndex] answers -1 for a value that is not an array and
    otherwise a column of the header row: the leftmost header that, in lower
    case, equals the first time name of the candidate list that occurs at
    all, and column 0 when none occurs.  [colIndex] answers the leftmost
    header equal to the name after trimming and lower-casing, or -1.
    Neither depends on the case of the letters. *)
Theorem findTimeIndex_first_candidate_or_zero :
  findTimeIndex None = (-1)%Z
  /\ (forall hs,
        let r := findTimeIndex (Some hs) in
        (0 <= r)%Z
        /\ (hs <> [] -> (r < Z.of_nat (length hs))%Z)
        /\ ((forall c, In c timeCandidates -> ~ In c (map toLowerCase hs)) ->
            r = 0%Z)
        /\ ((exists c, In c timeCandidates /\ In c (map toLowerCase hs)) ->
            exists pre c post,
              timeCandidates = pre ++ c :: post
              /\ nth_error (map toLowerCase hs) (Z.to_nat r) = Some c
              /\ (forall j, (j < Z.to_nat r)%nat ->
                    nth_error (map toLowerCase hs) j <> Some c)
              /\ (forall c', In c' pre -> ~ In c' (map toLowerCase hs)))
        /\ findTimeIndex (Some (map FusionSpec.uppercase hs)) = r)
  /\ (forall hs name,
        let r := colIndex hs name in
        ((r = (-1)%Z /\ ~ In (trimLower name) (map trimLower hs))
         \/ ((0 <= r < Z.of_nat (length hs))%Z
             /\ nth_error (map trimLower hs) (Z.to_nat r) = Some (trimLower name)
             /\ forall j, (j < Z.to_nat r)%nat ->
                  nth_error (map trimLower hs) j <> Some (trimLower name)))
        /\ colIndex hs (FusionSpec.uppercase name) = r
        /\ colIndex (map FusionSpec.uppercase hs) name = r).
Proof.
  split; [reflexivity|]. split.
  - intros hs r. unfold r, findTimeIndex.
    destruct (firstCandidate (map toLowerCase hs) timeCandidates) as [idx|] eqn:E.
    + destruct (firstCandidate_first _ _ _ E) as (pre & c & post & Hc & Hn & Hl & Hp).
      assert (Hidx : (idx < length hs)%nat).
      { rewrite <- (length_map toLowerCase). apply nth_error_Some. congruence. }
      split; [lia|]. split; [intros _; lia|]. split.
      * intro Hnone. exfalso. apply (Hnone c).
        -- rewrite Hc. apply in_or_app. right. now left.
        -- eapply nth_error_In; eauto.
      * split.
        -- intros _. exists pre, c, post. rewrite Nat2Z.id. auto.
        -- rewrite map_map.
           rewrite (map_ext (fun x => toLowerCase (FusionSpec.uppercase x)) toLowerCase)
             by apply toLowerCase_uppercase.
           now rewrite E.
    + split; [lia|]. split.
      * intro Hne. destruct hs; [congruence | simpl; lia].
      * split; [reflexivity|]. split.
        -- intros (c & Hc & Hin). exfalso.
           exact (firstCandidate_None _ _ E c Hc Hin).
        -- rewrite map_map.
           rewrite (map_ext (fun x => toLowerCase (FusionSpec.uppercase x)) toLowerCase)
             by apply toLowerCase_uppercase.
           now rewrite E.
  - intros hs name r. split; [|split].
    + unfold r, colIndex.
      destruct (Fusion.indexOf (map trimLower hs) (trimLower name)) as [i|] eqn:E.
      * right.
        assert (Hi : (i < length hs)%nat).
        { rewrite <- (length_map trimLower). apply nth_error_Some.
          rewrite (indexOf_nth_error _ _ _ E). discriminate. }
        rewrite Nat2Z.id. split; [lia|].
        split; [now apply indexOf_nth_error | now apply indexOf_leftmost].
      * left. split; [reflexivity | now apply indexOf_None].
    + unfold r, colIndex. now rewrite trimLower_uppercase.
    + unfold r, colIndex. rewrite map_map.
      now rewrite (map_ext (fun x => trimLower (FusionSpec.uppercase x)) trimLower)
        by apply trimLower_uppercase.
Qed.

(** *** The readout cache *)

Lemma samplesOf_In rows k t r :
  In (t, r) (samplesOf rows k) -> In r rows /\ readTime r k = Some t.
Proof.
  induction rows as [|r0 rest IH]; simpl; [contradiction|].
  destruct (readTime r0 k) as [t0|] eqn:E.
  - intros [H|H].
    + injection H as <- <-. auto.
    + destruct (IH H). auto.
  - intro H. destruct (IH H). auto.
Qed.

Lemma insertSample_perm s l : Permutation (s :: l) (insertSample s l).
Proof.
  induction l as [|h l IH]; simpl.
  - apply Permutation_refl.
  - destruct (Qle_bool (fst s) (fst h)).
    + apply Permutation_refl.
    + eapply perm_trans; [apply perm_swap|]. now apply perm_skip.
Qed.

Lemma sortSamples_perm l : Permutation l (sortSamples l).
Proof.
  induction l as [|v l IH]; simpl.
  - apply perm_nil.
  - eapply perm_trans; [apply perm_skip; exact IH | apply insertSample_perm].
Qed.

Lemma insertSample_sorted s l :
  Sorted Qle (map fst l) -> Sorted Qle (map fst (insertSample s l)).
Proof.
  induction l as [|h l IH]; simpl; intro Hs.
  - repeat constructor.
  - destruct (Qle_bool (fst s) (fst h)) eqn:E; simpl.
    + apply Qle_bool_iff in E. constructor; [exact Hs|]. now constructor.
    + apply Qle_bool_false in E. apply Qlt_le_weak in E.
      inversion Hs as [|? ? Hs' Hhd]; subst.
      constructor; [now apply IH|].
      destruct l as [|h' l]; simpl.
      * constructor. exact E.
      * destruct (Qle_bool (fst s) (fst h')); simpl; constructor; [exact E|].
        inversion Hhd; subst. assumption.
Qed.

Lemma sortSamples_sorted l : Sorted Qle (map fst (sortSamples l)).
Proof.
  induction l as [|v l IH]; simpl.
  - constructor.
  - now apply insertSample_sorted.
Qed.

Lemma Sorted_ascending l : Sorted Qle l -> ascending l.
Proof.
  intro Hs. apply Sorted_StronglySorted in Hs.
  2:{ intros a b c. apply Qle_trans. }
  induction Hs as [|a l Hs IH Hall]; intros i j Hij; [simpl in Hij; lia|].
  destruct i as [|i], j as [|j]; simpl in *; try lia.
  - apply Qle_refl.
  - rewrite Forall_forall in Hall. apply Hall. apply nth_In. lia.
  - apply IH. lia.
Qed.

Lemma Qabs_orZeroQ a x : Qabs (a - Viewer.orZeroQ x) == Qabs (a - x).
Proof. apply Qabs_wd. rewrite orZeroQ_eq. reflexivity. Qed.

Lemma nth_map_fst (tmp : list (Q * Row)) n t r :
  nth_error tmp n = Some (t, r) -> nth n (map fst tmp) 0 = t.
Proof.
  intro H. apply nth_error_nth. rewrite nth_error_map, H. reflexivity.
Qed.

Lemma valuesAt_channelsOf tmp xI yI zI i t r :
  nth_error tmp (Z.to_nat i) = Some (t, r) ->
  valuesAt (channelsOf tmp xI yI zI) i
  = (readTime r xI, readTime r yI, readTime r zI).
Proof.
  intro H. unfold valuesAt, channelsOf. cbn [ch_x ch_y ch_z].
  rewrite !(nth_error_nth _ _ _ (map_nth_error _ _ _ H)). reflexivity.
Qed.



End ReadoutProperties.

(** ** Pose overlay *)

Section PoseProperties.
Import Pose PoseSpec.
Local Open Scope R_scope.

Lemma orOne_pos v : 0 <= v -> 0 < orOne v.
Proof. unfold orOne. destruct (Req_dec_T v 0); lra. Qed.

Lemma sized_nonneg el :
  sized el ->
  0 <= videoWidth el /\ 0 <= videoHeight el
  /\ 0 <= clientWidth el /\ 0 <= clientHeight el.
Proof.
  intros (vw & vh & dw & dh & -> & -> & -> & ->).
  repeat split; apply pos_INR.
Qed.

Lemma getContainedRect_scale_pos el : sized el -> 0 < rect_scale (getContainedRect el).
Proof.
  intro Hs. destruct (sized_nonneg el Hs) as (Hvw & Hvh & Hdw & Hdh). simpl.
  apply Rmin_glb_lt; apply Rdiv_lt_0_compat; apply orOne_pos; assumption.
Qed.

Lemma sqrt_sq_scale s m : 0 < s -> 0 <= m -> sqrt (s * s * m) = s * sqrt m.
Proof.
  intros Hs Hm. rewrite sqrt_mult by nra. rewrite sqrt_square by lra. reflexivity.
Qed.

Lemma sumsq_nonneg a b : 0 <= a * a + b * b.
Proof. nra. Qed.

(** In exact arithmetic a uniform positive scaling followed by a
    translation leaves the angle unchanged. *)
Lemma calculateAngle_placed s ox oy a b c : 0 < s ->
  calculateAngle (placed s ox oy a) (placed s ox oy b) (placed s ox oy c)
  = calculateAngle a b c.
Proof.
  intro Hs. unfold calculateAngle, placed. simpl.
  set (v1x := kp_x a - kp_x b). set (v1y := kp_y a - kp_y b).
  set (v2x := kp_x c - kp_x b). set (v2y := kp_y c - kp_y b).
  replace (kp_x a * s + ox - (kp_x b * s + ox)) with (s * v1x) by (unfold v1x; ring).
  replace (kp_y a * s + oy - (kp_y b * s + oy)) with (s * v1y) by (unfold v1y; ring).
  replace (kp_x c * s + ox - (kp_x b * s + ox)) with (s * v2x) by (unfold v2x; ring).
  replace (kp_y c * s + oy - (kp_y b * s + oy)) with (s * v2y) by (unfold v2y; ring).
  replace (s * v1x * (s * v1x) + s * v1y * (s * v1y))
    with (s * s * (v1x * v1x + v1y * v1y)) by ring.
  replace (s * v2x * (s * v2x) + s * v2y * (s * v2y))
    with (s * s * (v2x * v2x + v2y * v2y)) by ring.
  rewrite !sqrt_sq_scale by (try exact Hs; apply sumsq_nonneg).
  set (m1 := sqrt (v1x * v1x + v1y * v1y)).
  set (m2 := sqrt (v2x * v2x + v2y * v2y)).
  destruct (Req_dec_T (s * m1) 0) as [E1|E1], (Req_dec_T m1 0) as [F1|F1];
    try reflexivity; try (exfalso; nra).
  destruct (Req_dec_T (s * m2) 0) as [E2|E2], (Req_dec_T m2 0) as [F2|F2];
    try reflexivity; try (exfalso; nra).
  replace ((s * v1x * (s * v2x) + s * v1y * (s * v2y)) / (s * m1 * (s * m2)))
    with ((v1x * v2x + v1y * v2y) / (m1 * m2)); [reflexivity|].
  field. repeat split; lra.
Qed.

Lemma lastNamed_name kps name kp : lastNamed kps name = Some kp -> kp_name kp = name.
Proof.
  induction kps as [|k rest IH]; simpl; [discriminate|].
  destruct (lastNamed rest name) as [k'|].
  - intro H. injection H as <-. now apply IH.
  - destruct (negb (kp_name k =? EmptyString)%string && (kp_name k =? name)%string) eqn:E;
      [|discriminate].
    intro H. injection H as <-. apply andb_prop in E. destruct E as [_ E].
    now apply String.eqb_eq in E.
Qed.

Lemma lastNamed_map (f : Keypoint -> Keypoint) kps name :
  (forall kp, kp_name (f kp) = kp_name kp) ->
  lastNamed (map f kps) name = option_map f (lastNamed kps name).
Proof.
  intro Hf. induction kps as [|k rest IH]; simpl; [reflexivity|].
  rewrite IH. destruct (lastNamed rest name); simpl; [reflexivity|].
  rewrite Hf. now destruct (negb (kp_name k =? EmptyString)%string && (kp_name k =? name)%string).
Qed.

Lemma lastNamed_plain kps : plainNames kps -> lastNamed kps "__proto__" = None.
Proof.
  induction 1 as [|k rest Hk _ IH]; simpl; [reflexivity|].
  rewrite IH. apply String.eqb_neq in Hk. rewrite Hk.
  now rewrite andb_false_r.
Qed.

(** A keypoint found under a name carries this name. *)
Lemma byName_name kps name kp : byName kps name = FoundKeypoint kp -> kp_name kp = name.
Proof.
  unfold byName. destruct (String.eqb_spec name "__proto__") as [->|Hne].
  - destruct (lastNamed kps "__proto__") as [p|] eqn:E; [|discriminate].
    intro H. injection H as <-. now apply lastNamed_name in E.
  - destruct (lastNamed kps name) as [k|] eqn:E.
    + intro H. injection H as <-. now apply lastNamed_name in E.
    + unfold inheritedFrom.
      destruct (lastNamed kps "__proto__") as [p|];
        repeat match goal with
               | |- context [if ?b then _ else _] => destruct b
               | |- context [match kp_score ?p with _ => _ end] =>
                   destruct (kp_score p)
               end; discriminate.
Qed.

Lemma inheritedFrom_no_keypoint name :
  mapFound (fun kp => kp) (inheritedFrom None name) = inheritedFrom None name
  /\ forall f, mapFound f (inheritedFrom None name) = inheritedFrom None name.
Proof.
  unfold inheritedFrom.
  destruct (existsb (String.eqb name) objectPrototypeNames); split; reflexivity.
Qed.

(** On a pose without a keypoint named [__proto__], a map that keeps the
    names finds under every name the image of what was found before. *)
Lemma byName_map (f : Keypoint -> Keypoint) kps name :
  (forall kp, kp_name (f kp) = kp_name kp) -> plainNames kps ->
  byName (map f kps) name = mapFound f (byName kps name).
Proof.
  intros Hf Hp. unfold byName.
  rewrite !(lastNamed_map f) by exact Hf.
  rewrite (lastNamed_plain kps Hp). cbn [option_map].
  destruct (name =? "__proto__")%string; [reflexivity|].
  destruct (lastNamed kps name); cbn [option_map mapFound]; [reflexivity|].
  symmetry. apply inheritedFrom_no_keypoint.
Qed.

Lemma notFound_mapFound f r : notFound (mapFound f r) = notFound r.
Proof. destruct r; reflexivity. Qed.

Lemma lowConfidence_mapFound m f r :
  (forall kp, kp_score (f kp) = kp_score kp) ->
  lowConfidence m (mapFound f r) = lowConfidence m r.
Proof.
  intro Hf. unfold lowConfidence. destruct r; cbn [mapFound scoreOf]; [|reflexivity..].
  now rewrite Hf.
Qed.

Lemma mapKeypointsToDisplay_placed kps el :
  mapKeypointsToDisplay kps el
  = map (placed (rect_scale (getContainedRect el)) (rect_offX (getContainedRect el))
                (rect_offY (getContainedRect el))) kps.
Proof. reflexivity. Qed.

(** With a positive threshold only a keypoint passes the confidence test. *)
Lemma lowConfidence_keypoint m r :
  0 < m -> notFound r = false -> lowConfidence m r = false ->
  exists kp, r = FoundKeypoint kp.
Proof.
  intros Hm Hn Hl. destruct r as [kp| |]; [eauto | | discriminate].
  unfold lowConfidence in Hl. cbn [scoreOf] in Hl.
  destruct (Rlt_dec 0 m); [discriminate | contradiction].
Qed.

Lemma drawnAngle_Some m kps joints v :
  drawnAngle m kps joints = Some v ->
  let kp1 := byName kps (nth 0 joints "undefined"%string) in
  let kp2 := byName kps (nth 1 joints "undefined"%string) in
  let kp3 := byName kps (nth 2 joints "undefined"%string) in
  (notFound kp1 = false /\ notFound kp2 = false /\ notFound kp3 = false)
  /\ (lowConfidence m kp1 = false /\ lowConfidence m kp2 = false
      /\ lowConfidence m kp3 = false)
  /\ v = calculateAngleOf kp1 kp2 kp3.
Proof.
  unfold drawnAngle. cbv zeta.
  destruct (notFound _ || notFound _ || notFound _) eqn:En; [discriminate|].
  destruct (lowConfidence m _ || lowConfidence m _ || lowConfidence m _) eqn:El;
    [discriminate|].
  intro H. injection H as <-.
  apply orb_false_elim in En. destruct En as [En En3].
  apply orb_false_elim in En. destruct En as [En1 En2].
  apply orb_false_elim in El. destruct El as [El El3].
  apply orb_false_elim in El. destruct El as [El1 El2].
  repeat split; assumption.
Qed.

(** What [measureAngle] does on a state with three selected joints and a
    pose is what [drawAngles] computes for these joints on this pose. *)
Lemma measureAngle_drawnAngle m st kps :
  (3 <= length (selectedJoints st))%nat -> lastPose st = Some kps ->
  measureAngle m st
  = match drawnAngle m kps (lastThree (selectedJoints st)) with
    | Some v => (Some v,
                 mkJointState (selectedJoints st)
                              (measuredAngles st ++ [lastThree (selectedJoints st)])
                              (lastPose st))
    | None => (None, st)
    end.
Proof.
  intros H3 Hp. unfold measureAngle, drawnAngle.
  apply Nat.ltb_ge in H3. rewrite H3, Hp. cbv zeta.
  destruct (notFound _ || notFound _ || notFound _); [reflexivity|].
  destruct (lowConfidence m _ || lowConfidence m _ || lowConfidence m _);
    reflexivity.
Qed.

Lemma calculateAngle_range a b c : 0 <= calculateAngle a b c <= 180.
Proof.
  unfold calculateAngle.
  destruct (Req_dec_T _ 0); [lra|]. destruct (Req_dec_T _ 0); [lra|].
  match goal with |- context [acos ?t] => pose proof (acos_bound t) as [Hlo Hhi] end.
  pose proof PI_RGT_0 as Hpi. split.
  - apply Rmult_le_pos; [nra|]. apply Rlt_le, Rinv_0_lt_compat, Hpi.
  - apply Rmult_le_reg_r with PI; [exact Hpi|].
    unfold Rdiv. rewrite Rmult_assoc, Rinv_l by lra. nra.
Qed.

Lemma lastThree_length l : (length (lastThree l) <= 3)%nat.
Proof. unfold lastThree. rewrite length_skipn. lia. Qed.

Lemma NoDup_skipn {A : Type} n (l : list A) : NoDup l -> NoDup (skipn n l).
Proof.
  revert l. induction n as [|n IH]; intros l H; [exact H|].
  destruct l as [|a l]; [exact H|]. simpl. apply IH. now inversion H.
Qed.

Lemma existsb_eqb_false name l :
  existsb (String.eqb name) l = false -> ~ In name l.
Proof.
  intros H Hin.
  assert (existsb (String.eqb name) l = true) as E.
  { apply existsb_exists. exists name. split; [exact Hin | apply String.eqb_refl]. }
  congruence.
Qed.

Lemma addSelectedJoint_inv sel name :
  (length sel <= 3)%nat -> NoDup sel -> ~ In EmptyString sel ->
  let sel' := addSelectedJoint sel name in
  (length sel' <= 3)%nat /\ NoDup sel' /\ ~ In EmptyString sel'.
Proof.
  intros Hlen Hnd Hne. unfold addSelectedJoint.
  destruct (String.eqb name EmptyString) eqn:E0; simpl; [auto|].
  destruct (existsb (String.eqb name) sel) eqn:Ein; simpl; [auto|].
  apply existsb_eqb_false in Ein. apply String.eqb_neq in E0.
  assert (Hnd' : NoDup (sel ++ [name])).
  { apply NoDup_app; [exact Hnd | repeat constructor; intros [] |].
    intros a Ha [Hb|[]]. subst a. contradiction. }
  assert (Hne' : ~ In EmptyString (sel ++ [name])).
  { intro H. apply in_app_or in H. destruct H as [H|[H|[]]]; [auto|].
    apply E0. now symmetry. }
  destruct (3 <? length (sel ++ [name]))%nat eqn:E3.
  - split; [apply lastThree_length|]. split; [now apply NoDup_skipn|].
    intro H. apply Hne'. unfold lastThree in H.
    rewrite <- (firstn_skipn (length (sel ++ [name]) - 3) (sel ++ [name])).
    apply in_or_app. now right.
  - apply Nat.ltb_ge in E3. auto.
Qed.


(** X21.  For an element whose sizes are whole numbers of pixels the scale of
    [getContainedRect] is positive and is the smaller of the two ratios
    [dw / vw] and [dh / vh]; [mapKeypointsToDisplay] returns one keypoint per
    keypoint, with the same name and score and the coordinates
    [x * scale + offX] and [y * scale + offY], where the offsets are
    [(dw - vw * scale) / 2] and [(dh - vh * scale) / 2]; it keeps the order
    of the keypoints along both axes. *)
Theorem getContainedRect_letterbox (el : VideoEl) :
  sized el ->
  let r := getContainedRect el in
  let vw := orOne (videoWidth el) in
  let vh := orOne (videoHeight el) in
  let dw := orOne (clientWidth el) in
  let dh := orOne (clientHeight el) in
  let shown := placed (rect_scale r) ((dw - vw * rect_scale r) / 2)
                      ((dh - vh * rect_scale r) / 2) in
  0 < rect_scale r
  /\ rect_scale r <= dw / vw /\ rect_scale r <= dh / vh
  /\ (rect_scale r = dw / vw \/ rect_scale r = dh / vh)
  /\ (forall kps, length (mapKeypointsToDisplay kps el) = length kps)
  /\ (forall kps i kp, nth_error kps i = Some kp ->
        nth_error (mapKeypointsToDisplay kps el) i = Some (shown kp))
  /\ (forall a b, kp_x a <= kp_x b -> kp_x (shown a) <= kp_x (shown b))
  /\ (forall a b, kp_y a <= kp_y b -> kp_y (shown a) <= kp_y (shown b)).
Proof.
  intros Hs r vw vh dw dh shown.
  pose proof (getContainedRect_scale_pos el Hs) as Hsc. fold r in Hsc.
  assert (Hr : rect_scale r = Rmin (dw / vw) (dh / vh)) by reflexivity.
  split; [exact Hsc|].
  split; [rewrite Hr; apply Rmin_l|].
  split; [rewrite Hr; apply Rmin_r|].
  split.
  { rewrite Hr. destruct (Rle_dec (dw / vw) (dh / vh)) as [Hle|Hgt].
    - left. now apply Rmin_left.
    - right. apply Rmin_right. lra. }
  split; [intro kps; unfold mapKeypointsToDisplay; apply length_map|].
  split.
  { intros kps i kp Hi. unfold mapKeypointsToDisplay. fold r.
    rewrite nth_error_map, Hi. reflexivity. }
  split; intros a b Hab; unfold shown, placed; cbn [kp_x kp_y]; nra.
Qed.

Lemma getContainedRect_letterbox_witness :
  let el := mkVideoEl 4 2 2 2 in
  let r := getContainedRect el in
  0 < rect_scale r
  /\ (rect_scale r = orOne 2 / orOne 4 \/ rect_scale r = orOne 2 / orOne 2)
  /\ nth_error (mapKeypointsToDisplay [mkKeypoint "nose" (Some 1) 4 2] el) 0
     = Some (placed (rect_scale r) ((orOne 2 - orOne 4 * rect_scale r) / 2)
                    ((orOne 2 - orOne 2 * rect_scale r) / 2)
                    (mkKeypoint "nose" (Some 1) 4 2)).
Proof.
  intros el r.
  assert (Hs : sized el).
  { exists 4%nat, 2%nat, 2%nat, 2%nat. unfold el. simpl. repeat split; lra. }
  pose proof (getContainedRect_letterbox el Hs) as H.
  destruct H as (H1 & _ & _ & H2 & _ & H3 & _).
  split; [exact H1|]. split; [exact H2|].
  apply (H3 [mkKeypoint "nose" (Some 1) 4 2] 0%nat). reflexivity.
Defined.

(** X22.  [measureAngle] returns [null] and changes nothing with fewer than
    three selected joints or without a pose, and nothing changes whenever it
    returns [null].  When it returns a value it has recorded exactly the last
    three selected joints, each of which was found in [byName] with a score
    not below the threshold, and [drawAngles] computes the same value for
    them on the same keypoints.  With a positive threshold each of the three
    is a keypoint of the pose carrying the selected name, and the value is an
    angle between 0 and 180 degrees.  On the display keypoints of a pose
    without a keypoint named [__proto__] every lookup finds the display image
    of what it finds on the pose, so [drawAngles] draws an angle for the
    joints exactly when [measureAngle] would measure one. *)
Theorem measureAngle_and_drawAngles_agree (minConfidence : R) (st : JointState) :
  ((length (selectedJoints st) < 3)%nat \/ lastPose st = None ->
   measureAngle minConfidence st = (None, st))
  /\ (forall st', measureAngle minConfidence st = (None, st') -> st' = st)
  /\ (forall v st',
        measureAngle minConfidence st = (Some v, st') ->
        exists kps,
          lastPose st = Some kps
          /\ let joints := lastThree (selectedJoints st) in
             length joints = 3%nat
             /\ st' = mkJointState (selectedJoints st)
                                   (measuredAngles st ++ [joints]) (lastPose st)
             /\ (forall i, (i < 3)%nat ->
                   byName kps (nth i joints "undefined"%string) <> NotFound
                   /\ ~ scoreOf (byName kps (nth i joints "undefined"%string))
                        < minConfidence)
             /\ drawnAngle minConfidence kps joints = Some v
             /\ (0 < minConfidence ->
                 exists k1 k2 k3,
                   byName kps (nth 0 joints "undefined"%string) = FoundKeypoint k1
                   /\ byName kps (nth 1 joints "undefined"%string) = FoundKeypoint k2
                   /\ byName kps (nth 2 joints "undefined"%string) = FoundKeypoint k3
                   /\ map kp_name [k1; k2; k3] = joints
                   /\ v = Angle (calculateAngle k1 k2 k3)
                   /\ 0 <= calculateAngle k1 k2 k3 <= 180))
  /\ (forall el kps joints,
        plainNames kps ->
        let r := getContainedRect el in
        let shown := placed (rect_scale r) (rect_offX r) (rect_offY r) in
        (forall name,
            byName (mapKeypointsToDisplay kps el) name
            = mapFound shown (byName kps name))
        /\ (drawnAngle minConfidence (mapKeypointsToDisplay kps el) joints = None
            <-> drawnAngle minConfidence kps joints = None)).
Proof.
  split.
  { intros [Hlt|Hnone]; unfold measureAngle.
    - apply Nat.ltb_lt in Hlt. now rewrite Hlt.
    - rewrite Hnone. now destruct (length (selectedJoints st) <? 3)%nat. }
  split.
  { intros st'. unfold measureAngle.
    destruct (length (selectedJoints st) <? 3)%nat; [congruence|].
    destruct (lastPose st) as [kps|]; [|congruence]. cbv zeta.
    destruct (notFound _ || notFound _ || notFound _); [congruence|].
    destruct (lowConfidence _ _ || lowConfidence _ _ || lowConfidence _ _);
      [congruence | discriminate]. }
  split.
  { intros v st' H.
    destruct (Nat.ltb_spec (length (selectedJoints st)) 3) as [Hlt|H3].
    { unfold measureAngle in H. apply Nat.ltb_lt in Hlt. rewrite Hlt in H.
      discriminate. }
    destruct (lastPose st) as [kps|] eqn:Ep.
    2:{ unfold measureAngle in H. rewrite Ep in H.
        destruct (length (selectedJoints st) <? 3)%nat; discriminate. }
    exists kps. split; [reflexivity|]. intro joints.
    rewrite (measureAngle_drawnAngle minConfidence st kps H3 Ep) in H.
    fold joints in H.
    destruct (drawnAngle minConfidence kps joints) as [v'|] eqn:Ed;
      [|discriminate].
    injection H as <- <-.
    assert (Hlen : length joints = 3%nat).
    { unfold joints, lastThree. rewrite length_skipn. lia. }
    destruct (drawnAngle_Some _ _ _ _ Ed)
      as ((Hn1 & Hn2 & Hn3) & (Hl1 & Hl2 & Hl3) & Hv).
    split; [exact Hlen|]. split; [now rewrite Ep|]. split.
    { assert (Hone : forall r, notFound r = false ->
                lowConfidence minConfidence r = false ->
                r <> NotFound /\ ~ scoreOf r < minConfidence).
      { intros r Hn Hl. split; [intros ->; discriminate|].
        unfold lowConfidence in Hl.
        destruct (Rlt_dec (scoreOf r) minConfidence); [discriminate|assumption]. }
      intros i Hi.
      destruct i as [|[|[|i]]]; [now apply Hone.. | lia]. }
    split; [reflexivity|].
    intro Hm.
    destruct (lowConfidence_keypoint _ _ Hm Hn1 Hl1) as [k1 E1].
    destruct (lowConfidence_keypoint _ _ Hm Hn2 Hl2) as [k2 E2].
    destruct (lowConfidence_keypoint _ _ Hm Hn3 Hl3) as [k3 E3].
    exists k1, k2, k3.
    split; [exact E1|]. split; [exact E2|]. split; [exact E3|].
    split.
    { apply byName_name in E1, E2, E3. cbn [map]. rewrite E1, E2, E3.
      destruct joints as [|j1 [|j2 [|j3 [|j4 js]]]]; try discriminate Hlen.
      reflexivity. }
    split; [|apply calculateAngle_range].
    rewrite Hv, E1, E2, E3. reflexivity. }
  { intros el kps joints Hp r shown.
    assert (Hb : forall name,
               byName (mapKeypointsToDisplay kps el) name
               = mapFound shown (byName kps name)).
    { intro name. rewrite mapKeypointsToDisplay_placed.
      now apply byName_map. }
    split; [exact Hb|].
    unfold drawnAngle. cbv zeta. rewrite !Hb, !notFound_mapFound.
    rewrite !(lowConfidence_mapFound minConfidence shown) by reflexivity.
    destruct (notFound _ || notFound _ || notFound _); [tauto|].
    destruct (lowConfidence _ _ || lowConfidence _ _ || lowConfidence _ _);
      [tauto|].
    split; discriminate. }
Qed.

Lemma byName_armPose :
  byName armPose "left_shoulder" = FoundKeypoint (nth 0 armPose (mkKeypoint EmptyString None 0 0))
  /\ byName armPose "left_elbow" = FoundKeypoint (nth 1 armPose (mkKeypoint EmptyString None 0 0))
  /\ byName armPose "left_wrist" = FoundKeypoint (nth 2 armPose (mkKeypoint EmptyString None 0 0)).
Proof. repeat split. Qed.

(** The statement at work: with the threshold 0.2 and the three joints of
    the left arm selected on a pose that has them, a measurement returns an
    angle between 0 and 180 degrees and records the three joints. *)
Lemma measureAngle_and_drawAngles_agree_witness :
  exists a st',
    measureAngle (2 / 10) armState = (Some (Angle a), st')
    /\ 0 <= a <= 180
    /\ measuredAngles st' = [armJoints]
    /\ selectedJoints st' = armJoints.
Proof.
  destruct byName_armPose as (B1 & B2 & B3).
  assert (Hlow : forall kp, kp_score kp = Some (9 / 10) ->
             lowConfidence (2 / 10) (FoundKeypoint kp) = false).
  { intros kp Hk. unfold lowConfidence. cbn [scoreOf]. rewrite Hk.
    destruct (Rlt_dec (9 / 10) (2 / 10)); [lra | reflexivity]. }
  assert (Hm : measureAngle (2 / 10) armState
               = (Some (calculateAngleOf (byName armPose "left_shoulder")
                                         (byName armPose "left_elbow")
                                         (byName armPose "left_wrist")),
                  mkJointState armJoints [armJoints] (Some armPose))).
  { unfold measureAngle, armState.
    cbn [selectedJoints lastPose measuredAngles armJoints length Nat.ltb Nat.leb
         lastThree Nat.sub skipn nth app].
    rewrite B1, B2, B3. cbn [notFound orb nth armPose].
    rewrite !Hlow by reflexivity. reflexivity. }
  destruct (measureAngle_and_drawAngles_agree (2 / 10) armState)
    as (_ & _ & H3 & _).
  destruct (H3 _ _ Hm) as (kps & Hk & _ & _ & _ & _ & Hpos).
  destruct (Hpos ltac:(lra)) as (k1 & k2 & k3 & _ & _ & _ & _ & Hv & Hr).
  exists (calculateAngle k1 k2 k3), (mkJointState armJoints [armJoints] (Some armPose)).
  split; [now rewrite Hm, Hv|]. split; [exact Hr|]. split; reflexivity.
Defined.

(** Names that [Object.prototype] defines are found without a pose keypoint:
    with the default threshold 0.2 their missing score refuses the
    measurement, and with the threshold 0 the measurement is recorded and
    its value is NaN. *)
Example measureAngle_inherited_names :
  measureAngle (2 / 10) inheritedState = (None, inheritedState)
  /\ measureAngle 0 inheritedState
     = (Some NotANumber,
        mkJointState inheritedJoints [inheritedJoints] (Some [])).
Proof.
  assert (B : forall name, In name inheritedJoints -> byName [] name = FoundOther).
  { intros name [<-|[<-|[<-|[]]]]; reflexivity. }
  unfold measureAngle, inheritedState.
  cbn [selectedJoints lastPose measuredAngles inheritedJoints length Nat.ltb
       Nat.leb lastThree Nat.sub skipn nth app].
  rewrite !B by (simpl; auto). cbn [notFound orb].
  unfold lowConfidence. cbn [scoreOf]. split.
  - destruct (Rlt_dec 0 (2 / 10)); [reflexivity | lra].
  - destruct (Rlt_dec 0 0); [lra | reflexivity].
Qed.

(** X23.  Whatever names are added, starting from an empty selection or
    after a reset, [addSelectedJoint] keeps at most three joints, never
    keeps one twice and never keeps an empty name; a name that is new and
    not empty becomes the last of the selection. *)
Theorem addSelectedJoint_keeps_three_distinct :
  (forall st names,
      let sel := fold_left addSelectedJoint names
                   (selectedJoints (resetJointAnalysis st)) in
      (length sel <= 3)%nat /\ NoDup sel /\ ~ In EmptyString sel)
  /\ (forall sel name,
        name <> EmptyString -> ~ In name sel ->
        last (addSelectedJoint sel name) EmptyString = name)
  /\ (forall sel name,
        name = EmptyString \/ In name sel -> addSelectedJoint sel name = sel).
Proof.
  split.
  { intros st names. simpl.
    assert (H : forall sel, (length sel <= 3)%nat /\ NoDup sel /\ ~ In EmptyString sel ->
              let sel' := fold_left addSelectedJoint names sel in
              (length sel' <= 3)%nat /\ NoDup sel' /\ ~ In EmptyString sel').
    { induction names as [|n names IH]; intros sel Hinv; [exact Hinv|].
      simpl. apply IH. destruct Hinv as (H1 & H2 & H3).
      now apply addSelectedJoint_inv. }
    apply H. split; [simpl; lia|]. split; [constructor | intros []]. }
  split.
  { intros sel name Hne Hnin. unfold addSelectedJoint.
    apply String.eqb_neq in Hne. rewrite Hne. simpl.
    destruct (existsb (String.eqb name) sel) eqn:E.
    - exfalso. apply existsb_exists in E. destruct E as (y & Hy & Ey).
      apply String.eqb_eq in Ey. subst y. contradiction.
    - destruct (3 <? length (sel ++ [name]))%nat eqn:E3.
      + unfold lastThree. rewrite length_app in *. simpl in *.
        apply Nat.ltb_lt in E3.
        replace (length sel + 1 - 3)%nat with (length sel - 2)%nat by lia.
        rewrite skipn_app.
        replace (length sel - 2 - length sel)%nat with 0%nat by lia. simpl.
        apply last_last.
      + apply last_last. }
  { intros sel name [->|Hin]; unfold addSelectedJoint; [reflexivity|].
    assert (E : existsb (String.eqb name) sel = true).
    { apply existsb_exists. exists name. split; [exact Hin | apply String.eqb_refl]. }
    rewrite E. now rewrite orb_true_r. }
Qed.

End PoseProperties.

(** ** More on the time base *)

Section TimeBaseScaleProperties.
Import TimeBase Spec.
Local Open Scope Q_scope.

Lemma deltasFrom_positive vt : forall p d, In d (deltasFrom p vt) -> 0 < d.
Proof.
  induction vt as [|[j v] tl IH]; simpl; intros p d H; [contradiction|].
  apply in_app_or in H. destruct H as [H|H].
  - destruct ((j <? 201)%nat && Qltb 0 (v - p)) eqn:E; [|contradiction].
    destruct H as [<-|[]]. apply andb_prop in E. destruct E as [_ E].
    now apply Qltb_lt.
  - eapply IH; eauto.
Qed.

Lemma rawDeltas_positive vt d : In d (positiveDeltas vt) -> 0 < d.
Proof.
  destruct vt as [|[i f] tl]; simpl; [contradiction|]. apply deltasFrom_positive.
Qed.

Lemma detectTimeScaleFactor_pos rows k : 0 < detectTimeScaleFactor rows k.
Proof.
  unfold detectTimeScaleFactor.
  set (s := scanRows k 0 rows scanInit).
  assert (Hd : dts s = positiveDeltas (validTimes rows k)) by apply scan_init_dts.
  assert (Hm : dts s <> [] -> 0 < medianOf (dts s)).
  { intro Hne. apply (rawDeltas_positive (validTimes rows k)).
    rewrite <- Hd. now apply medianOf_In. }
  destruct (dts s) as [|d ds]; [reflexivity|].
  specialize (Hm ltac:(discriminate)).
  destruct (firstVal s) as [first|]; [|reflexivity].
  destruct (lastVal s) as [last|]; [|reflexivity].
  destruct (Qle_bool (last - first) 0); [reflexivity|].
  pose proof (firstAccepted_nth (medianOf (d :: ds)) (last - first)
                (validCount s) candidateExps) as Hf.
  destruct (firstAccepted _ _ _ _) as [sc|].
  - destruct Hf as (j & _ & -> & _). apply pow10_pos.
  - apply Qlt_shift_div_l; [exact Hm|]. rewrite Qmult_0_l. reflexivity.
Qed.

Lemma readTime_nonneg_index r k v : readTime r k = Some v -> (0 <= k)%Z.
Proof.
  unfold readTime. destruct (Z.ltb_spec k 0); [discriminate | auto].
Qed.

Lemma nth_error_setCell r : forall n c,
  nth_error (setCell r n c) n
  = match nth_error r n with Some _ => Some c | None => None end.
Proof.
  induction r as [|a r IH]; intros [|n] c; simpl; try reflexivity. apply IH.
Qed.

Lemma nth_error_setCell_other r : forall n c j,
  j <> n -> nth_error (setCell r n c) j = nth_error r j.
Proof.
  induction r as [|a r IH]; intros [|n] c [|j] H; simpl; try reflexivity;
    try congruence.
  apply IH. congruence.
Qed.

Lemma setCell_length r : forall n c, length (setCell r n c) = length r.
Proof.
  induction r as [|a r IH]; intros [|n] c; simpl; try reflexivity.
  now rewrite IH.
Qed.

Lemma readTime_rewrittenRow k t0raw sc r v :
  readTime r k = Some v ->
  readTime (rewrittenRow k t0raw sc r) k = Some ((v - t0raw) * sc).
Proof.
  intro H. unfold rewrittenRow. rewrite H.
  unfold readTime in *. destruct (k <? 0)%Z; [discriminate|].
  rewrite nth_error_setCell.
  destruct (nth_error r (Z.to_nat k)) as [[q|s]|]; try discriminate. reflexivity.
Qed.

(** The two running maxima stay in the ratio [sc]. *)
Lemma rewriteRows_ratio k t0raw sc rows : 0 < sc -> forall mraw mt,
  mt == mraw * sc ->
  snd (snd (rewriteRows k t0raw sc rows mraw mt))
  == fst (snd (rewriteRows k t0raw sc rows mraw mt)) * sc.
Proof.
  intro Hsc. induction rows as [|r rest IH]; intros mraw mt Hr; simpl.
  - exact Hr.
  - destruct (readTime r k) as [v|].
    + match goal with
      | |- context [rewriteRows k t0raw sc rest ?a ?b] =>
          specialize (IH a b);
          destruct (rewriteRows k t0raw sc rest a b) as [rs [m1 m2]] eqn:E
      end.
      simpl in *. apply IH.
      destruct (Qltb mraw (v - t0raw)) eqn:E1;
        destruct (Qltb mt ((v - t0raw) * sc)) eqn:E2.
      * reflexivity.
      * exfalso. apply Qltb_lt in E1. apply Qltb_ge in E2.
        assert (mraw * sc < (v - t0raw) * sc)
          by (apply Qmult_lt_compat_r; assumption).
        rewrite <- Hr in H. exact (Qlt_not_le _ _ H E2).
      * exfalso. apply Qltb_ge in E1. apply Qltb_lt in E2.
        assert ((v - t0raw) * sc <= mraw * sc)
          by (apply Qmult_le_compat_r; [assumption | now apply Qlt_le_weak]).
        rewrite <- Hr in H. exact (Qlt_not_le _ _ E2 H).
      * exact Hr.
    + specialize (IH mraw mt).
      destruct (rewriteRows k t0raw sc rest mraw mt) as [rs [m1 m2]].
      simpl in *. now apply IH.
Qed.


End TimeBaseScaleProperties.

(** ** More on the viewer *)

Section ViewerSyncProperties.
Import Viewer ViewerSpec.
Local Open Scope Q_scope.

Lemma SyncOk_view w w' : syncView w' = syncView w -> SyncOk w -> SyncOk w'.
Proof.
  unfold syncView, SyncOk. intro H. injection H as -> -> -> -> -> ->. auto.
Qed.

Lemma syncView_fields w a b c d e f :
  syncView w = (a, b, c, d, e, f) ->
  timeSync_offset w = a /\ offset (state w) = b /\ followManualEnabled w = c
  /\ followVideo w = d /\ suppressImuToVideo w = e /\ suppressVideoToImu w = f.
Proof. unfold syncView. intro H. inversion H. repeat split; reflexivity. Qed.

Lemma onImuCursorChanged_view t w :
  suppressVideoToImu w = false ->
  syncView (onImuCursorChanged t w) = syncView w.
Proof.
  intro Hs. unfold onImuCursorChanged.
  destruct (video w); [|reflexivity].
  destruct (negb (canFollow w) || suppressImuToVideo w); [reflexivity|].
  destruct (timeSync_offset w) eqn:E; [|reflexivity].
  unfold syncView. simpl. now rewrite E, Hs.
Qed.

Lemma setImuCursorX_view n w :
  suppressVideoToImu w = false -> syncView (setImuCursorX n w) = syncView w.
Proof.
  intro Hs. unfold setImuCursorX. now rewrite onImuCursorChanged_view.
Qed.

Lemma pushVideoTimeToImu_view w :
  suppressImuToVideo w = false -> suppressVideoToImu w = false ->
  syncView (pushVideoTimeToImu w) = syncView w.
Proof.
  intros H1 H2. unfold pushVideoTimeToImu.
  destruct (video w); [|reflexivity]. rewrite H2.
  destruct (negb (canFollow w)); [reflexivity|].
  unfold syncView at 1. cbn [timeSync_offset state followManualEnabled followVideo
    suppressImuToVideo suppressVideoToImu withSuppressImuToVideo].
  match goal with
  | |- context [setImuCursorX ?n ?w1] =>
      pose proof (setImuCursorX_view n w1 H2) as E
  end.
  unfold syncView in E. injection E as -> -> -> -> _ ->.
  unfold syncView. simpl. now rewrite H1.
Qed.

Lemma SyncOk_pushVideoTimeToImu w : SyncOk w -> SyncOk (pushVideoTimeToImu w).
Proof.
  intro H. apply (SyncOk_view w); [|exact H].
  destruct H as (_ & _ & _ & H1 & H2). now apply pushVideoTimeToImu_view.
Qed.

Lemma SyncOk_setFollowVideoMode follow w :
  timeSync_offset w = offset (state w) ->
  followManualEnabled w = Fusion.isSome (offset (state w)) ->
  suppressImuToVideo w = false -> suppressVideoToImu w = false ->
  SyncOk (setFollowVideoMode follow w).
Proof.
  intros H1 H2 H3 H4. unfold setFollowVideoMode.
  set (w2 := applyMode follow (withFollowVideo w follow)).
  assert (Hok : SyncOk w2).
  { unfold w2, applyMode, SyncOk. simpl. rewrite H1.
    repeat split; auto.
    destruct follow; [|discriminate].
    destruct (offset (state w)); [discriminate | discriminate]. }
  destruct (canFollow w2); [now apply SyncOk_pushVideoTimeToImu | exact Hok].
Qed.

Lemma SyncOk_onTimeSyncChanged w :
  followManualEnabled w = Fusion.isSome (offset (state w)) ->
  (followVideo w = true -> offset (state w) <> None) ->
  suppressImuToVideo w = false -> suppressVideoToImu w = false ->
  SyncOk (onTimeSyncChanged w).
Proof.
  intros H2 H3 H4 H5. unfold onTimeSyncChanged.
  set (w1 := withOffsetCache w (offset (state w))).
  assert (Hok : SyncOk w1) by (unfold w1, SyncOk; simpl; auto).
  destruct (canFollow w1); [now apply SyncOk_pushVideoTimeToImu | exact Hok].
Qed.

Lemma resetZoomToFullRange_view w : syncView (resetZoomToFullRange w) = syncView w.
Proof. reflexivity. Qed.

Lemma setMarkerX_view v w : syncView (setMarkerX v w) = syncView w.
Proof. destruct v as [[q| | |]|]; reflexivity. Qed.

Lemma onTimeframeMarked_view d1 d2 w :
  syncView (onTimeframeMarked d1 d2 w) = syncView w.
Proof. reflexivity. Qed.

Lemma onTimeframeReset_view w : syncView (onTimeframeReset w) = syncView w.
Proof. reflexivity. Qed.

Lemma onTimeframeApplied_view s e d1 d2 w :
  syncView (onTimeframeApplied s e d1 d2 w) = syncView w.
Proof. reflexivity. Qed.

Lemma renderImu_view csv w : syncView (renderImu csv w) = syncView w.
Proof. destruct csv as [[rows k]|]; reflexivity. Qed.

Lemma SyncOk_handle e w : SyncOk w -> SyncOk (handle e w).
Proof.
  intro H. pose proof H as (H1 & H2 & H3 & H4 & H5).
  destruct e; simpl.
  - apply (SyncOk_view w); [now apply setImuCursorX_view | exact H].
  - destruct (video w) eqn:Ev; [|exact H].
    apply SyncOk_pushVideoTimeToImu. apply (SyncOk_view w); [reflexivity | exact H].
  - apply (SyncOk_view w); [apply renderImu_view | exact H].
  - unfold markVideo. destruct (video w); [|exact H].
    apply (SyncOk_view w); [reflexivity | exact H].
  - unfold markImu. apply (SyncOk_view w); [apply setMarkerX_view | exact H].
  - unfold computeOffset.
    destruct (videoMarkerT (state w)) as [v|]; [|exact H].
    destruct (imuMarker w) as [m|]; [|exact H].
    match goal with
    | |- SyncOk (onTimeSyncChanged (setFollowVideoMode false ?w2)) =>
        set (w3 := setFollowVideoMode false w2);
        assert (E3 : syncView w3
                     = (timeSync_offset w, Some (v - m), true, false, false, false))
    end.
    { unfold w3, setFollowVideoMode, applyMode, canFollow. simpl.
      unfold syncView. simpl. now rewrite H4, H5. }
    apply syncView_fields in E3. destruct E3 as (E31 & E32 & E33 & E34 & E35 & E36).
    apply SyncOk_onTimeSyncChanged;
      [rewrite E32; exact E33 | intro Hf; congruence | exact E35 | exact E36].
  - unfold clearAll.
    match goal with
    | |- SyncOk (onTimeSyncChanged (setFollowVideoMode false ?w4)) =>
        set (w5 := setFollowVideoMode false w4);
        assert (E5 : syncView w5
                     = (timeSync_offset w, None, false, false, false, false))
    end.
    { unfold w5, setFollowVideoMode, applyMode, canFollow. simpl.
      unfold syncView. simpl. now rewrite H4, H5. }
    apply syncView_fields in E5. destruct E5 as (E51 & E52 & E53 & E54 & E55 & E56).
    apply SyncOk_onTimeSyncChanged;
      [rewrite E52; exact E53 | intro Hf; congruence | exact E55 | exact E56].
  - apply (SyncOk_view w); [reflexivity | exact H].
  - apply (SyncOk_view w); [reflexivity | exact H].
  - apply (SyncOk_view w); [reflexivity | exact H].
  - unfold applyTimeframe. destruct (canApplyTimeframe (state w)); [|exact H].
    destruct (t1 (state w)); [|exact H]. destruct (t2 (state w)); [|exact H].
    apply (SyncOk_view w); [apply onTimeframeApplied_view | exact H].
  - unfold clickFollow.
    pose proof (SyncOk_setFollowVideoMode follow w H1 H2 H4 H5) as Hs.
    destruct (followManualEnabled w); [exact Hs | exact H].
Qed.

(** X25.  Whatever the user does, the offset cached for the video/IMU
    coupling is the offset of the sync panel, the Follow/Manual buttons are
    enabled exactly when an offset has been computed, follow mode is never
    on without an offset, and neither suppression flag is left set. *)
Theorem sync_state_stays_consistent (es : list Event) (video : option Q) :
  let w := run es (initialWorld video) in
  timeSync_offset w = offset (state w)
  /\ followManualEnabled w = Fusion.isSome (offset (state w))
  /\ (followVideo w = true -> offset (state w) <> None)
  /\ suppressImuToVideo w = false
  /\ suppressVideoToImu w = false.
Proof.
  assert (H : forall w0, SyncOk w0 -> SyncOk (run es w0)).
  { induction es as [|e es IH]; intros w0 H0; [exact H0|].
    simpl. apply IH. now apply SyncOk_handle. }
  apply (H (initialWorld video)).
  unfold SyncOk. simpl. repeat split; auto. discriminate.
Qed.

End ViewerSyncProperties.
